(** * CAP alerts loader: a shallow embedding of
      [msc_pygeoapi/loader/cap_alerts.py] and the properties of its
      document-to-GeoJSON transformation.

    Layout:
    - [Py]: the Python primitives the loader relies on (exceptions,
      [str] methods, insertion-ordered [dict], [float()], naive
      [datetime] with [strptime]/[strftime]);
    - [Etree]: the part of [lxml.etree] the loader uses ([find], [iter]);
    - [CapAlerts]: [_get_date_format], [_get_element] and
      [weather_warning2geojson];
    - the lemmas and theorems about them. *)

From Stdlib Require Import List String Ascii Bool Arith ZArith Lia.
From Stdlib Require Import Floats.SpecFloat.
Import ListNotations.

Local Open Scope string_scope.
Local Open Scope list_scope.
Local Open Scope nat_scope.

(* ================================================================= *)
(** ** Python primitives *)

Module Py.

(** The exceptions the loader can run into. *)
Inductive exn : Type :=
| TypeError
| ValueError
| AttributeError
| KeyError
| IndexError
| UnboundLocalError.

(** A computation either returns a value or raises. *)
Inductive result (A : Type) : Type :=
| Ok (a : A)
| Raise (e : exn).

Arguments Ok {A} a.
Arguments Raise {A} e.

Definition bind {A B : Type} (m : result A) (k : A -> result B) : result B :=
  match m with
  | Ok a => k a
  | Raise e => Raise e
  end.

Notation "x <- m ;; k" := (bind m (fun x => k))
  (at level 61, m at next level, right associativity).

(** A [for] loop whose body threads an accumulator and may raise. *)
Fixpoint for_each {A S : Type} (body : S -> A -> result S) (xs : list A)
  (s : S) : result S :=
  match xs with
  | [] => Ok s
  | x :: rest => bind (body s x) (for_each body rest)
  end.

(** *** [str] *)

(** Characters are code points below 256. *)

Fixpoint chars (s : string) : list ascii :=
  match s with
  | EmptyString => []
  | String c r => c :: chars r
  end.

Fixpoint str_of (l : list ascii) : string :=
  match l with
  | [] => EmptyString
  | c :: r => String c (str_of r)
  end.

(** [c in s] for a one-character [c]. *)
Fixpoint char_in (c : ascii) (s : string) : bool :=
  match s with
  | EmptyString => false
  | String a r => Ascii.eqb a c || char_in c r
  end.

(** [s[:n]] for [0 <= n]. *)
Fixpoint take (n : nat) (s : string) : string :=
  match n, s with
  | S k, String c r => String c (take k r)
  | _, _ => EmptyString
  end.

Fixpoint starts_with (p s : string) : bool :=
  match p, s with
  | EmptyString, _ => true
  | String a p', String b s' => Ascii.eqb a b && starts_with p' s'
  | String _ _, EmptyString => false
  end.

(** [p in s] *)
Fixpoint str_in (p s : string) : bool :=
  starts_with p s
  || match s with
     | EmptyString => false
     | String _ r => str_in p r
     end.

(** [s.replace(old, new)] for a non-empty [old]: left to right, matches do
    not overlap.  [skip] counts the characters of a match still to drop. *)
Fixpoint replace_from (old new : string) (skip : nat) (s : string) : string :=
  match s with
  | EmptyString => EmptyString
  | String c r =>
      match skip with
      | S k => replace_from old new k r
      | O =>
          if starts_with old s
          then (new ++ replace_from old new (String.length old - 1) r)%string
          else String c (replace_from old new 0 r)
      end
  end.

(** [s.replace("", new)] puts [new] before every character and at the end. *)
Fixpoint interleave (new s : string) : string :=
  match s with
  | EmptyString => new
  | String c r => (new ++ String c (interleave new r))%string
  end.

Definition replace (old new s : string) : string :=
  match old with
  | EmptyString => interleave new s
  | String _ _ => replace_from old new 0 s
  end.

(** [str.isspace] on one character. *)
Definition is_space (c : ascii) : bool :=
  let n := nat_of_ascii c in
  ((9 <=? n) && (n <=? 13)) || ((28 <=? n) && (n <=? 32))
  || (n =? 133) || (n =? 160).

Fixpoint lstrip (s : string) : string :=
  match s with
  | EmptyString => EmptyString
  | String c r => if is_space c then lstrip r else s
  end.

Fixpoint rstrip (s : string) : string :=
  match s with
  | EmptyString => EmptyString
  | String c r =>
      match rstrip r with
      | EmptyString => if is_space c then EmptyString else String c EmptyString
      | r' => String c r'
      end
  end.

(** [s.strip()] *)
Definition strip (s : string) : string := rstrip (lstrip s).

(** Splitting at every character of a class: the common part of
    [s.split(",")] and [re.split(" |,", s)].  There is one piece more
    than there are separators. *)
Fixpoint split_at (sep : ascii -> bool) (s : string) : list string :=
  match s with
  | EmptyString => [EmptyString]
  | String c r =>
      if sep c then EmptyString :: split_at sep r
      else match split_at sep r with
           | [] => [String c EmptyString]
           | p :: ps => String c p :: ps
           end
  end.

(** Deleting every character of a class: [re.sub("[...]", "", s)]. *)
Fixpoint delete_class (cls : ascii -> bool) (s : string) : string :=
  match s with
  | EmptyString => EmptyString
  | String c r =>
      if cls c then delete_class cls r else String c (delete_class cls r)
  end.

(** *** [list] *)

(** [l[i]] for [0 <= i]. *)
Definition getitem {A : Type} (l : list A) (i : nat) : result A :=
  match nth_error l i with
  | Some a => Ok a
  | None => Raise IndexError
  end.

(** [l[-1]] *)
Definition last_item {A : Type} (l : list A) : result A :=
  match rev l with
  | a :: _ => Ok a
  | [] => Raise IndexError
  end.

(** [list(reversed(range(0, n, 2)))] *)
Definition reversed_range2 (n : nat) : list nat :=
  rev (map (fun i => 2 * i) (seq 0 (Nat.div2 (S n)))).

(** [l1 == l2], the elements compared with [eqb]. *)
Fixpoint list_eqb {A : Type} (eqb : A -> A -> bool) (l1 l2 : list A) : bool :=
  match l1, l2 with
  | [], [] => true
  | a :: r1, b :: r2 => eqb a b && list_eqb eqb r1 r2
  | _, _ => false
  end.

(** [x in l] *)
Definition mem {A : Type} (eqb : A -> A -> bool) (x : A) (l : list A) : bool :=
  existsb (eqb x) l.

(** *** [dict] with [str] keys, in insertion order *)

Definition dict (V : Type) : Type := list (string * V).

Definition keys {V : Type} (d : dict V) : list string := map fst d.

Fixpoint get {V : Type} (d : dict V) (k : string) : option V :=
  match d with
  | [] => None
  | (k', v) :: r => if String.eqb k' k then Some v else get r k
  end.

(** [k in d] *)
Definition contains {V : Type} (d : dict V) (k : string) : bool :=
  match get d k with
  | Some _ => true
  | None => false
  end.

(** [d[k]] *)
Definition lookup {V : Type} (d : dict V) (k : string) : result V :=
  match get d k with
  | Some v => Ok v
  | None => Raise KeyError
  end.

(** [d[k] = v]: a present key keeps its place, a new one goes last. *)
Fixpoint setitem {V : Type} (d : dict V) (k : string) (v : V) : dict V :=
  match d with
  | [] => [(k, v)]
  | (k', v') :: r =>
      if String.eqb k' k then (k', v) :: r else (k', v') :: setitem r k v
  end.

(** [del d[k]] *)
Definition delitem {V : Type} (d : dict V) (k : string) : result (dict V) :=
  if contains d k
  then Ok (filter (fun kv => negb (String.eqb (fst kv) k)) d)
  else Raise KeyError.

(** *** [int] and [float] from text *)

Definition char_between (lo hi c : ascii) : bool :=
  (nat_of_ascii lo <=? nat_of_ascii c) && (nat_of_ascii c <=? nat_of_ascii hi).

Definition is_digit (c : ascii) : bool := char_between "0" "9" c.

Definition digit_value (c : ascii) : nat := nat_of_ascii c - 48.

Definition digit_char (n : nat) : ascii := ascii_of_nat (48 + n).

(** [int(s)] for a run of decimal digits, blanks around it allowed. *)
Definition int_of (s : string) : nat :=
  fold_left (fun acc c => 10 * acc + digit_value c) (chars (strip s)) 0.

Definition Z_of_digits (s : string) : Z :=
  fold_left (fun acc c => (10 * acc + Z.of_nat (digit_value c))%Z) (chars s) 0%Z.

Fixpoint span_digits (s : string) : string * string :=
  match s with
  | EmptyString => (EmptyString, EmptyString)
  | String c r =>
      if is_digit c
      then let (d, t) := span_digits r in (String c d, t)
      else (EmptyString, s)
  end.

Definition float : Type := spec_float.

Definition prec : Z := 53.
Definition emax : Z := 1024.

(** [x == y] on floats: a NaN equals nothing, the two zeros are equal. *)
Definition float_eqb (x y : float) : bool := SFeqb x y.

(** The literal [0.0]. *)
Definition float_zero : float := S754_zero false.

(** The binary64 nearest to [m * 10^e] (ties to even), [nd] being the
    number of decimal digits [m] was read from.  Exponents that put the
    value beyond the largest double, or below half the smallest one, are
    answered without computing the power of ten. *)
Definition decimal_to_float (neg : bool) (m e : Z) (nd : Z) : float :=
  match m with
  | Zpos p =>
      if (309 <=? e)%Z then S754_infinity neg
      else if (e + nd <? -400)%Z then S754_zero neg
      else if (0 <=? e)%Z
      then binary_round prec emax neg (p * Z.to_pos (10 ^ e))%positive 0
      else
        let '(q, e', l) :=
          SFdiv_core_binary prec emax (Zpos p) 0 (10 ^ (- e))%Z 0 in
        binary_round_aux prec emax neg q e' l
  | _ => S754_zero neg
  end.

Definition parse_sign (s : string) : bool * string :=
  match s with
  | String "-" r => (true, r)
  | String "+" r => (false, r)
  | _ => (false, s)
  end.

(** What may follow the mantissa: nothing, or [e]/[E], a sign and digits. *)
Definition parse_exponent (s : string) : option Z :=
  match s with
  | EmptyString => Some 0%Z
  | String c r =>
      if Ascii.eqb c "e" || Ascii.eqb c "E"
      then
        let (neg, r') := parse_sign r in
        match span_digits r' with
        | (String _ _ as ds, EmptyString) =>
            Some (if neg then (- Z_of_digits ds)%Z else Z_of_digits ds)
        | _ => None
        end
      else None
  end.

(** Mantissa, decimal exponent and digit count of an unsigned decimal. *)
Definition parse_decimal (s : string) : option (Z * Z * Z) :=
  let (ip, r1) := span_digits s in
  let (fp, r2) :=
    match r1 with
    | String "." r => span_digits r
    | _ => (EmptyString, r1)
    end in
  match (ip ++ fp)%string with
  | EmptyString => None
  | ds =>
      match parse_exponent r2 with
      | Some x =>
          Some (Z_of_digits ds, (x - Z.of_nat (String.length fp))%Z,
                Z.of_nat (String.length ds))
      | None => None
      end
  end.

(** Underscores may only stand between two digits. *)
Fixpoint drop_underscores (prev : ascii) (s : string) : option string :=
  match s with
  | EmptyString => if Ascii.eqb prev "_" then None else Some EmptyString
  | String c r =>
      if Ascii.eqb c "_"
      then if is_digit prev then drop_underscores c r else None
      else if Ascii.eqb prev "_" && negb (is_digit c) then None
      else option_map (String c) (drop_underscores c r)
  end.

Definition lower_char (c : ascii) : ascii :=
  if char_between "A" "Z" c then ascii_of_nat (nat_of_ascii c + 32) else c.

Fixpoint lower (s : string) : string :=
  match s with
  | EmptyString => EmptyString
  | String c r => String (lower_char c) (lower r)
  end.

(** The white space [float] strips at both ends of its argument: the six
    ASCII characters of C's [isspace], and the two spaces above 127, which
    it turns into blanks first.  The separators 28 to 31 are left in. *)
Definition is_float_space (c : ascii) : bool :=
  let n := nat_of_ascii c in
  ((9 <=? n) && (n <=? 13)) || (n =? 32) || (n =? 133) || (n =? 160).

Fixpoint float_lstrip (s : string) : string :=
  match s with
  | EmptyString => EmptyString
  | String c r => if is_float_space c then float_lstrip r else s
  end.

Fixpoint float_rstrip (s : string) : string :=
  match s with
  | EmptyString => EmptyString
  | String c r =>
      match float_rstrip r with
      | EmptyString => if is_float_space c then EmptyString else String c EmptyString
      | r' => String c r'
      end
  end.

(** [float(s)] *)
Definition float_of_str (s : string) : result float :=
  match drop_underscores Ascii.zero (float_rstrip (float_lstrip s)) with
  | None => Raise ValueError
  | Some u =>
      let (neg, body) := parse_sign u in
      match parse_decimal body with
      | Some (m, e, nd) => Ok (decimal_to_float neg m e nd)
      | None =>
          let l := lower body in
          if String.eqb l "inf" || String.eqb l "infinity"
          then Ok (S754_infinity neg)
          else if String.eqb l "nan" then Ok S754_nan
          else Raise ValueError
      end
  end.

(** *** Naive [datetime] *)

Record datetime : Type := mk_datetime {
  year : nat;
  month : nat;
  day : nat;
  hour : nat;
  minute : nat;
  second : nat;
  microsecond : nat
}.

Definition is_leap (y : nat) : bool :=
  (y mod 4 =? 0) && (negb (y mod 100 =? 0) || (y mod 400 =? 0)).

Definition days_in_month (y m : nat) : nat :=
  match m with
  | 2 => if is_leap y then 29 else 28
  | 4 | 6 | 9 | 11 => 30
  | _ => 31
  end.

(** What the [datetime] constructor accepts: years 1 to 9999, and so on
    down to microseconds below a million. *)
Definition valid_datetime (d : datetime) : bool :=
  (1 <=? year d) && (year d <? 10 * 1000)
  && (1 <=? month d) && (month d <=? 12)
  && (1 <=? day d) && (day d <=? days_in_month (year d) (month d))
  && (hour d <? 24) && (minute d <? 60) && (second d <? 60)
  && (microsecond d <? 1000 * 1000).

Definition lex (c1 c2 : comparison) : comparison :=
  match c1 with
  | Eq => c2
  | _ => c1
  end.

Definition datetime_compare (a b : datetime) : comparison :=
  lex (year a ?= year b)
 (lex (month a ?= month b)
 (lex (day a ?= day b)
 (lex (hour a ?= hour b)
 (lex (minute a ?= minute b)
 (lex (second a ?= second b)
      (microsecond a ?= microsecond b)))))).

(** [a < b], [a > b] and [a >= b] *)
Definition datetime_lt (a b : datetime) : bool :=
  match datetime_compare a b with Lt => true | _ => false end.

Definition datetime_gt (a b : datetime) : bool :=
  match datetime_compare a b with Gt => true | _ => false end.

Definition datetime_ge (a b : datetime) : bool :=
  match datetime_compare a b with Lt => false | _ => true end.

(** The regular expression [strptime] builds for ["%Y%m%d%H%M%S"].  Each
    group lists its ways to match in the order a backtracking matcher
    tries them: the text of the group and the input left after it. *)
Definition ways : Type := list (string * string).

Definition one (p : ascii -> bool) (s : string) : ways :=
  match s with
  | String a r => if p a then [(String a EmptyString, r)] else []
  | _ => []
  end.

Definition two (p q : ascii -> bool) (s : string) : ways :=
  match s with
  | String a (String b r) =>
      if p a && q b then [(String a (String b EmptyString), r)] else []
  | _ => []
  end.

(** [\d\d\d\d] *)
Definition re_Y (s : string) : ways :=
  match s with
  | String a (String b (String c (String d r))) =>
      if is_digit a && is_digit b && is_digit c && is_digit d
      then [(String a (String b (String c (String d EmptyString))), r)]
      else []
  | _ => []
  end.

(** [1[0-2]|0[1-9]|[1-9]] *)
Definition re_m (s : string) : ways :=
  two (Ascii.eqb "1") (char_between "0" "2") s
  ++ two (Ascii.eqb "0") (char_between "1" "9") s
  ++ one (char_between "1" "9") s.

(** [3[0-1]|[1-2]\d|0[1-9]|[1-9]| [1-9]] *)
Definition re_d (s : string) : ways :=
  two (Ascii.eqb "3") (char_between "0" "1") s
  ++ two (char_between "1" "2") is_digit s
  ++ two (Ascii.eqb "0") (char_between "1" "9") s
  ++ one (char_between "1" "9") s
  ++ two (Ascii.eqb " ") (char_between "1" "9") s.

(** [2[0-3]|[0-1]\d|\d] *)
Definition re_H (s : string) : ways :=
  two (Ascii.eqb "2") (char_between "0" "3") s
  ++ two (char_between "0" "1") is_digit s
  ++ one is_digit s.

(** [[0-5]\d|\d] *)
Definition re_M (s : string) : ways :=
  two (char_between "0" "5") is_digit s ++ one is_digit s.

(** [6[0-1]|[0-5]\d|\d] *)
Definition re_S (s : string) : ways :=
  two (Ascii.eqb "6") (char_between "0" "1") s
  ++ two (char_between "0" "5") is_digit s
  ++ one is_digit s.

(** Sequencing: every way of the group, each followed by every way of
    the rest, in that order. *)
Definition then_ {A : Type} (g : string -> ways)
  (k : nat -> string -> list A) (s : string) : list A :=
  flat_map (fun w => k (int_of (fst w)) (snd w)) (g s).

(** All matches of the whole expression at the start of [s], the one
    [re.match] reports first; each with the input it leaves unread. *)
Definition match_YmdHMS (s : string) : list (datetime * string) :=
  then_ re_Y (fun Y =>
  then_ re_m (fun m =>
  then_ re_d (fun d =>
  then_ re_H (fun H =>
  then_ re_M (fun M =>
  then_ re_S (fun S r => [(mk_datetime Y m d H M S 0, r)])))))) s.

(** [datetime.strptime(s, "%Y%m%d%H%M%S")]: the first match has to use up
    the whole of [s] and to be a date the constructor accepts. *)
Definition strptime_YmdHMS (s : string) : result datetime :=
  match match_YmdHMS s with
  | (d, EmptyString) :: _ => if valid_datetime d then Ok d else Raise ValueError
  | _ => Raise ValueError
  end.

Definition pad2 (n : nat) : string :=
  String (digit_char (n / 10 mod 10)) (String (digit_char (n mod 10)) EmptyString).

Definition pad4 (n : nat) : string :=
  String (digit_char (n / 1000 mod 10))
    (String (digit_char (n / 100 mod 10)) (pad2 n)).

(** [%Y] as the C library of the platform writes it: the year in decimal
    with no padding, so one to four digits for the years 1 to 9999 of a
    [datetime]. *)
Definition year_text (y : nat) : string :=
  if y <? 10 then String (digit_char (y mod 10)) EmptyString
  else if y <? 100 then pad2 y
  else if y <? 1000 then String (digit_char (y / 100 mod 10)) (pad2 y)
  else pad4 y.

(** [d.strftime("%Y-%m-%dT%H:%M:%SZ")] *)
Definition strftime_iso (d : datetime) : string :=
  (year_text (year d) ++ "-" ++ pad2 (month d) ++ "-" ++ pad2 (day d) ++ "T"
   ++ pad2 (hour d) ++ ":" ++ pad2 (minute d) ++ ":" ++ pad2 (second d)
   ++ "Z")%string.

End Py.

Import Py.

(* ================================================================= *)
(** ** The part of [lxml.etree] the loader uses *)

Module Etree.

(** An element: tag in Clark notation, attributes, text, children. *)
#[local] Unset Elimination Schemes.
Inductive element : Type :=
| Element (tag : string) (attrib : dict string) (text : option string)
    (children : list element).
#[local] Set Elimination Schemes.

Definition tag (e : element) : string :=
  match e with Element t _ _ _ => t end.

Definition attrib (e : element) : dict string :=
  match e with Element _ a _ _ => a end.

Definition text (e : element) : option string :=
  match e with Element _ _ x _ => x end.

Definition children (e : element) : list element :=
  match e with Element _ _ _ c => c end.

(** Positional predicates of ElementPath: [[i]] counts from 1,
    [[last()-k]] from the end. *)
Inductive predicate : Type :=
| Position (i : positive)
| FromLast (k : nat).

(** One step [tag] or [tag[predicate]] of a path [step/step/...]. *)
Record step : Type := mk_step {
  step_tag : string;
  step_pred : option predicate
}.

Definition path : Type := list step.

Definition iterchildren (e : element) (t : string) : list element :=
  filter (fun c => String.eqb (tag c) t) (children e).

(** Among the children of one parent that carry the tag of the step,
    the predicate keeps the one at its position, if there is one. *)
Definition select_pred (p : option predicate) (elems : list element)
  : list element :=
  match p with
  | None => elems
  | Some (Position i) =>
      match nth_error elems (Pos.to_nat i - 1) with
      | Some e => [e]
      | None => []
      end
  | Some (FromLast k) =>
      if k <? List.length elems
      then match nth_error elems (List.length elems - S k) with
           | Some e => [e]
           | None => []
           end
      else []
  end.

Definition select (st : step) (found : list element) : list element :=
  flat_map (fun e => select_pred (step_pred st) (iterchildren e (step_tag st)))
    found.

Definition findall (node : element) (p : path) : list element :=
  fold_left (fun found st => select st found) p [node].

(** [node.find(path)]: the first match in document order, or [None]. *)
Definition find (node : element) (p : path) : option element :=
  hd_error (findall node p).

(** The element and everything below it, in document order. *)
Fixpoint descendants (e : element) : list element :=
  match e with
  | Element _ _ _ cs =>
      e :: (fix below (l : list element) : list element :=
              match l with
              | [] => []
              | c :: r => descendants c ++ below r
              end) cs
  end.

(** [node.iter(tag)] *)
Definition iter (node : element) (t : string) : list element :=
  filter (fun e => String.eqb (tag e) t) (descendants node).

End Etree.

Import Etree.

(* ================================================================= *)
(** ** The loader *)

Module CapAlerts.

(** [base_xml], the namespace every CAP element lives in. *)
Definition base_xml : string := "{urn:oasis:names:tc:emergency:cap:1.2}".

(** ['{}name'.format(base_xml)] as a tag and as a one-step path. *)
Definition cap_tag (name : string) : string := (base_xml ++ name)%string.

Definition cap (name : string) : step := mk_step (cap_tag name) None.

(** ['{}parameter[...]/{}value'.format(base_xml, base_xml)] *)
Definition parameter_value (p : predicate) : path :=
  [mk_step (cap_tag "parameter") (Some p); cap "value"].

(** [timeformat = '%Y-%m-%dT%H:%M:%SZ'] *)
Definition timeformat : datetime -> string := strftime_iso.

(** [_get_date_format]: the three characters are taken out one after the
    other, each only when it occurs; a missing date is [None], on which the
    membership test raises. *)
Definition _get_date_format (date : option string) : result datetime :=
  match date with
  | None => Raise TypeError
  | Some date =>
      let date :=
        fold_left
          (fun date char =>
             if str_in char date then replace char "" date else date)
          ["T"; "-"; ":"] date in
      let date := take 14 date in
      strptime_YmdHMS date
  end.

(** [_get_element] *)
Definition _get_element (node : element) (p : path) (attrib_ : option string)
  : option string :=
  let val := find node p in
  match attrib_, val with
  | Some a, Some v => get (attrib v) a
  | _, _ =>
      match val with
      | Some v =>
          match text v with
          | None => None
          | Some EmptyString => None
          | Some t => Some t
          end
      | None => None
      end
  end.

(** The tuple kept per area for an English [info]. *)
Record english_tuple : Type := mk_english {
  en_split_tag : list string;      (* [0] *)
  en_name : option string;         (* [1] *)
  en_headline : option string;     (* [2] *)
  en_effective : string;           (* [3] *)
  en_expires : string;             (* [4] *)
  en_warning : option string;      (* [5] *)
  en_status_alert : option string; (* [6] *)
  en_id_warning : string;          (* [7] *)
  en_descript : string;            (* [8] *)
  en_url : string                  (* [9] *)
}.

(** The tuple kept per area for a French [info]. *)
Record french_tuple : Type := mk_french {
  fr_id_warning : string;          (* [0] *)
  fr_name : option string;         (* [1] *)
  fr_headline : option string;     (* [2] *)
  fr_descript : string             (* [3] *)
}.

(** The locals the loop over the [info] elements updates. *)
Record alerts : Type := mk_alerts {
  french_alert : dict french_tuple;
  english_alert : dict english_tuple;
  list_id : list string
}.

Definition no_alerts : alerts := mk_alerts [] [] [].

(** The class [[-, .]] *)
Definition key_class (c : ascii) : bool :=
  Ascii.eqb c "-" || Ascii.eqb c "," || Ascii.eqb c " " || Ascii.eqb c ".".

(** ['a-{}'.format(re.sub('[-, .]', '', tag)[:25])] *)
Definition area_key (tag : string) : string :=
  ("a-" ++ take 25 (delete_class key_class tag))%string.

(** The separators of [re.split(' |,', tag)]. *)
Definition blank_or_comma (c : ascii) : bool :=
  Ascii.eqb c " " || Ascii.eqb c ",".

Definition newline : string := String (ascii_of_nat 10) EmptyString.

(** [x.replace("\n", " ").strip()] on the description, [None] having
    no [replace]. *)
Definition clean_description (d : option string) : result string :=
  match d with
  | None => Raise AttributeError
  | Some d => Ok (strip (replace newline " " d))
  end.

(** [x == s] for an [x] that may be [None]. *)
Definition is_str (x : option string) (s : string) : bool :=
  match x with
  | Some l => String.eqb l s
  | None => false
  end.

(** [identifier not in list_id], the identifier possibly [None]. *)
Definition not_seen (identifier : option string) (seen : list string) : bool :=
  match identifier with
  | None => true
  | Some i => negb (mem String.eqb i seen)
  end.

(** Body of the loop over the areas of a French [info]. *)
Definition french_area (headline : option string) (descript : string)
  (fr : dict french_tuple) (i : element) : result (dict french_tuple) :=
  let tag := _get_element i [cap "polygon"] None in
  let name := _get_element i [cap "areaDesc"] None in
  match tag with
  | None => Raise TypeError
  | Some tag =>
      let id_warning := area_key tag in
      if negb (contains fr id_warning)
      then Ok (setitem fr id_warning
                 (mk_french id_warning name headline descript))
      else Ok fr
  end.

(** Body of the loop over the areas of an English [info]. *)
Definition english_area (headline : option string) (effective expires : string)
  (warning status_alert : option string) (descript url : string)
  (en : dict english_tuple) (i : element) : result (dict english_tuple) :=
  let tag := _get_element i [cap "polygon"] None in
  let name := _get_element i [cap "areaDesc"] None in
  match tag with
  | None => Raise TypeError
  | Some tag =>
      let split_tag := split_at blank_or_comma tag in
      let id_warning := area_key tag in
      if negb (contains en id_warning)
      then Ok (setitem en id_warning
                 (mk_english split_tag name headline effective expires
                    warning status_alert id_warning descript url))
      else Ok en
  end.

(** Body of [if ... > now or identifier not in list_id:], the block of
    an [info] element that passes the test. *)
Definition record_info (lastref url : string) (expires : string)
  (status_alert : option string) (st : alerts) (grandchild : element)
  : result alerts :=
  let seen := list_id st ++ [lastref] in
  let language := _get_element grandchild [cap "language"] None in
  let headline := _get_element grandchild [cap "headline"] None in
  if is_str language "fr-CA"
  then
    descript <-
      clean_description (_get_element grandchild [cap "description"] None) ;;
    fr <- for_each (french_area headline descript)
            (iter grandchild (cap_tag "area")) (french_alert st) ;;
    Ok (mk_alerts fr (english_alert st) seen)
  else
    descript <-
      clean_description (_get_element grandchild [cap "description"] None) ;;
    f <- _get_date_format (_get_element grandchild [cap "effective"] None) ;;
    let effective := timeformat f in
    let warning :=
      _get_element grandchild (parameter_value (Position 1)) None in
    en <- for_each (english_area headline effective expires warning
                      status_alert descript url)
            (iter grandchild (cap_tag "area")) (english_alert st) ;;
    Ok (mk_alerts (french_alert st) en seen).

(** Body of [for grandchild in root.iter('{}info'.format(base_xml))]. *)
Definition info_block (now : datetime) (identifier : option string)
  (lastref url : string) (st : alerts) (grandchild : element)
  : result alerts :=
  e <- _get_date_format (_get_element grandchild [cap "expires"] None) ;;
  let expires := timeformat e in
  let status_alert :=
    _get_element grandchild (parameter_value (FromLast 4)) None in
  e' <- _get_date_format (Some expires) ;;
  if datetime_gt e' now || not_seen identifier (list_id st)
  then record_info lastref url expires status_alert st grandchild
  else Ok st.

(** [for j in english_alert: ...]: the keys whose stored [expires]
    lies before [now]. *)
Definition expired_keys (now : datetime) (en : dict english_tuple)
  : result (list string) :=
  for_each
    (fun english_alert_remove j =>
       t <- lookup en j ;;
       d <- _get_date_format (Some (en_expires t)) ;;
       Ok (if datetime_lt d now
           then english_alert_remove ++ [j]
           else english_alert_remove))
    (keys en) [].

(** [for key in english_alert_remove: del ...; del ...] *)
Definition remove_keys (english_alert_remove : list string)
  (en : dict english_tuple) (fr : dict french_tuple)
  : result (dict english_tuple * dict french_tuple) :=
  for_each
    (fun d key =>
       en' <- delitem (fst d) key ;;
       fr' <- delitem (snd d) key ;;
       Ok (en', fr'))
    english_alert_remove (en, fr).

(** Body of [for l in list(reversed(range(0, len(tokens), 2)))]: one
    [lon, lat, 0.0] triple, the longitude read first. *)
Definition pair_body (tokens : list string) (poly : list (list float))
  (l : nat) : result (list (list float)) :=
  if 1 <? List.length tokens
  then
    a <- getitem tokens (l + 1) ;;
    x <- float_of_str a ;;
    b <- getitem tokens l ;;
    y <- float_of_str b ;;
    Ok (poly ++ [[x; y; float_zero]])
  else Ok poly.

(** The pair loop: the triples of [poly], last pair first. *)
Definition pair_loop (tokens : list string) : result (list (list float)) :=
  for_each (pair_body tokens) (reversed_range2 (List.length tokens)) [].

(** Two points are the same when their coordinates compare equal. *)
Definition point_eqb (p q : list float) : bool := list_eqb float_eqb p q.

(** [for k in poly: if k not in no_dup_poly: no_dup_poly.append(k)] *)
Definition no_dup (poly : list (list float)) : list (list float) :=
  fold_left
    (fun no_dup_poly k =>
       if mem point_eqb k no_dup_poly then no_dup_poly else no_dup_poly ++ [k])
    poly [].

(** [no_dup_poly] as it stands after [no_dup_poly.append(poly[-1])]. *)
Definition ring (poly : list (list float)) : result (list (list float)) :=
  closing <- last_item poly ;;
  Ok (no_dup poly ++ [closing]).

Record properties : Type := mk_properties {
  identifier : string;
  area : option string;
  reference : option string;
  zone : option string;
  headline : option string;
  titre : option string;
  descrip_en : string;
  descrip_fr : string;
  effective : string;
  expires : string;
  alert_type : option string;
  status : option string;
  url : string
}.

Record geometry : Type := mk_geometry {
  geometry_type : string;
  coordinates : list (list (list float))
}.

Record feature : Type := mk_feature {
  feature_type : string;
  feature_properties : properties;
  feature_geometry : geometry
}.

(** Body of [for num_poly in english_alert], up to [AlertLocation]. *)
Definition alert_location (identifier_ : option string)
  (en : dict english_tuple) (fr : dict french_tuple) (num_poly : string)
  : result feature :=
  e <- lookup en num_poly ;;
  poly <- pair_loop (en_split_tag e) ;;
  no_dup_poly <- ring poly ;;
  let id_ := en_id_warning e in
  f <- lookup fr num_poly ;;
  Ok (mk_feature "Feature"
        (mk_properties id_ (en_name e) identifier_ (fr_name f)
           (en_headline e) (fr_headline f) (en_descript e) (fr_descript f)
           (en_effective e) (en_expires e) (en_warning e)
           (en_status_alert e) (en_url e))
        (mk_geometry "Polygon" [no_dup_poly])).

(** The block guarded by [len(french_alert) == len(english_alert)] and the
    final [return data]: [data] is bound inside the block only. *)
Definition assemble (identifier_ : option string)
  (en : dict english_tuple) (fr : dict french_tuple)
  : result (list feature) :=
  if List.length fr =? List.length en
  then
    for_each
      (fun data num_poly =>
         AlertLocation <- alert_location identifier_ en fr num_poly ;;
         Ok (data ++ [AlertLocation]))
      (keys en) []
  else Raise UnboundLocalError.

Section Loader.

(** [GEOMET_WEATHER_BASEPATH] of [msc_pygeoapi.env]. *)
Variable GEOMET_WEATHER_BASEPATH : string.

(** What [etree.parse(filepath).getroot()] gives for each path, [None]
    where parsing raises. *)
Variable parse : string -> option element.

(** The value [datetime.utcnow()] returns at the start of the call. *)
Variable utcnow : datetime.

(** The loop over the [info] elements of the document. *)
Definition collect (now : datetime) (identifier_ : option string)
  (lastref url_ : string) (root : element) : result alerts :=
  for_each (info_block now identifier_ lastref url_)
    (iter root (cap_tag "info")) no_alerts.

(** [weather_warning2geojson].  A document that does not parse is only
    logged, so [tree] is unbound at [tree.getroot()]. *)
Definition weather_warning2geojson (filepath : string)
  : result (list feature) :=
  let now := utcnow in
  match parse filepath with
  | None => Raise UnboundLocalError
  | Some root =>
      let url_ :=
        replace (GEOMET_WEATHER_BASEPATH ++ "/amqp/")%string ""
          ("https://dd.weather.gc.ca/" ++ filepath)%string in
      let identifier_ := _get_element root [cap "identifier"] None in
      let references := _get_element root [cap "references"] None in
      match references with
      | None => Raise AttributeError
      | Some references =>
          lastref <- last_item (split_at (Ascii.eqb ",") references) ;;
          st <- collect now identifier_ lastref url_ root ;;
          english_alert_remove <- expired_keys now (english_alert st) ;;
          d <- remove_keys english_alert_remove
                 (english_alert st) (french_alert st) ;;
          assemble identifier_ (fst d) (snd d)
      end
  end.

End Loader.

End CapAlerts.

Import CapAlerts.

(* ================================================================= *)
(** ** Vocabulary of the statements *)

Module Spec.

(** The date normalizer in the words of its contract: every [T], [-]
    and [:] goes, the first 14 characters stay. *)
Definition date_punctuation (c : ascii) : bool :=
  existsb (Ascii.eqb c) ["T"; "-"; ":"]%char.

Definition normalized (date : string) : string :=
  str_of (firstn 14 (filter (fun c => negb (date_punctuation c)) (chars date))).

(** The 14 digits [YYYYMMDDHHMMSS] of an instant. *)
Definition stamp (d : datetime) : string :=
  (pad4 (year d) ++ pad2 (month d) ++ pad2 (day d)
   ++ pad2 (hour d) ++ pad2 (minute d) ++ pad2 (second d))%string.

(** An instant cut to whole seconds. *)
Definition whole_seconds (d : datetime) : datetime :=
  mk_datetime (year d) (month d) (day d) (hour d) (minute d) (second d) 0.

(** The characters a field of the [strptime] expression can match, and
    the texts made of them. *)
Definition field_char (c : ascii) : bool := is_digit c || Ascii.eqb " " c.

Definition field_text (t : string) : bool := forallb field_char (chars t).

(** A group takes a text of digits and blanks off the front of its input. *)
Definition reads_fields (g : string -> ways) : Prop :=
  forall s w, In w (g s) ->
    s = (fst w ++ snd w)%string /\ field_text (fst w) = true.

(** The area key in the words of the data model. *)
Definition area_key_chars : list ascii := ["-"; ","; " "; "."]%char.

Definition cleaned (polygon : string) : list ascii :=
  filter (fun c => negb (existsb (Ascii.eqb c) area_key_chars)) (chars polygon).

Definition area_key_spec (polygon : string) : string :=
  ("a-" ++ str_of (firstn 25 (cleaned polygon)))%string.

(** The instant an [info] block is judged by: its [expires] parsed,
    formatted and parsed again. *)
Definition reparsed_expires (grandchild : element) : result datetime :=
  e <- _get_date_format (_get_element grandchild [cap "expires"] None) ;;
  _get_date_format (Some (timeformat e)).

(** The filtering rule: still to expire, or identifier not seen so far. *)
Definition eligible (now : datetime) (identifier_ : option string)
  (seen : list string) (grandchild : element) : bool :=
  match reparsed_expires grandchild with
  | Ok e => datetime_gt e now || not_seen identifier_ seen
  | Raise _ => false
  end.

Definition is_french (grandchild : element) : bool :=
  is_str (_get_element grandchild [cap "language"] None) "fr-CA".

Definition polygon_of (i : element) : option string :=
  _get_element i [cap "polygon"] None.

Definition areas_of (grandchild : element) : list element :=
  iter grandchild (cap_tag "area").

(** The loop over a run of [info] blocks, from the state it finds. *)
Definition pass (now : datetime) (identifier_ : option string)
  (lastref url_ : string) (infos : list element) (st : alerts)
  : result alerts :=
  for_each (info_block now identifier_ lastref url_) infos st.

(** Whether the mapping of a language holds a key. *)
Definition has_key (french : bool) (st : alerts) (k : string) : bool :=
  if french then contains (french_alert st) k
  else contains (english_alert st) k.

(** What recording a block reads: a description, for a block that is not
    French an [effective] that parses, and a polygon in every area. *)
Definition recordable (grandchild : element) : Prop :=
  _get_element grandchild [cap "description"] None <> None
  /\ (is_french grandchild = false ->
      exists f,
        _get_date_format (_get_element grandchild [cap "effective"] None)
        = Ok f)
  /\ Forall (fun i => polygon_of i <> None) (areas_of grandchild).

(** What one area of an English [info] block would store, with its key. *)
Definition english_entry (url_ : string) (grandchild i : element)
  : result (string * english_tuple) :=
  e <- _get_date_format (_get_element grandchild [cap "expires"] None) ;;
  descript <-
    clean_description (_get_element grandchild [cap "description"] None) ;;
  f <- _get_date_format (_get_element grandchild [cap "effective"] None) ;;
  match polygon_of i with
  | None => Raise TypeError
  | Some tag =>
      Ok (area_key tag,
          mk_english (split_at blank_or_comma tag)
            (_get_element i [cap "areaDesc"] None)
            (_get_element grandchild [cap "headline"] None)
            (timeformat f) (timeformat e)
            (_get_element grandchild (parameter_value (Position 1)) None)
            (_get_element grandchild (parameter_value (FromLast 4)) None)
            (area_key tag) descript url_)
  end.

(** What one area of a French [info] block would store, with its key. *)
Definition french_entry (grandchild i : element)
  : result (string * french_tuple) :=
  descript <-
    clean_description (_get_element grandchild [cap "description"] None) ;;
  match polygon_of i with
  | None => Raise TypeError
  | Some tag =>
      Ok (area_key tag,
          mk_french (area_key tag)
            (_get_element i [cap "areaDesc"] None)
            (_get_element grandchild [cap "headline"] None)
            descript)
  end.

Definition successes {A : Type} (l : list (result A)) : list A :=
  flat_map (fun r => match r with Ok a => [a] | Raise _ => [] end) l.

(** The shape the two loops over the areas share: the key is derived from
    the polygon and the tuple [mk tag i] is stored unless the key is there. *)
Definition area_step {V : Type} (mk : string -> element -> V)
  (d : dict V) (i : element) : result (dict V) :=
  match polygon_of i with
  | None => Raise TypeError
  | Some tag =>
      if negb (contains d (area_key tag))
      then Ok (setitem d (area_key tag) (mk tag i))
      else Ok d
  end.

Definition area_entry {V : Type} (mk : string -> element -> V) (i : element)
  : result (string * V) :=
  match polygon_of i with
  | None => Raise TypeError
  | Some tag => Ok (area_key tag, mk tag i)
  end.

(** The eligible (info, area) occurrences of one language in document
    order, each with the key and the tuple it would store.  [seen] is the
    seen-list as the block finds it. *)
Fixpoint occurrences {V : Type} (french : bool)
  (entry : element -> element -> result (string * V))
  (now : datetime) (identifier_ : option string) (lastref : string)
  (seen : list string) (infos : list element) : list (string * V) :=
  match infos with
  | [] => []
  | g :: rest =>
      if eligible now identifier_ seen g
      then
        (if Bool.eqb (is_french g) french
         then successes (map (entry g) (areas_of g))
         else [])
        ++ occurrences french entry now identifier_ lastref
             (seen ++ [lastref]) rest
      else occurrences french entry now identifier_ lastref seen rest
  end.

(** The first occurrence of a key in a sequence of keyed entries. *)
Definition first_occurrence {V : Type} (k : string) (l : list (string * V))
  : option V :=
  option_map snd (List.find (fun kv => String.eqb (fst kv) k) l).

(** The entries the second loop of the expiry filter leaves alone. *)
Definition kept (remove : list string) {V : Type} (kv : string * V) : bool :=
  negb (mem String.eqb (fst kv) remove).

(** The triple the pair loop makes of the tokens at [l] and [l + 1]. *)
Definition triple_at (tokens : list string) (l : nat) (p : list float) : Prop :=
  exists lat lon x y,
    nth_error tokens l = Some lat /\ nth_error tokens (l + 1) = Some lon
    /\ float_of_str lon = Ok x /\ float_of_str lat = Ok y
    /\ p = [x; y; float_zero].

(** Every token is the text of a float. *)
Definition coordinate_tokens (tokens : list string) : Prop :=
  Forall (fun t => exists x, float_of_str t = Ok x) tokens.

(** The float a decimal literal denotes. *)
Definition lit (s : string) : float :=
  match float_of_str s with
  | Ok x => x
  | Raise _ => S754_nan
  end.

(** [r1 == r2] on lists of rings. *)
Definition rings_eqb (r1 r2 : list (list (list float))) : bool :=
  list_eqb (list_eqb point_eqb) r1 r2.

End Spec.

Import Spec.

(* ================================================================= *)
(** ** Sample documents *)

Module Sample.

Definition leaf (name x : string) : element :=
  Element (cap_tag name) [] (Some x) [].

Definition area_elem (polygon areaDesc : string) : element :=
  Element (cap_tag "area") [] None
    [leaf "areaDesc" areaDesc; leaf "polygon" polygon].

Definition info_elem (language headline_ description expires_ : string)
  (areas : list element) : element :=
  Element (cap_tag "info") [] None
    ([leaf "language" language; leaf "headline" headline_;
      leaf "description" description;
      leaf "effective" "2020-06-01T08:00:00-00:00";
      leaf "expires" expires_] ++ areas).

Definition alert (infos : list element) : element :=
  Element (cap_tag "alert") [] None
    ([leaf "identifier" "urn:oid:2.49.0.1.124.1";
      leaf "references" "cap-pac@canada.ca,urn:oid:2.49.0.1.124.0"]
     ++ infos).

Definition basepath : string := "/data/geomet".
Definition filepath : string := "/data/geomet/amqp/alerts/cap/20200601/w.cap".

(** Processing time: 1 June 2020, 12:00:00.000500. *)
Definition now : datetime := mk_datetime 2020 6 1 12 0 0 500.
Definition tomorrow : string := "2020-06-02T12:00:00-00:00".
Definition tomorrow_instant : datetime := mk_datetime 2020 6 2 12 0 0 0.
Definition yesterday : string := "2020-05-31T12:00:00-00:00".

Definition triangle : string := "45.0,-75.0 45.1,-75.0 45.1,-75.1".

(** One English block and its French counterpart for the same area. *)
Definition bilingual (polygon expires_ : string) : element :=
  alert
    [info_elem "en-CA" "snowfall warning in effect" "Heavy snow." expires_
       [area_elem polygon "Ottawa North"];
     info_elem "fr-CA" "avertissement de neige en vigueur" "Neige forte."
       expires_ [area_elem polygon "Ottawa Nord"]].

(** An English block whose area has no French counterpart. *)
Definition english_only : element :=
  alert
    [info_elem "en-CA" "snowfall warning in effect" "Heavy snow." tomorrow
       [area_elem triangle "Ottawa North"]].

(** Two English blocks for the same area, the second one expired, and
    one French block. *)
Definition repeated : element :=
  alert
    [info_elem "en-CA" "snowfall warning in effect" "Heavy snow." tomorrow
       [area_elem triangle "Ottawa North"];
     info_elem "en-CA" "snowfall warning ended" "Snow has ended." yesterday
       [area_elem triangle "Ottawa North"];
     info_elem "fr-CA" "avertissement de neige en vigueur" "Neige forte."
       tomorrow [area_elem triangle "Ottawa Nord"]].

(** A polygon of a single token. *)
Definition single_token : string := "45.0".

(** A polygon with a blank after its first comma. *)
Definition stray_blank : string := "45.0, -75.0 45.1".


Definition square : string := "46.0,-76.0 46.1,-76.0 46.1,-76.1".

(** A document whose last reference is its own identifier: an English
    block still to expire, an expired English block for another area, and
    a French block. *)
Definition first_block : element :=
  info_elem "en-CA" "snowfall warning in effect" "Heavy snow." tomorrow
    [area_elem triangle "Ottawa North"].

Definition late_block : element :=
  info_elem "en-CA" "snowfall warning ended" "Snow has ended." yesterday
    [area_elem square "Gatineau"].

Definition french_block : element :=
  info_elem "fr-CA" "avertissement de neige en vigueur" "Neige forte."
    tomorrow [area_elem triangle "Ottawa Nord"].

(** The second block of [repeated]. *)
Definition ended_block : element :=
  info_elem "en-CA" "snowfall warning ended" "Snow has ended." yesterday
    [area_elem triangle "Ottawa North"].

Definition own_identifier : string := "urn:oid:2.49.0.1.124.1".
Definition earlier_identifier : string := "urn:oid:2.49.0.1.124.0".
Definition published : string := "https://dd.weather.gc.ca/w.cap".

Definition self_referring : element :=
  Element (cap_tag "alert") [] None
    [leaf "identifier" own_identifier;
     leaf "references" ("cap-pac@canada.ca," ++ own_identifier);
     first_block; late_block; french_block].

Definition read (root : element) : string -> option element :=
  fun _ => Some root.

End Sample.

(* ================================================================= *)
(** ** Indexing the features *)

Module Indexing.

(** [INDEX_NAME] *)
Definition INDEX_NAME : string := "cap_alerts".

(** [op_dict['index']] *)
Record index_action : Type := mk_index_action {
  action_index : string;   (* ['_index'] *)
  action_type : string;    (* ['_type'] *)
  action_id : string       (* ['_id'] *)
}.

(** An item of [bulk_data]: an [op_dict] or a document. *)
Inductive bulk_item : Type :=
| Action (op_dict : index_action)
| Source (doc : feature).

(** Body of [for doc in data] in [load_data]. *)
Definition add_doc (bulk_data : list bulk_item) (doc : feature)
  : list bulk_item :=
  let op_dict :=
    mk_index_action INDEX_NAME "_doc" (identifier (feature_properties doc)) in
  (bulk_data ++ [Action op_dict]) ++ [Source doc].

(** [bulk_data] as the loop leaves it. *)
Definition bulk_data_of (data : list feature) : list bulk_item :=
  fold_left add_doc data [].

Section LoadData.

Variable GEOMET_WEATHER_BASEPATH : string.
Variable parse : string -> option element.
Variable utcnow : datetime.

(** What [self.ES.bulk(index=..., body=...)] returns, [None] standing for
    any exception it raises. *)
Variable response : Type.
Variable bulk : string -> list bulk_item -> option response.


End LoadData.

End Indexing.

Import Indexing.

(* ================================================================= *)
(** ** Further vocabulary *)

Module Facts.

(** [url] as [weather_warning2geojson] computes it. *)
Definition published_url (basepath filepath : string) : string :=
  replace (basepath ++ "/amqp/")%string ""
    ("https://dd.weather.gc.ca/" ++ filepath)%string.

(** [YYYY-MM-DDTHH:MM:SS], the formatter's output without its [Z]. *)
Definition iso_seconds (d : datetime) : string :=
  (pad4 (year d) ++ "-" ++ pad2 (month d) ++ "-" ++ pad2 (day d) ++ "T"
   ++ pad2 (hour d) ++ ":" ++ pad2 (minute d) ++ ":" ++ pad2 (second d))%string.



(** The identifier a feature is indexed under. *)
Definition feature_id (f : feature) : string :=
  identifier (feature_properties f).

(** Whether the first loop of the expiry filter lists the key. *)
Definition expired (now : datetime) (en : dict english_tuple) (j : string)
  : bool :=
  match get en j with
  | Some t =>
      match _get_date_format (Some (en_expires t)) with
      | Ok d => datetime_lt d now
      | Raise _ => false
      end
  | None => false
  end.

(** An English tuple that expired the day before [Sample.now]. *)
Definition expired_tuple : english_tuple :=
  mk_english ["45.0"; "-75.0"; "45.1"; "-75.0"]%string (Some "Ottawa North")
    (Some "snowfall warning ended") "2020-05-30T08:00:00Z"
    "2020-05-31T12:00:00Z" None None "a-450750451750" "Snow has ended."
    "https://dd.weather.gc.ca/w.cap".

(** The [_id]s a bulk body asks to index, in order. *)
Definition action_ids (body : list bulk_item) : list string :=
  flat_map (fun item => match item with
                        | Action a => [action_id a]
                        | Source _ => []
                        end) body.

(** The two items [load_data] appends for a document. *)
Definition items_of (doc : feature) : list bulk_item :=
  [Action (mk_index_action INDEX_NAME "_doc" (feature_id doc)); Source doc].

(** The [parameter] children of an [info] element. *)
Definition parameters (grandchild : element) : list element :=
  iterchildren grandchild (cap_tag "parameter").

(** The text of the first [value] child, as [_get_element] reads it. *)
Definition value_of (parameter : element) : option string :=
  _get_element parameter [cap "value"] None.

(** The feature assembled from an English and a French tuple. *)
Definition feature_of (identifier_ : option string) (e : english_tuple)
  (t : french_tuple) (r : list (list float)) : feature :=
  mk_feature "Feature"
    (mk_properties (en_id_warning e) (en_name e) identifier_ (fr_name t)
       (en_headline e) (fr_headline t) (en_descript e) (fr_descript t)
       (en_effective e) (en_expires e) (en_warning e) (en_status_alert e)
       (en_url e))
    (mk_geometry "Polygon" [r]).

End Facts.

Import Facts.

(* ================================================================= *)
(** ** Lemmas on the primitives *)

Section Results.

Context {A B : Type}.

Lemma bind_ok (m : result A) (k : A -> result B) (b : B) :
  bind m k = Ok b -> exists a, m = Ok a /\ k a = Ok b.
Proof.
  destruct m as [a|e]; simpl; intros H; [exists a; auto | discriminate].
Qed.

End Results.

Ltac bind_inv H :=
  let x := fresh "x" in
  let Hx := fresh "Hx" in
  apply bind_ok in H; destruct H as (x & Hx & H).

Section Text.

Lemma chars_str_of (l : list ascii) : chars (str_of l) = l.
Proof. induction l as [|c l IH]; simpl; [|rewrite IH]; reflexivity. Qed.

Lemma str_of_chars (s : string) : str_of (chars s) = s.
Proof. induction s as [|c s IH]; simpl; [|rewrite IH]; reflexivity. Qed.

Lemma take_str_of (n : nat) (l : list ascii) :
  take n (str_of l) = str_of (firstn n l).
Proof.
  revert l; induction n as [|n IH]; intros [|c l]; simpl; try reflexivity.
  now rewrite IH.
Qed.

Lemma delete_class_str_of (cls : ascii -> bool) (s : string) :
  delete_class cls s = str_of (filter (fun c => negb (cls c)) (chars s)).
Proof.
  induction s as [|c s IH]; simpl; [reflexivity|].
  destruct (cls c); simpl; now rewrite IH.
Qed.

Lemma starts_with_nil (s : string) : starts_with "" s = true.
Proof. destruct s; reflexivity. Qed.

(** Replacing a one-character string by nothing deletes the character. *)
Lemma replace_single (c : ascii) (s : string) :
  replace (String c "") "" s = delete_class (Ascii.eqb c) s.
Proof.
  unfold replace.
  induction s as [|a s IH]; [reflexivity|].
  cbn [replace_from delete_class starts_with String.length Nat.sub].
  rewrite ?starts_with_nil, ?andb_true_r.
  destruct (Ascii.eqb c a); [exact IH | now rewrite IH].
Qed.

Lemma str_in_single_false (c : ascii) (s : string) :
  str_in (String c "") s = false -> delete_class (Ascii.eqb c) s = s.
Proof.
  induction s as [|a s IH]; [reflexivity|].
  cbn [str_in starts_with delete_class].
  rewrite ?starts_with_nil, ?andb_true_r.
  destruct (Ascii.eqb c a); simpl; [discriminate|].
  intros H; now rewrite IH.
Qed.

(** The guarded replacement of [_get_date_format] is the deletion. *)
Lemma guarded_replace (c : ascii) (s : string) :
  (if str_in (String c "") s then replace (String c "") "" s else s)
  = delete_class (Ascii.eqb c) s.
Proof.
  destruct (str_in (String c "") s) eqn:E.
  - apply replace_single.
  - symmetry; now apply str_in_single_false.
Qed.

Lemma filter_twice {X : Type} (f g : X -> bool) (l : list X) :
  filter f (filter g l) = filter (fun x => g x && f x) l.
Proof.
  induction l as [|x l IH]; simpl; [reflexivity|].
  destruct (g x); simpl; [destruct (f x)|]; now rewrite IH.
Qed.

Lemma delete_three (s : string) :
  delete_class (Ascii.eqb ":")
    (delete_class (Ascii.eqb "-") (delete_class (Ascii.eqb "T") s))
  = str_of (filter (fun c => negb (date_punctuation c)) (chars s)).
Proof.
  rewrite !delete_class_str_of, !chars_str_of, !filter_twice.
  f_equal; apply filter_ext; intros a.
  unfold date_punctuation; cbn [existsb].
  rewrite (Ascii.eqb_sym a "T"), (Ascii.eqb_sym a "-"), (Ascii.eqb_sym a ":").
  destruct (Ascii.eqb "T" a), (Ascii.eqb "-" a), (Ascii.eqb ":" a); reflexivity.
Qed.

(** [_get_date_format] parses the normalized text. *)
Lemma get_date_format_normalized (date : string) :
  _get_date_format (Some date) = strptime_YmdHMS (normalized date).
Proof.
  unfold _get_date_format, normalized.
  cbn [fold_left].
  rewrite !guarded_replace, delete_three, take_str_of.
  reflexivity.
Qed.

End Text.

(** *** Digits and the [strptime] expression *)

Ltac digit_cases k :=
  do 10 (destruct k as [|k]; [reflexivity|]); lia.

Ltac small_cases n :=
  repeat first
    [ lia
    | destruct n as [|n]; [ first [ lia | split; reflexivity ] | ] ].

Section Digits.

Lemma is_digit_digit_char (k : nat) : k < 10 -> is_digit (digit_char k) = true.
Proof. intros H. digit_cases k. Qed.

Lemma is_space_digit_char (k : nat) : k < 10 -> is_space (digit_char k) = false.
Proof. intros H. digit_cases k. Qed.

Lemma digit_value_digit_char (k : nat) :
  k < 10 -> digit_value (digit_char k) = k.
Proof. intros H. digit_cases k. Qed.

Lemma punctuation_digit_char (k : nat) :
  k < 10 -> date_punctuation (digit_char k) = false.
Proof. intros H. digit_cases k. Qed.

Lemma mod10_lt (n : nat) : n mod 10 < 10.
Proof. apply Nat.mod_upper_bound; lia. Qed.

Lemma decimal4 (y : nat) :
  y < 10 * 1000 ->
  1000 * (y / 1000 mod 10) + 100 * (y / 100 mod 10)
  + 10 * (y / 10 mod 10) + y mod 10 = y.
Proof.
  intros H.
  pose proof (Nat.div_mod_eq y 10).
  pose proof (Nat.div_mod_eq (y / 10) 10).
  pose proof (Nat.div_mod_eq (y / 100) 10).
  pose proof (Nat.div_mod_eq (y / 1000) 10).
  assert (y / 100 = y / 10 / 10) by (rewrite Nat.Div0.div_div; reflexivity).
  assert (y / 1000 = y / 100 / 10) by (rewrite Nat.Div0.div_div; reflexivity).
  assert (y / 1000 < 10) by (apply Nat.Div0.div_lt_upper_bound; lia).
  assert (y / 1000 / 10 = 0) by (apply Nat.div_small; lia).
  lia.
Qed.

Lemma int_of_pad4 (y : nat) : y < 10 * 1000 -> int_of (pad4 y) = y.
Proof.
  intros H.
  unfold int_of, strip, pad4, pad2.
  repeat (cbn [lstrip rstrip];
          rewrite ?is_space_digit_char by apply mod10_lt).
  cbn [chars fold_left].
  rewrite !digit_value_digit_char by apply mod10_lt.
  pose proof (decimal4 y H). lia.
Qed.

Lemma re_Y_pad4 (y : nat) (r : string) :
  re_Y (pad4 y ++ r) = [(pad4 y, r)].
Proof.
  unfold pad4, pad2, re_Y; cbn [String.append].
  now rewrite !is_digit_digit_char by apply mod10_lt.
Qed.

Lemma re_m_pad2 (m : nat) (r : string) :
  1 <= m <= 12 ->
  hd_error (re_m (pad2 m ++ r)) = Some (pad2 m, r) /\ int_of (pad2 m) = m.
Proof. intros H. small_cases m. Qed.

Lemma re_d_pad2 (d : nat) (r : string) :
  1 <= d <= 31 ->
  hd_error (re_d (pad2 d ++ r)) = Some (pad2 d, r) /\ int_of (pad2 d) = d.
Proof. intros H. small_cases d. Qed.

Lemma re_H_pad2 (h : nat) (r : string) :
  h < 24 ->
  hd_error (re_H (pad2 h ++ r)) = Some (pad2 h, r) /\ int_of (pad2 h) = h.
Proof. intros H. small_cases h. Qed.

Lemma re_M_pad2 (m : nat) (r : string) :
  m < 60 ->
  hd_error (re_M (pad2 m ++ r)) = Some (pad2 m, r) /\ int_of (pad2 m) = m.
Proof. intros H. small_cases m. Qed.

Lemma re_S_pad2 (s : nat) (r : string) :
  s < 60 ->
  hd_error (re_S (pad2 s ++ r)) = Some (pad2 s, r) /\ int_of (pad2 s) = s.
Proof. intros H. small_cases s. Qed.

Lemma then_first {A : Type} (g : string -> ways)
  (k : nat -> string -> list A) (s : string) (w : string * string) (x : A) :
  hd_error (g s) = Some w ->
  hd_error (k (int_of (fst w)) (snd w)) = Some x ->
  hd_error (then_ g k s) = Some x.
Proof.
  unfold then_. destruct (g s) as [|w' tl]; simpl; [discriminate|].
  intros [= ->] H.
  destruct (k (int_of (fst w)) (snd w)); simpl in *; [discriminate | exact H].
Qed.

Lemma days_in_month_le (y m : nat) : days_in_month y m <= 31.
Proof.
  unfold days_in_month. destruct (is_leap y);
    repeat (destruct m as [|m]; try lia).
Qed.

End Digits.

(** *** Formatting then parsing an instant *)

Section RoundTrip.

Ltac split_andb :=
  repeat match goal with
         | H : (_ && _)%bool = true |- _ =>
             apply andb_prop in H; destruct H
         end.

Lemma valid_datetime_fields (d : datetime) :
  valid_datetime d = true ->
  1 <= year d /\ year d < 10 * 1000 /\ 1 <= month d <= 12
  /\ 1 <= day d <= 31 /\ hour d < 24 /\ minute d < 60 /\ second d < 60.
Proof.
  unfold valid_datetime. intros V. split_andb.
  repeat match goal with
         | H : (_ <=? _) = true |- _ => apply Nat.leb_le in H
         | H : (_ <? _) = true |- _ => apply Nat.ltb_lt in H
         end.
  pose proof (days_in_month_le (year d) (month d)).
  repeat split; try assumption; lia.
Qed.

Lemma valid_whole_seconds (d : datetime) :
  valid_datetime d = true -> valid_datetime (whole_seconds d) = true.
Proof.
  unfold valid_datetime;
    cbn [year month day hour minute second microsecond whole_seconds].
  intros V. apply andb_prop in V. destruct V as [V _].
  rewrite V. reflexivity.
Qed.

Lemma append_empty (s : string) : (s ++ "")%string = s.
Proof. induction s as [|c s IH]; simpl; [|rewrite IH]; reflexivity. Qed.

(** The first match of the expression on the 14 digits of a valid
    instant reads its fields back and leaves nothing unread. *)
Lemma match_stamp (d : datetime) :
  valid_datetime d = true ->
  hd_error (match_YmdHMS (stamp d)) = Some (whole_seconds d, EmptyString).
Proof.
  intros V. destruct (valid_datetime_fields d V)
    as (_ & HY & Hm & Hd & HH & HM & HS).
  unfold match_YmdHMS, stamp.
  eapply then_first; [rewrite re_Y_pad4; reflexivity|].
  cbn [fst snd]. rewrite (int_of_pad4 _ HY).
  eapply then_first; [exact (proj1 (re_m_pad2 _ _ Hm))|].
  cbn [fst snd]. rewrite (proj2 (re_m_pad2 _ EmptyString Hm)).
  eapply then_first; [exact (proj1 (re_d_pad2 _ _ Hd))|].
  cbn [fst snd]. rewrite (proj2 (re_d_pad2 _ EmptyString Hd)).
  eapply then_first; [exact (proj1 (re_H_pad2 _ _ HH))|].
  cbn [fst snd]. rewrite (proj2 (re_H_pad2 _ EmptyString HH)).
  eapply then_first; [exact (proj1 (re_M_pad2 _ _ HM))|].
  cbn [fst snd]. rewrite (proj2 (re_M_pad2 _ EmptyString HM)).
  eapply then_first.
  - rewrite <- (append_empty (pad2 (second d))).
    exact (proj1 (re_S_pad2 _ _ HS)).
  - cbn [fst snd]. rewrite (proj2 (re_S_pad2 _ EmptyString HS)). reflexivity.
Qed.

Lemma strptime_stamp (d : datetime) :
  valid_datetime d = true ->
  strptime_YmdHMS (stamp d) = Ok (whole_seconds d).
Proof.
  intros V. unfold strptime_YmdHMS.
  pose proof (match_stamp d V) as H.
  destruct (match_YmdHMS (stamp d)) as [|[d' r] tl]; [discriminate|].
  injection H as -> ->.
  now rewrite (valid_whole_seconds d V).
Qed.

(** What [strptime] returns is a valid instant of whole seconds. *)
Lemma strptime_valid (s : string) (d : datetime) :
  strptime_YmdHMS s = Ok d -> valid_datetime d = true /\ microsecond d = 0.
Proof.
  unfold strptime_YmdHMS.
  destruct (match_YmdHMS s) as [|[d' r] tl] eqn:E; [discriminate|].
  destruct r; [|discriminate].
  destruct (valid_datetime d') eqn:V; [|discriminate].
  intros [= <-]. split; [exact V|].
  assert (G : Forall (fun p => microsecond (fst p) = 0) (match_YmdHMS s)).
  { unfold match_YmdHMS, then_.
    repeat (apply Forall_flat_map, Forall_forall; intros ? _).
    repeat constructor. }
  rewrite E in G. now inversion G.
Qed.

Lemma get_date_format_valid (x : option string) (d : datetime) :
  _get_date_format x = Ok d -> valid_datetime d = true /\ microsecond d = 0.
Proof.
  destruct x as [date|]; [|discriminate].
  rewrite get_date_format_normalized. apply strptime_valid.
Qed.

Lemma normalized_delete (s : string) :
  normalized s = take 14 (delete_class date_punctuation s).
Proof.
  unfold normalized. now rewrite delete_class_str_of, take_str_of.
Qed.

Lemma delete_class_keep (cls : ascii -> bool) (c : ascii) (r : string) :
  cls c = false ->
  delete_class cls (String c r) = String c (delete_class cls r).
Proof. intros H; simpl; now rewrite H. Qed.

Lemma delete_class_drop (cls : ascii -> bool) (c : ascii) (r : string) :
  cls c = true -> delete_class cls (String c r) = delete_class cls r.
Proof. intros H; simpl; now rewrite H. Qed.

(** From the year 1000 on the year has its four digits. *)
Lemma year_text_four (y : nat) : 1000 <= y -> year_text y = pad4 y.
Proof.
  intros H. unfold year_text.
  destruct (y <? 10) eqn:A; [apply Nat.ltb_lt in A; lia|].
  destruct (y <? 100) eqn:B; [apply Nat.ltb_lt in B; lia|].
  destruct (y <? 1000) eqn:C; [apply Nat.ltb_lt in C; lia|].
  reflexivity.
Qed.

Lemma strftime_iso_four (d : datetime) :
  1000 <= year d ->
  strftime_iso d =
  (pad4 (year d) ++ "-" ++ pad2 (month d) ++ "-" ++ pad2 (day d) ++ "T"
   ++ pad2 (hour d) ++ ":" ++ pad2 (minute d) ++ ":" ++ pad2 (second d)
   ++ "Z")%string.
Proof. intros H. unfold strftime_iso. now rewrite year_text_four. Qed.

(** Normalizing the formatted text gives the 14 digits. *)
Lemma normalized_strftime (d : datetime) :
  1000 <= year d -> normalized (strftime_iso d) = stamp d.
Proof.
  intros H. rewrite (strftime_iso_four d H), normalized_delete.
  unfold stamp, pad4, pad2.
  cbn [String.append].
  repeat first
    [ rewrite delete_class_keep by (apply punctuation_digit_char, mod10_lt)
    | rewrite delete_class_drop by reflexivity ].
  reflexivity.
Qed.

Lemma whole_seconds_id (d : datetime) :
  microsecond d = 0 -> whole_seconds d = d.
Proof. destruct d; simpl; intros ->; reflexivity. Qed.

(** Format, then parse: from the year 1000 on the instant comes back. *)
Lemma get_date_format_strftime (d : datetime) :
  valid_datetime d = true -> microsecond d = 0 -> 1000 <= year d ->
  _get_date_format (Some (strftime_iso d)) = Ok d.
Proof.
  intros V U Y.
  rewrite get_date_format_normalized, normalized_strftime, strptime_stamp
    by assumption.
  now rewrite whole_seconds_id.
Qed.

Lemma strptime_raises (s : string) (e : exn) :
  strptime_YmdHMS s = Raise e -> e = ValueError.
Proof.
  unfold strptime_YmdHMS.
  destruct (match_YmdHMS s) as [|[d r] tl]; [congruence|].
  destruct r; [|congruence]. destruct (valid_datetime d); congruence.
Qed.

(** *** What the expression can read *)

Lemma between_field (lo hi c : ascii) :
  (48 <=? nat_of_ascii lo) = true -> (nat_of_ascii hi <=? 57) = true ->
  char_between lo hi c = true -> field_char c = true.
Proof.
  unfold field_char, is_digit, char_between. intros L H B.
  apply Nat.leb_le in L, H. apply andb_prop in B. destruct B as [B1 B2].
  apply Nat.leb_le in B1, B2.
  apply orb_true_intro. left. apply andb_true_intro.
  change (nat_of_ascii "0") with 48. change (nat_of_ascii "9") with 57.
  split; apply Nat.leb_le; lia.
Qed.

Lemma digit_field (c : ascii) : is_digit c = true -> field_char c = true.
Proof. unfold field_char. now intros ->. Qed.

Lemma eqb_field (a c : ascii) :
  field_char a = true -> Ascii.eqb a c = true -> field_char c = true.
Proof. intros H E. apply Ascii.eqb_eq in E. now subst. Qed.

Lemma append_associative (a b c : string) :
  (a ++ (b ++ c))%string = ((a ++ b) ++ c)%string.
Proof. induction a as [|x a IH]; simpl; [|rewrite IH]; reflexivity. Qed.

Lemma field_text_app (a b : string) :
  field_text (a ++ b) = field_text a && field_text b.
Proof.
  unfold field_text. induction a as [|c a IH]; [reflexivity|].
  cbn [String.append chars forallb]. now rewrite IH, andb_assoc.
Qed.

Lemma one_reads (p : ascii -> bool) :
  (forall c, p c = true -> field_char c = true) -> reads_fields (one p).
Proof.
  intros P s w. unfold one. destruct s as [|a r]; [intros []|].
  destruct (p a) eqn:Pa; [|intros []].
  intros [<-|[]]. cbn [fst snd String.append]. split; [reflexivity|].
  unfold field_text. cbn [chars forallb]. now rewrite (P a Pa).
Qed.

Lemma two_reads (p q : ascii -> bool) :
  (forall c, p c = true -> field_char c = true) ->
  (forall c, q c = true -> field_char c = true) -> reads_fields (two p q).
Proof.
  intros P Q s w. unfold two. destruct s as [|a [|b r]]; try (intros []).
  destruct (p a) eqn:Pa; [|intros []]. destruct (q b) eqn:Qb; [|intros []].
  intros [<-|[]]. cbn [fst snd String.append]. split; [reflexivity|].
  unfold field_text. cbn [chars forallb]. now rewrite (P a Pa), (Q b Qb).
Qed.

Lemma alternatives_read (g h : string -> ways) :
  reads_fields g -> reads_fields h -> reads_fields (fun s => g s ++ h s).
Proof.
  intros G H s w I. apply in_app_or in I. destruct I; [apply G | apply H]; easy.
Qed.

Ltac field_class :=
  intros ? ?;
  first [ eapply digit_field; eassumption
        | eapply between_field; [| |eassumption]; reflexivity
        | eapply eqb_field; [|eassumption]; reflexivity ].

Ltac group_reads :=
  repeat first [ apply alternatives_read
               | apply two_reads; field_class
               | apply one_reads; field_class ].

Lemma re_Y_reads : reads_fields re_Y.
Proof.
  intros s w. unfold re_Y.
  destruct s as [|a [|b [|c [|d r]]]]; try (intros []).
  destruct (is_digit a) eqn:A; [|intros []].
  destruct (is_digit b) eqn:B; [|intros []].
  destruct (is_digit c) eqn:C; [|intros []].
  destruct (is_digit d) eqn:D; [|intros []].
  intros [<-|[]]. cbn [fst snd String.append]. split; [reflexivity|].
  unfold field_text. cbn [chars forallb].
  now rewrite !digit_field by assumption.
Qed.

Lemma re_m_reads : reads_fields re_m.
Proof. unfold re_m. group_reads. Qed.

Lemma re_d_reads : reads_fields re_d.
Proof. unfold re_d. group_reads. Qed.

Lemma re_H_reads : reads_fields re_H.
Proof. unfold re_H. group_reads. Qed.

Lemma re_M_reads : reads_fields re_M.
Proof. unfold re_M. group_reads. Qed.

Lemma re_S_reads : reads_fields re_S.
Proof. unfold re_S. group_reads. Qed.

Lemma then_reads (g : string -> ways)
  (k : nat -> string -> list (datetime * string)) :
  reads_fields g ->
  (forall n s x, In x (k n s) ->
     exists pre, s = (pre ++ snd x)%string /\ field_text pre = true) ->
  forall s x, In x (then_ g k s) ->
    exists pre, s = (pre ++ snd x)%string /\ field_text pre = true.
Proof.
  intros G K s x I. unfold then_ in I. apply in_flat_map in I.
  destruct I as (w & Iw & Ix).
  destruct (G s w Iw) as (E & F).
  destruct (K _ _ _ Ix) as (pre & E' & F').
  exists (fst w ++ pre)%string. split.
  - rewrite E at 1. rewrite E' at 1. now rewrite append_associative.
  - now rewrite field_text_app, F, F'.
Qed.

(** Every match of the expression has read digits and blanks only. *)
Lemma match_reads (s : string) (x : datetime * string) :
  In x (match_YmdHMS s) ->
  exists pre, s = (pre ++ snd x)%string /\ field_text pre = true.
Proof.
  revert s x. unfold match_YmdHMS.
  apply then_reads; [exact re_Y_reads|]; intros ?.
  apply then_reads; [exact re_m_reads|]; intros ?.
  apply then_reads; [exact re_d_reads|]; intros ?.
  apply then_reads; [exact re_H_reads|]; intros ?.
  apply then_reads; [exact re_M_reads|]; intros ?.
  apply then_reads; [exact re_S_reads|]; intros ? s x [<-|[]].
  exists EmptyString. split; reflexivity.
Qed.

(** So a text [strptime] accepts holds nothing else. *)
Lemma strptime_field_text (s : string) (d : datetime) :
  strptime_YmdHMS s = Ok d -> field_text s = true.
Proof.
  unfold strptime_YmdHMS.
  destruct (match_YmdHMS s) as [|[d' r] tl] eqn:E; [discriminate|].
  destruct r; [|discriminate]. intros _.
  destruct (match_reads s (d', EmptyString)) as (pre & -> & F).
  { rewrite E. now left. }
  cbn [snd]. now rewrite append_empty.
Qed.

Lemma field_digit_char (k : nat) : k < 10 -> field_char (digit_char k) = true.
Proof. intros H. apply digit_field, is_digit_digit_char, H. Qed.

(** Before the year 1000 the formatted text has fewer than 14 digits, the
    [Z] stays among the first 14 characters, and the parse fails. *)
Lemma get_date_format_early_year (d : datetime) :
  year d < 1000 ->
  _get_date_format (Some (strftime_iso d)) = Raise ValueError.
Proof.
  intros Y. rewrite get_date_format_normalized.
  destruct (strptime_YmdHMS (normalized (strftime_iso d))) as [d'|e] eqn:E;
    [|now rewrite (strptime_raises _ _ E)].
  apply strptime_field_text in E. exfalso. revert E.
  rewrite normalized_delete. unfold strftime_iso, year_text.
  destruct (year d <? 10);
    [|destruct (year d <? 100);
      [|destruct (year d <? 1000) eqn:C;
        [|apply Nat.ltb_ge in C; lia]]];
    unfold pad2; cbn [String.append];
    repeat first
      [ rewrite delete_class_keep by (apply punctuation_digit_char, mod10_lt)
      | rewrite delete_class_drop by reflexivity
      | rewrite delete_class_keep by reflexivity ];
    cbn [delete_class take]; unfold field_text; cbn [chars forallb];
    rewrite !field_digit_char by apply mod10_lt;
    discriminate.
Qed.


Lemma get_date_format_strftime_inv (d d' : datetime) :
  valid_datetime d = true -> microsecond d = 0 ->
  _get_date_format (Some (strftime_iso d)) = Ok d' ->
  1000 <= year d /\ d' = d.
Proof.
  intros V U E.
  destruct (Nat.lt_ge_cases (year d) 1000) as [Y|Y].
  - rewrite (get_date_format_early_year d Y) in E. discriminate.
  - rewrite (get_date_format_strftime d V U Y) in E. injection E as <-. now split.
Qed.

End RoundTrip.

(** *** Dictionaries *)

Section Dicts.

Context {V : Type}.
Implicit Types (d : dict V) (k : string) (v : V).

Lemma get_app d1 d2 k :
  get (d1 ++ d2) k =
  match get d1 k with
  | Some v => Some v
  | None => get d2 k
  end.
Proof.
  induction d1 as [|[k' v'] d1 IH]; simpl; [reflexivity|].
  destruct (String.eqb k' k); [reflexivity | exact IH].
Qed.

Lemma get_first_occurrence d k : get d k = first_occurrence k d.
Proof.
  unfold first_occurrence.
  induction d as [|[k' v'] d IH]; simpl; [reflexivity|].
  destruct (String.eqb k' k); [reflexivity | exact IH].
Qed.

Lemma setitem_absent d k v : contains d k = false -> setitem d k v = d ++ [(k, v)].
Proof.
  unfold contains.
  induction d as [|[k' v'] d IH]; simpl; [reflexivity|].
  destruct (String.eqb k' k); [discriminate|].
  intros H; now rewrite IH.
Qed.

Lemma get_in d k v : get d k = Some v -> In (k, v) d.
Proof.
  induction d as [|[k' v'] d IH]; simpl; [discriminate|].
  destruct (String.eqb k' k) eqn:E.
  - apply String.eqb_eq in E; subst. intros [= ->]. now left.
  - intros H; right; auto.
Qed.

Lemma in_contains d k v : In (k, v) d -> contains d k = true.
Proof.
  unfold contains.
  induction d as [|[k' v'] d IH]; simpl; [tauto|].
  intros [[= -> ->]|H].
  - now rewrite String.eqb_refl.
  - destruct (String.eqb k' k); [reflexivity | auto].
Qed.

Lemma get_keys d k v : get d k = Some v -> In k (keys d).
Proof.
  intros H. apply get_in in H. unfold keys.
  change k with (fst (k, v)). now apply in_map.
Qed.

Lemma keys_get d k : In k (keys d) -> exists v, get d k = Some v.
Proof.
  unfold keys. induction d as [|[k' v'] d IH]; simpl; [tauto|].
  destruct (String.eqb k' k) eqn:E; [eauto|].
  intros [->|H]; [|auto].
  rewrite String.eqb_refl in E; discriminate.
Qed.

(** Entries whose key passes a test: lookup sees the test and the rest. *)
Lemma get_filter (p : string -> bool) d k :
  get (filter (fun kv => p (fst kv)) d) k = if p k then get d k else None.
Proof.
  induction d as [|[k' v'] d IH]; simpl; [now destruct (p k)|].
  destruct (p k') eqn:P; simpl; destruct (String.eqb k' k) eqn:E;
    try exact IH.
  - apply String.eqb_eq in E; subst. now rewrite P.
  - apply String.eqb_eq in E; subst. rewrite IH. now rewrite P.
Qed.

Lemma delitem_ok d k d' :
  delitem d k = Ok d' ->
  contains d k = true
  /\ d' = filter (fun kv => negb (String.eqb (fst kv) k)) d.
Proof.
  unfold delitem. destruct (contains d k); [|discriminate].
  intros [= <-]; auto.
Qed.

End Dicts.

(** *** Loops *)

Section Loops.

Context {A S : Type}.

Lemma for_each_app (body : S -> A -> result S) (xs ys : list A) (s : S) :
  for_each body (xs ++ ys) s = bind (for_each body xs s) (for_each body ys).
Proof.
  revert s; induction xs as [|x xs IH]; intros s; simpl; [reflexivity|].
  destruct (body s x); simpl; [apply IH | reflexivity].
Qed.

(** A loop that appends one computed item per element. *)
Lemma for_each_collect {B : Type} (f : A -> result B) (xs : list A)
  (acc res : list B) :
  for_each (fun data x => y <- f x ;; Ok (data ++ [y])) xs acc = Ok res ->
  exists ys, res = acc ++ ys /\ Forall2 (fun x y => f x = Ok y) xs ys.
Proof.
  revert acc; induction xs as [|x xs IH]; intros acc; simpl.
  - intros [= <-]. exists []. now rewrite app_nil_r.
  - intros H. bind_inv H. bind_inv Hx. injection Hx as <-.
    destruct (IH _ H) as (ys & -> & F).
    exists (x1 :: ys). rewrite <- app_assoc. split; [reflexivity|].
    now constructor.
Qed.

End Loops.

(** *** The record builder *)

Section Builder.

Lemma english_area_step (hl : option string) (eff exp_ : string)
  (w sa : option string) (ds u : string) :
  english_area hl eff exp_ w sa ds u =
  area_step (fun tag i =>
    mk_english (split_at blank_or_comma tag)
      (_get_element i [cap "areaDesc"] None) hl eff exp_ w sa
      (area_key tag) ds u).
Proof. reflexivity. Qed.

Lemma french_area_step (hl : option string) (ds : string) :
  french_area hl ds =
  area_step (fun tag i =>
    mk_french (area_key tag) (_get_element i [cap "areaDesc"] None) hl ds).
Proof. reflexivity. Qed.

Context {V : Type} (mk : string -> element -> V).

(** A key already there: the step changes nothing. *)
Lemma area_step_present (d : dict V) (i : element) (tag : string) :
  polygon_of i = Some tag -> contains d (area_key tag) = true ->
  area_step mk d i = Ok d.
Proof. unfold area_step. intros -> ->. reflexivity. Qed.

Lemma area_step_get (d d' : dict V) (i : element) :
  area_step mk d i = Ok d' ->
  exists e, area_entry mk i = Ok e /\ forall k, get d' k = get (d ++ [e]) k.
Proof.
  unfold area_step, area_entry.
  destruct (polygon_of i) as [tag|]; [|discriminate].
  generalize (mk tag i); generalize (area_key tag); intros key v.
  destruct (contains d key) eqn:C; cbn [negb]; intros [= <-];
    eexists; split; try reflexivity; intros k.
  - rewrite get_app. destruct (get d k) eqn:G; [reflexivity|].
    cbn [get]. destruct (String.eqb key k) eqn:E; [|reflexivity].
    apply String.eqb_eq in E; subst.
    unfold contains in C. now rewrite G in C.
  - now rewrite setitem_absent.
Qed.

(** After the loop over the areas, a key finds what it finds in the
    tuples already there followed by the tuples of the areas in order. *)
Lemma area_loop_get (areas : list element) (d d' : dict V) :
  for_each (area_step mk) areas d = Ok d' ->
  Forall (fun i => exists e, area_entry mk i = Ok e) areas
  /\ forall k, get d' k = get (d ++ successes (map (area_entry mk) areas)) k.
Proof.
  revert d; induction areas as [|i areas IH]; intros d; cbn [for_each].
  - intros [= <-]. split; [constructor|]. intros k.
    cbn [map successes flat_map]. now rewrite app_nil_r.
  - intros H. bind_inv H.
    destruct (area_step_get _ _ _ Hx) as (e & He & G).
    destruct (IH _ H) as (F & G').
    split; [constructor; eauto|].
    intros k. rewrite G'. unfold successes. cbn [map flat_map].
    rewrite He. cbn [app].
    rewrite !get_app, G, get_app.
    destruct (get d k); [reflexivity|]. cbn [get].
    destruct e as [k' v']. destruct (String.eqb k' k); reflexivity.
Qed.

(** The loop over the areas returns when every area has a polygon. *)
Lemma area_loop_total (areas : list element) (d : dict V) :
  Forall (fun i => polygon_of i <> None) areas ->
  exists d', for_each (area_step mk) areas d = Ok d'.
Proof.
  revert d; induction areas as [|i areas IH]; intros d F; cbn [for_each].
  - now exists d.
  - inversion F as [|? ? P F']; subst. unfold area_step at 1.
    destruct (polygon_of i) as [tag|]; [|contradiction].
    destruct (negb (contains d (area_key tag))); cbn [bind]; now apply IH.
Qed.

Lemma area_loop_polygons (areas : list element) (d d' : dict V) :
  for_each (area_step mk) areas d = Ok d' ->
  Forall (fun i => polygon_of i <> None) areas.
Proof.
  intros H. apply area_loop_get in H. destruct H as (F & _).
  eapply Forall_impl; [|exact F]. intros i (e & E). unfold area_entry in E.
  destruct (polygon_of i); [discriminate | discriminate E].
Qed.

End Builder.

Lemma in_successes_inv {X Y : Type} (f : X -> result Y) (l : list X) (y : Y) :
  In y (successes (map f l)) -> exists x, In x l /\ f x = Ok y.
Proof.
  unfold successes. rewrite in_flat_map. intros (r & I & Iy).
  apply in_map_iff in I. destruct I as (x & <- & Ix).
  exists x. split; [exact Ix|].
  destruct (f x); [|contradiction].
  destruct Iy as [->|[]]. reflexivity.
Qed.

(** A mapping that answers like [d ++ entries] holds the keys of [d]. *)
Lemma contains_kept {V : Type} (d' d entries : dict V) (k : string) :
  (forall k, get d' k = get (d ++ entries) k) ->
  contains d k = true -> contains d' k = true.
Proof.
  intros G. unfold contains. rewrite G, get_app.
  now destruct (get d k).
Qed.

Section InfoBlocks.

Variables (now : datetime) (identifier_ : option string) (lastref url_ : string).

Lemma get_app_congr {V : Type} (d1 d2 r : dict V) (k : string) :
  get d1 k = get d2 k -> get (d1 ++ r) k = get (d2 ++ r) k.
Proof. intros H. now rewrite !get_app, H. Qed.

Lemma eligible_reparsed (seen : list string) (g : element) (e : datetime) :
  reparsed_expires g = Ok e ->
  eligible now identifier_ seen g = datetime_gt e now || not_seen identifier_ seen.
Proof. unfold eligible. now intros ->. Qed.

(** A block that fails the test is passed over. *)
Lemma info_block_skip (st : alerts) (g : element) (e : datetime) :
  reparsed_expires g = Ok e ->
  datetime_gt e now || not_seen identifier_ (list_id st) = false ->
  info_block now identifier_ lastref url_ st g = Ok st.
Proof.
  unfold reparsed_expires, info_block. intros H C.
  destruct (_get_date_format (_get_element g [cap "expires"] None))
    as [e0|]; [|discriminate].
  cbn [bind] in *. rewrite H. cbn [bind]. now rewrite C.
Qed.

(** A block that passes the test is recorded. *)
Lemma info_block_run (st : alerts) (g : element) (e0 e : datetime) :
  _get_date_format (_get_element g [cap "expires"] None) = Ok e0 ->
  _get_date_format (Some (timeformat e0)) = Ok e ->
  datetime_gt e now || not_seen identifier_ (list_id st) = true ->
  info_block now identifier_ lastref url_ st g =
  record_info lastref url_ (timeformat e0)
    (_get_element g (parameter_value (FromLast 4)) None) st g.
Proof.
  unfold info_block. intros -> E C. cbn [bind]. rewrite E. cbn [bind].
  now rewrite C.
Qed.

(** What a block that returns has done. *)
Lemma info_block_ok (st st' : alerts) (g : element) :
  info_block now identifier_ lastref url_ st g = Ok st' ->
  exists e,
    reparsed_expires g = Ok e
    /\ if datetime_gt e now || not_seen identifier_ (list_id st)
       then
         list_id st' = list_id st ++ [lastref]
         /\ if is_french g
            then
              english_alert st' = english_alert st
              /\ Forall (fun i => exists x, french_entry g i = Ok x)
                   (areas_of g)
              /\ forall k,
                   get (french_alert st') k =
                   get (french_alert st
                        ++ successes (map (french_entry g) (areas_of g))) k
            else
              french_alert st' = french_alert st
              /\ Forall (fun i => exists x, english_entry url_ g i = Ok x)
                   (areas_of g)
              /\ forall k,
                   get (english_alert st') k =
                   get (english_alert st
                        ++ successes (map (english_entry url_ g) (areas_of g))) k
       else st' = st.
Proof.
  unfold info_block, reparsed_expires, is_french. intros H.
  destruct (_get_date_format (_get_element g [cap "expires"] None))
    as [e0|] eqn:E0; [|discriminate].
  cbn [bind] in *.
  destruct (_get_date_format (Some (timeformat e0))) as [e|] eqn:E;
    [|discriminate].
  cbn [bind] in H. exists e. split; [reflexivity|].
  destruct (datetime_gt e now || not_seen identifier_ (list_id st));
    [|now injection H as <-].
  unfold record_info in H.
  destruct (is_str (_get_element g [cap "language"] None) "fr-CA").
  - bind_inv H. bind_inv H. injection H as <-.
    cbn [list_id english_alert french_alert].
    rewrite french_area_step in Hx0.
    apply area_loop_get in Hx0. destruct Hx0 as (F & G).
    assert (Q : forall i,
      area_entry (fun tag i0 =>
        mk_french (area_key tag) (_get_element i0 [cap "areaDesc"] None)
          (_get_element g [cap "headline"] None) x) i = french_entry g i).
    { intros i. unfold french_entry. rewrite Hx. reflexivity. }
    repeat split; try reflexivity.
    + eapply Forall_impl; [|exact F]. intros i (y & Hy).
      exists y. now rewrite <- Q.
    + intros k. rewrite G. now rewrite (map_ext _ _ Q).
  - bind_inv H. bind_inv H. bind_inv H. injection H as <-.
    cbn [list_id english_alert french_alert].
    rewrite english_area_step in Hx1.
    apply area_loop_get in Hx1. destruct Hx1 as (F & G).
    assert (Q : forall i,
      area_entry (fun tag i0 =>
        mk_english (split_at blank_or_comma tag)
          (_get_element i0 [cap "areaDesc"] None)
          (_get_element g [cap "headline"] None) (timeformat x0)
          (timeformat e0)
          (_get_element g (parameter_value (Position 1)) None)
          (_get_element g (parameter_value (FromLast 4)) None)
          (area_key tag) x url_) i = english_entry url_ g i).
    { intros i. unfold english_entry. rewrite E0, Hx, Hx0. reflexivity. }
    repeat split; try reflexivity.
    + eapply Forall_impl; [|exact F]. intros i (y & Hy).
      exists y. now rewrite <- Q.
    + intros k. rewrite G. now rewrite (map_ext _ _ Q).
Qed.

(** After the loop over the blocks, a key finds in each mapping the first
    of the eligible occurrences of its language. *)
Lemma collect_get (infos : list element) (st st' : alerts) :
  for_each (info_block now identifier_ lastref url_) infos st = Ok st' ->
  forall k,
    get (english_alert st') k =
    get (english_alert st
         ++ occurrences false (english_entry url_) now identifier_ lastref
              (list_id st) infos) k
    /\ get (french_alert st') k =
       get (french_alert st
            ++ occurrences true french_entry now identifier_ lastref
                 (list_id st) infos) k.
Proof.
  revert st; induction infos as [|g infos IH]; intros st; cbn [for_each].
  - intros [= <-] k. cbn [occurrences]. now rewrite !app_nil_r.
  - intros H k. bind_inv H.
    destruct (info_block_ok _ _ _ Hx) as (e & R & B).
    destruct (IH _ H k) as (GE & GF). rewrite GE, GF.
    cbn [occurrences]. rewrite (eligible_reparsed _ _ _ R).
    destruct (datetime_gt e now || not_seen identifier_ (list_id st));
      [|subst x; auto].
    destruct B as (L & B). rewrite L.
    destruct (is_french g); cbn [Bool.eqb]; destruct B as (Q & _ & G);
      rewrite Q; cbn [app]; rewrite !app_assoc;
      split; try reflexivity; apply get_app_congr, G.
Qed.

(** A block whose [expires] cannot be read stops the loop. *)
Lemma info_block_raises (st : alerts) (g : element) (x : exn) :
  reparsed_expires g = Raise x ->
  info_block now identifier_ lastref url_ st g = Raise x.
Proof.
  unfold reparsed_expires, info_block.
  destruct (_get_date_format (_get_element g [cap "expires"] None))
    as [e0|]; cbn [bind]; [|intros [= ->]; reflexivity].
  now intros ->.
Qed.

(** Recording returns for the blocks that have what it reads, and for
    no others. *)
Lemma record_info_returns (expires_ : string) (status_alert : option string)
  (st : alerts) (g : element) :
  recordable g <->
  exists st', record_info lastref url_ expires_ status_alert st g = Ok st'.
Proof.
  unfold recordable, record_info, is_french, areas_of.
  destruct (is_str (_get_element g [cap "language"] None) "fr-CA").
  - split.
    + intros (D & _ & P).
      destruct (_get_element g [cap "description"] None) as [ds|];
        [|contradiction].
      cbn [clean_description bind]. rewrite french_area_step.
      match goal with
      | |- context [for_each (area_step ?mk) _ ?d] =>
          destruct (area_loop_total mk _ d P) as (fr & ->)
      end.
      cbn [bind]. eexists; reflexivity.
    + intros (st' & H). bind_inv H. bind_inv H. split; [|split].
      * intros N. rewrite N in Hx. discriminate.
      * discriminate.
      * rewrite french_area_step in Hx0. eapply area_loop_polygons, Hx0.
  - split.
    + intros (D & E & P).
      destruct (_get_element g [cap "description"] None) as [ds|];
        [|contradiction].
      destruct (E eq_refl) as (f & ->).
      cbn [clean_description bind]. rewrite english_area_step.
      match goal with
      | |- context [for_each (area_step ?mk) _ ?d] =>
          destruct (area_loop_total mk _ d P) as (en & ->)
      end.
      cbn [bind]. eexists; reflexivity.
    + intros (st' & H). bind_inv H. bind_inv H. bind_inv H.
      split; [|split].
      * intros N. rewrite N in Hx. discriminate.
      * intros _. now exists x0.
      * rewrite english_area_step in Hx1. eapply area_loop_polygons, Hx1.
Qed.

(** A block that passes the test returns exactly when it has what
    recording reads. *)
Lemma info_block_returns (st : alerts) (g : element) (e : datetime) :
  reparsed_expires g = Ok e ->
  datetime_gt e now || not_seen identifier_ (list_id st) = true ->
  recordable g <->
  exists st', info_block now identifier_ lastref url_ st g = Ok st'.
Proof.
  unfold reparsed_expires. intros R C.
  destruct (_get_date_format (_get_element g [cap "expires"] None))
    as [e0|] eqn:E0; [|discriminate].
  cbn [bind] in R. rewrite (info_block_run st g e0 e E0 R C).
  apply record_info_returns.
Qed.

(** The loop up to a block, the block, the loop after it. *)
Lemma pass_split (pre post : list element) (g : element) (st before : alerts) :
  pass now identifier_ lastref url_ pre st = Ok before ->
  pass now identifier_ lastref url_ (pre ++ g :: post) st =
  bind (info_block now identifier_ lastref url_ before g)
       (pass now identifier_ lastref url_ post).
Proof.
  unfold pass. intros H. rewrite for_each_app, H. reflexivity.
Qed.

Lemma pass_split_inv (pre post : list element) (g : element) (st st' : alerts) :
  pass now identifier_ lastref url_ (pre ++ g :: post) st = Ok st' ->
  exists before after,
    pass now identifier_ lastref url_ pre st = Ok before
    /\ info_block now identifier_ lastref url_ before g = Ok after
    /\ pass now identifier_ lastref url_ post after = Ok st'.
Proof.
  unfold pass. rewrite for_each_app. intros H. bind_inv H.
  cbn [for_each] in H. bind_inv H. now exists x, x0.
Qed.



(** An occurrence in the list comes from an area of a block of its
    language that passed the test in the state the loop had reached. *)
Lemma occurrences_split {V : Type} (french : bool)
  (entry : element -> element -> result (string * V))
  (infos : list element) (st0 st : alerts) (kv : string * V) :
  pass now identifier_ lastref url_ infos st0 = Ok st ->
  In kv (occurrences french entry now identifier_ lastref (list_id st0) infos) ->
  exists pre g post before i,
    infos = pre ++ g :: post
    /\ pass now identifier_ lastref url_ pre st0 = Ok before
    /\ eligible now identifier_ (list_id before) g = true
    /\ is_french g = french /\ In i (areas_of g) /\ entry g i = Ok kv.
Proof.
  revert st0; induction infos as [|g infos IH]; intros st0;
    cbn [occurrences]; [intros _ []|].
  unfold pass. cbn [for_each]. intros H I. bind_inv H.
  destruct (info_block_ok _ _ _ Hx) as (e & R & B).
  rewrite (eligible_reparsed _ _ _ R) in I.
  assert (K : forall s1,
    x = s1 ->
    In kv (occurrences french entry now identifier_ lastref (list_id s1) infos) ->
    exists pre g0 post before i,
      g :: infos = pre ++ g0 :: post
      /\ for_each (info_block now identifier_ lastref url_) pre st0 = Ok before
      /\ eligible now identifier_ (list_id before) g0 = true
      /\ is_french g0 = french /\ In i (areas_of g0) /\ entry g0 i = Ok kv).
  { intros s1 <- I'.
    destruct (IH _ H I') as (pre & g0 & post & before & i & S & P & Q).
    exists (g :: pre), g0, post, before, i. split; [now rewrite S|].
    split; [|exact Q]. cbn [for_each]. rewrite Hx. exact P. }
  destruct (datetime_gt e now || not_seen identifier_ (list_id st0)) eqn:C.
  - destruct B as (L & _). apply in_app_or in I. destruct I as [I|I].
    + destruct (Bool.eqb (is_french g) french) eqn:F; [|contradiction].
      apply in_successes_inv in I. destruct I as (i & Ii & Ei).
      exists [], g, infos, st0, i. repeat split; auto.
      * now rewrite (eligible_reparsed _ _ _ R).
      * now apply Bool.eqb_prop.
    + apply (K x eq_refl). now rewrite L.
  - subst x. now apply (K st0 eq_refl).
Qed.

End InfoBlocks.

(** *** The expiry filter *)

Section Expiry.

Variable now : datetime.

Lemma datetime_lt_ge (a b : datetime) :
  datetime_ge a b = negb (datetime_lt a b).
Proof. unfold datetime_ge, datetime_lt. now destruct (datetime_compare a b). Qed.

Lemma mem_app (x : string) (l1 l2 : list string) :
  mem String.eqb x (l1 ++ l2) = mem String.eqb x l1 || mem String.eqb x l2.
Proof. unfold mem. apply existsb_app. Qed.

Lemma mem_in (x : string) (l : list string) :
  mem String.eqb x l = true <-> In x l.
Proof.
  unfold mem. rewrite existsb_exists. split.
  - intros (y & I & E). apply String.eqb_eq in E. now subst.
  - intros I. exists x. split; [exact I | apply String.eqb_refl].
Qed.

(** The first loop lists every key whose stored [expires] lies before
    [now]; every stored [expires] has been parsed on the way. *)
Lemma expired_keys_ok (en : dict english_tuple) (remove : list string) :
  expired_keys now en = Ok remove ->
  (forall j, In j remove -> In j (keys en))
  /\ forall j t,
       get en j = Some t ->
       exists d,
         _get_date_format (Some (en_expires t)) = Ok d
         /\ (datetime_lt d now = true -> In j remove).
Proof.
  unfold expired_keys.
  set (body := fun (r : list string) (j : string) =>
    t <- lookup en j ;;
    d <- _get_date_format (Some (en_expires t)) ;;
    Ok (if datetime_lt d now then r ++ [j] else r)).
  assert (G : forall ks acc res,
    for_each body ks acc = Ok res ->
    (forall j, In j res -> In j acc \/ In j ks)
    /\ (forall j, In j acc -> In j res)
    /\ forall j t, In j ks -> get en j = Some t ->
         exists d, _get_date_format (Some (en_expires t)) = Ok d
                   /\ (datetime_lt d now = true -> In j res)).
  { induction ks as [|k ks IH]; intros acc res; cbn [for_each].
    - intros [= <-]. repeat split; auto. intros j t [].
    - intros H. bind_inv H. unfold body in Hx at 1.
      bind_inv Hx. bind_inv Hx. injection Hx as <-.
      destruct (IH _ _ H) as (I1 & I2 & I3).
      assert (A : forall j, In j acc ->
                In j (if datetime_lt x1 now then acc ++ [k] else acc)).
      { intros j I. destruct (datetime_lt x1 now); [apply in_or_app|]; auto. }
      repeat split.
      + intros j I. destruct (I1 _ I) as [I'|I']; [|right; now right].
        destruct (datetime_lt x1 now); [|now left].
        apply in_app_or in I'. destruct I' as [I'|[<-|[]]]; [now left|].
        right; now left.
      + intros j I. apply I2, A, I.
      + intros j t [<-|I] Gj; [|now apply I3].
        unfold lookup in Hx0. rewrite Gj in Hx0. injection Hx0 as <-.
        exists x1. split; [exact Hx1|]. intros L. apply I2. rewrite L.
        apply in_or_app. right. now left. }
  intros H. destruct (G _ _ _ H) as (I1 & _ & I3). split.
  - intros j I. destruct (I1 _ I) as [[]|I']; exact I'.
  - intros j t Gj. apply I3; [|exact Gj]. eapply get_keys, Gj.
Qed.

(** The second loop keeps, in both mappings and in their order, the
    entries whose key is not listed. *)
Lemma remove_keys_ok (remove : list string)
  (en en' : dict english_tuple) (fr fr' : dict french_tuple) :
  remove_keys remove en fr = Ok (en', fr') ->
  en' = filter (kept remove) en /\ fr' = filter (kept remove) fr.
Proof.
  unfold remove_keys.
  revert en fr; induction remove as [|key rest IH]; intros en fr;
    cbn [for_each].
  - intros [= <- <-]. unfold kept; cbn.
    split; symmetry; apply forallb_filter_id, forallb_forall; reflexivity.
  - intros H. bind_inv H. bind_inv Hx. bind_inv Hx. injection Hx as <-.
    cbn [fst snd] in *.
    apply delitem_ok in Hx0, Hx1. destruct Hx0 as (_ & ->), Hx1 as (_ & ->).
    destruct (IH _ _ H) as (-> & ->).
    rewrite !filter_twice.
    split; apply filter_ext; intros [k v]; unfold kept, mem; cbn [fst existsb];
      now rewrite negb_orb.
Qed.

Lemma contains_filter_kept {V : Type} (remove : list string) (d : dict V)
  (k : string) :
  In k remove -> contains (filter (kept remove) d) k = false.
Proof.
  intros I. unfold contains.
  change (kept remove (V := V))
    with (fun kv : string * V => negb (mem String.eqb (fst kv) remove)).
  rewrite (get_filter (fun k => negb (mem String.eqb k remove))).
  apply mem_in in I. now rewrite I.
Qed.

Lemma get_filter_kept {V : Type} (remove : list string) (d : dict V)
  (k : string) (v : V) :
  get (filter (kept remove) d) k = Some v ->
  get d k = Some v /\ ~ In k remove.
Proof.
  change (kept remove (V := V))
    with (fun kv : string * V => negb (mem String.eqb (fst kv) remove)).
  rewrite (get_filter (fun k => negb (mem String.eqb k remove))).
  destruct (mem String.eqb k remove) eqn:M; cbn [negb]; [discriminate|].
  intros H. split; [exact H|]. rewrite <- mem_in. now rewrite M.
Qed.

End Expiry.

(** *** The polygon builder and the assembler *)

Section Assembler.

Lemma pair_loop_body (tokens : list string) :
  pair_loop tokens =
  for_each (pair_body tokens) (reversed_range2 (List.length tokens)) [].
Proof. reflexivity. Qed.

(** [float()] raises nothing but [ValueError]. *)
Lemma float_of_str_raises (s : string) (e : exn) :
  float_of_str s = Raise e -> e = ValueError.
Proof.
  unfold float_of_str. intros H.
  repeat match type of H with
         | context [match ?t with _ => _ end] => destruct t
         end; congruence.
Qed.

Lemma getitem_in_range {A : Type} (l : list A) (i : nat) :
  i < List.length l -> exists a, getitem l i = Ok a /\ nth_error l i = Some a.
Proof.
  intros H. unfold getitem.
  destruct (nth_error l i) as [a|] eqn:E; [eauto|].
  apply nth_error_None in E. lia.
Qed.

Lemma getitem_out_of_range {A : Type} (l : list A) (i : nat) :
  List.length l <= i -> getitem l i = Raise IndexError.
Proof.
  intros H. unfold getitem.
  apply nth_error_None in H. now rewrite H.
Qed.

Lemma coordinate_token (tokens : list string) (i : nat) (t : string) :
  coordinate_tokens tokens -> nth_error tokens i = Some t ->
  exists x, float_of_str t = Ok x.
Proof.
  intros C E. unfold coordinate_tokens in C. rewrite Forall_forall in C.
  eapply C, nth_error_In, E.
Qed.

(** With both indices in range, the loop never raises [IndexError]. *)
Lemma pair_loop_in_bounds (tokens : list string) (ls : list nat)
  (acc : list (list float)) :
  (forall l, In l ls -> l + 1 < List.length tokens) ->
  for_each (pair_body tokens) ls acc <> Raise IndexError.
Proof.
  revert acc; induction ls as [|l ls IH]; intros acc B; cbn [for_each];
    [discriminate|].
  assert (Bl : l + 1 < List.length tokens) by (apply B; now left).
  unfold pair_body at 1.
  destruct (1 <? List.length tokens); [|apply IH; intros; apply B; now right].
  destruct (getitem_in_range tokens (l + 1) Bl) as (a & -> & _).
  destruct (getitem_in_range tokens l) as (b & -> & _); [lia|].
  cbn [bind].
  destruct (float_of_str a) as [x|e] eqn:Ea; cbn [bind].
  - destruct (float_of_str b) as [y|e] eqn:Eb; cbn [bind].
    + apply IH; intros; apply B; now right.
    + apply float_of_str_raises in Eb. congruence.
  - apply float_of_str_raises in Ea. congruence.
Qed.

(** With both indices in range and tokens that are floats, the loop
    appends one triple per index, in the order of the indices. *)
Lemma pair_loop_triples (tokens : list string) (ls : list nat)
  (acc : list (list float)) :
  1 < List.length tokens ->
  coordinate_tokens tokens ->
  (forall l, In l ls -> l + 1 < List.length tokens) ->
  exists pts,
    for_each (pair_body tokens) ls acc = Ok (acc ++ pts)
    /\ Forall2 (triple_at tokens) ls pts.
Proof.
  intros L C. revert acc; induction ls as [|l ls IH]; intros acc B;
    cbn [for_each].
  - exists []. rewrite app_nil_r. split; [reflexivity | constructor].
  - assert (Bl : l + 1 < List.length tokens) by (apply B; now left).
    unfold pair_body at 1. apply Nat.ltb_lt in L. rewrite L.
    destruct (getitem_in_range tokens (l + 1) Bl) as (a & -> & Na).
    destruct (getitem_in_range tokens l) as (b & -> & Nb); [lia|].
    destruct (coordinate_token _ _ _ C Na) as (x & Hx).
    destruct (coordinate_token _ _ _ C Nb) as (y & Hy).
    cbn [bind]. rewrite Hx. cbn [bind]. rewrite Hy. cbn [bind].
    destruct (IH (acc ++ [[x; y; float_zero]])) as (pts & -> & F).
    { intros; apply B; now right. }
    exists ([x; y; float_zero] :: pts). rewrite <- app_assoc.
    split; [reflexivity|]. constructor; [|exact F].
    now exists b, a, x, y.
Qed.

Lemma reversed_range2_even (n : nat) :
  reversed_range2 (2 * n) = rev (map (fun i => 2 * i) (seq 0 n)).
Proof.
  unfold reversed_range2. now rewrite Nat.div2_succ_double.
Qed.

Lemma reversed_range2_odd (n : nat) :
  reversed_range2 (2 * n + 1) =
  2 * n :: rev (map (fun i => 2 * i) (seq 0 n)).
Proof.
  unfold reversed_range2.
  replace (S (2 * n + 1)) with (2 * (S n)) by lia.
  rewrite Nat.div2_double, seq_S, map_app, rev_app_distr. reflexivity.
Qed.

Lemma in_reversed_even (n l : nat) :
  In l (rev (map (fun i => 2 * i) (seq 0 n))) -> l + 1 < 2 * n.
Proof.
  rewrite <- in_rev, in_map_iff. intros (i & <- & I).
  apply in_seq in I. lia.
Qed.

(** Fewer than two tokens: no triple at all. *)
Lemma pair_loop_short (tokens : list string) :
  List.length tokens <= 1 -> pair_loop tokens = Ok [].
Proof.
  intros H. rewrite pair_loop_body.
  destruct tokens as [|t [|t' tokens]]; [reflexivity | reflexivity|].
  simpl in H; lia.
Qed.

(** The closing point of an empty list of triples does not exist. *)
Lemma ring_empty : ring [] = Raise IndexError.
Proof. reflexivity. Qed.

Lemma alert_location_ok (identifier_ : option string)
  (en : dict english_tuple) (fr : dict french_tuple) (k : string)
  (f : feature) :
  alert_location identifier_ en fr k = Ok f ->
  exists e t poly r,
    get en k = Some e /\ get fr k = Some t
    /\ pair_loop (en_split_tag e) = Ok poly /\ ring poly = Ok r
    /\ f = mk_feature "Feature"
             (mk_properties (en_id_warning e) (en_name e) identifier_
                (fr_name t) (en_headline e) (fr_headline t) (en_descript e)
                (fr_descript t) (en_effective e) (en_expires e)
                (en_warning e) (en_status_alert e) (en_url e))
             (mk_geometry "Polygon" [r]).
Proof.
  unfold alert_location. intros H.
  bind_inv H. bind_inv H. bind_inv H. bind_inv H. injection H as <-.
  unfold lookup in Hx, Hx2.
  destruct (get en k) as [e|]; [|discriminate].
  destruct (get fr k) as [t|]; [|discriminate].
  injection Hx as <-. injection Hx2 as <-.
  now exists e, t, x0, x1.
Qed.

(** A short token list stops the assembly of its feature. *)
Lemma alert_location_short (identifier_ : option string)
  (en : dict english_tuple) (fr : dict french_tuple) (k : string)
  (e : english_tuple) :
  get en k = Some e -> List.length (en_split_tag e) <= 1 ->
  alert_location identifier_ en fr k = Raise IndexError.
Proof.
  intros G L. unfold alert_location, lookup. rewrite G. cbn [bind].
  rewrite (pair_loop_short _ L). reflexivity.
Qed.

Lemma assemble_ok (identifier_ : option string)
  (en : dict english_tuple) (fr : dict french_tuple) (data : list feature) :
  assemble identifier_ en fr = Ok data ->
  List.length fr = List.length en
  /\ Forall2 (fun k f => alert_location identifier_ en fr k = Ok f)
       (keys en) data.
Proof.
  unfold assemble.
  destruct (List.length fr =? List.length en) eqn:E; [|discriminate].
  intros H. split; [now apply Nat.eqb_eq|].
  apply for_each_collect in H. destruct H as (ys & -> & F). exact F.
Qed.

(** Mappings of different sizes: [data] is read before it is bound. *)
Lemma assemble_unequal (identifier_ : option string)
  (en : dict english_tuple) (fr : dict french_tuple) :
  List.length fr <> List.length en ->
  assemble identifier_ en fr = Raise UnboundLocalError.
Proof.
  intros H. unfold assemble. apply Nat.eqb_neq in H. now rewrite H.
Qed.

End Assembler.

(* ================================================================= *)
(** ** The date normalizer *)




(* ================================================================= *)
(** ** The area key *)

Section AreaKey.

Lemma str_of_inj (l1 l2 : list ascii) : str_of l1 = str_of l2 -> l1 = l2.
Proof. intros H. rewrite <- (chars_str_of l1), H. apply chars_str_of. Qed.

Lemma nth_error_firstn_lt {X : Type} (n i : nat) (l : list X) :
  i < n -> nth_error (firstn n l) i = nth_error l i.
Proof.
  revert i l; induction n as [|n IH]; intros i l H; [lia|].
  destruct l as [|x l]; [reflexivity|].
  destruct i as [|i]; [reflexivity|]. simpl. apply IH. lia.
Qed.

Lemma area_key_refines (tag : string) : area_key tag = area_key_spec tag.
Proof.
  unfold area_key, area_key_spec, cleaned.
  rewrite delete_class_str_of, take_str_of.
  do 3 f_equal. apply filter_ext. intros c.
  unfold key_class, area_key_chars. cbn [existsb].
  now rewrite orb_false_r, !orb_assoc.
Qed.

End AreaKey.

(** C7. The area key is ["a-"] followed by the first 25 characters of the
    polygon string once every ['-'], [','], [' '] and ['.'] is removed;
    so equal polygon strings get equal keys, and polygon strings whose
    cleaned forms differ at one of the first 25 positions get different
    keys. *)
Theorem area_key_derivation (a b : string) :
  area_key a = area_key_spec a
  /\ (a = b -> area_key a = area_key b)
  /\ ((exists i, i < 25 /\ nth_error (cleaned a) i <> nth_error (cleaned b) i)
      -> area_key a <> area_key b).
Proof.
  split; [apply area_key_refines|].
  split; [now intros ->|].
  intros (i & Hi & D) E. apply D.
  rewrite !area_key_refines in E. unfold area_key_spec in E.
  assert (F : firstn 25 (cleaned a) = firstn 25 (cleaned b)).
  { apply str_of_inj. revert E.
    generalize (str_of (firstn 25 (cleaned a))),
               (str_of (firstn 25 (cleaned b))).
    intros x y E. cbn [String.append] in E. now injection E. }
  rewrite <- (nth_error_firstn_lt 25 i (cleaned a) Hi),
          <- (nth_error_firstn_lt 25 i (cleaned b) Hi).
  now rewrite F.
Qed.

Lemma area_key_derivation_witness :
  area_key "45.0,-75.0 45.1,-75.0" <> area_key "45.1,-75.0 45.1,-75.0".
Proof.
  apply (proj2 (proj2
           (area_key_derivation "45.0,-75.0 45.1,-75.0"
              "45.1,-75.0 45.1,-75.0"))).
  exists 2. split; [lia|]. vm_compute. discriminate.
Defined.

(* ================================================================= *)
(** ** The XML extractor *)

(** C9. [_get_element] is a total function of a tree node, a path and an
    optional attribute name (none of its steps can raise, so it is
    defined outside the exception monad): with an attribute name and a
    node that resolves it returns what the attributes hold under that
    name; otherwise the text of the node when there is one and it is not
    empty; otherwise [None], in particular when the node does not
    resolve. *)
Theorem get_element_contract (node : element) (p : path)
  (attrib_ : option string) :
  (forall a v, attrib_ = Some a -> find node p = Some v ->
               _get_element node p attrib_ = get (attrib v) a)
  /\ (forall v t, attrib_ = None -> find node p = Some v ->
                  text v = Some t -> t <> EmptyString ->
                  _get_element node p attrib_ = Some t)
  /\ (forall v, attrib_ = None -> find node p = Some v ->
                text v = None \/ text v = Some EmptyString ->
                _get_element node p attrib_ = None)
  /\ (find node p = None -> _get_element node p attrib_ = None).
Proof.
  unfold _get_element. repeat split.
  - intros a v -> ->. reflexivity.
  - intros v t -> -> -> N. destruct t; [contradiction | reflexivity].
  - intros v -> -> [->| ->]; reflexivity.
  - intros ->. now destruct attrib_.
Qed.

Lemma get_element_contract_witness :
  _get_element (Sample.area_elem Sample.triangle "Ottawa North")
    [cap "polygon"] None = Some Sample.triangle.
Proof.
  refine (proj1 (proj2 (get_element_contract _ _ None))
            (Sample.leaf "polygon" Sample.triangle) _ eq_refl _ eq_refl _).
  - vm_compute. reflexivity.
  - discriminate.
Defined.

(* ================================================================= *)
(** ** The polygon builder *)

Section PairLoop.

Lemma nth_error_reversed (f : nat -> nat) (n i : nat) :
  i < n -> nth_error (rev (map f (seq 0 n))) i = Some (f (n - 1 - i)).
Proof.
  revert i; induction n as [|n IH]; intros i H; [lia|].
  rewrite seq_S, map_app, rev_app_distr. cbn [map rev app Nat.add].
  destruct i as [|i]; cbn [nth_error].
  - f_equal. f_equal. lia.
  - rewrite IH by lia. f_equal. f_equal. lia.
Qed.

Lemma Forall2_nth_error {X Y : Type} (R : X -> Y -> Prop)
  (l1 : list X) (l2 : list Y) (i : nat) (x : X) :
  Forall2 R l1 l2 -> nth_error l1 i = Some x ->
  exists y, nth_error l2 i = Some y /\ R x y.
Proof.
  intros F. revert i. induction F as [|a b l1 l2 Rab F IH]; intros i.
  - destruct i; discriminate.
  - destruct i as [|i]; cbn [nth_error].
    + intros [= <-]. eauto.
    + apply IH.
Qed.

Lemma Forall2_length_eq {X Y : Type} (R : X -> Y -> Prop)
  (l1 : list X) (l2 : list Y) :
  Forall2 R l1 l2 -> List.length l2 = List.length l1.
Proof. induction 1; simpl; congruence. Qed.

End PairLoop.

(** C10, amended. On a token list of even length [2n], [n >= 1], the pair
    loop makes no access outside the list, and when every token is the
    text of a float it produces exactly [n] triples [[lon, lat, 0.0]], the
    pairs taken last first; on a token list of odd length [2n + 1],
    [n >= 1], its first round reads index [l + 1] equal to the length of
    the list, which is out of bounds. *)
Theorem pair_loop_total_on_even (tokens : list string) (n : nat) :
  1 <= n ->
  (List.length tokens = 2 * n ->
   pair_loop tokens <> Raise IndexError
   /\ (coordinate_tokens tokens ->
       exists poly,
         pair_loop tokens = Ok poly
         /\ List.length poly = n
         /\ forall i, i < n ->
              exists p, nth_error poly i = Some p
                        /\ triple_at tokens (2 * (n - 1 - i)) p))
  /\ (List.length tokens = 2 * n + 1 ->
      getitem tokens (2 * n + 1) = Raise IndexError
      /\ pair_loop tokens = Raise IndexError).
Proof.
  intros N. split; intros L.
  - rewrite pair_loop_body, L, reversed_range2_even.
    assert (B : forall l, In l (rev (map (fun i => 2 * i) (seq 0 n))) ->
                          l + 1 < List.length tokens).
    { intros l I. rewrite L. now apply in_reversed_even. }
    split; [now apply pair_loop_in_bounds|].
    intros C.
    destruct (pair_loop_triples tokens _ [] ltac:(lia) C B) as (pts & E & F).
    exists pts. split; [exact E|]. split.
    + rewrite (Forall2_length_eq _ _ _ F).
      now rewrite length_rev, length_map, length_seq.
    + intros i Hi.
      apply (Forall2_nth_error _ _ _ i _ F).
      now apply nth_error_reversed.
  - assert (G : getitem tokens (2 * n + 1) = Raise IndexError)
      by (apply getitem_out_of_range; lia).
    split; [exact G|].
    rewrite pair_loop_body, L, reversed_range2_odd. cbn [for_each].
    unfold pair_body at 1.
    replace (1 <? List.length tokens) with true
      by (symmetry; apply Nat.ltb_lt; lia).
    rewrite G. reflexivity.
Qed.

Lemma pair_loop_total_on_even_witness :
  pair_loop ["45.0"; "-75.0"; "45.1"; "-75.0"; "45.1"; "-75.1"]%string
    <> Raise IndexError
  /\ (exists poly,
        pair_loop ["45.0"; "-75.0"; "45.1"; "-75.0"; "45.1"; "-75.1"]%string
        = Ok poly
        /\ List.length poly = 3)
  /\ pair_loop ["45.0"; "-75.0"; "45.1"]%string = Raise IndexError.
Proof.
  pose proof (proj1 (pair_loop_total_on_even
                ["45.0"; "-75.0"; "45.1"; "-75.0"; "45.1"; "-75.1"]%string 3
                ltac:(lia)) eq_refl) as (B & T).
  split; [exact B|]. split.
  - destruct T as (poly & E & L & _).
    { repeat constructor; eexists; vm_compute; reflexivity. }
    exists poly. now split.
  - apply (proj2 (pair_loop_total_on_even
             ["45.0"; "-75.0"; "45.1"]%string 1 ltac:(lia))).
    reflexivity.
Defined.

(** The claim as first stated, for every token list of even length,
    fails on the polygon [Sample.stray_blank]: the blank after its first
    comma gives four tokens, one of them empty, and the loop raises
    [ValueError] where two triples were promised. *)
Lemma pair_loop_total_on_even_counterexample :
  split_at blank_or_comma Sample.stray_blank
  = ["45.0"; EmptyString; "-75.0"; "45.1"]%string
  /\ List.length (split_at blank_or_comma Sample.stray_blank) = 2 * 2
  /\ pair_loop (split_at blank_or_comma Sample.stray_blank)
     = Raise ValueError
  /\ ~ (exists poly,
          pair_loop (split_at blank_or_comma Sample.stray_blank) = Ok poly
          /\ List.length poly = 2).
Proof.
  assert (E : pair_loop (split_at blank_or_comma Sample.stray_blank)
              = Raise ValueError) by (vm_compute; reflexivity).
  split; [vm_compute; reflexivity|]. split; [vm_compute; reflexivity|].
  split; [exact E|]. intros (poly & H & _). rewrite E in H. discriminate.
Qed.

(* ================================================================= *)
(** ** The record builder: filtering and first occurrence *)

Section Entries.

Lemma french_entry_key (g i : element) (x : string * french_tuple) :
  french_entry g i = Ok x ->
  exists tag, polygon_of i = Some tag /\ fst x = area_key tag.
Proof.
  unfold french_entry. intros H. bind_inv H.
  destruct (polygon_of i) as [tag|]; [|discriminate].
  injection H as <-. now exists tag.
Qed.

Lemma english_entry_key (u : string) (g i : element)
  (x : string * english_tuple) :
  english_entry u g i = Ok x ->
  exists tag, polygon_of i = Some tag /\ fst x = area_key tag.
Proof.
  unfold english_entry. intros H. bind_inv H. bind_inv H. bind_inv H.
  destruct (polygon_of i) as [tag|]; [|discriminate].
  injection H as <-. now exists tag.
Qed.

Lemma in_successes {X Y : Type} (f : X -> result Y) (l : list X)
  (x : X) (y : Y) :
  In x l -> f x = Ok y -> In y (successes (map f l)).
Proof.
  intros I E. unfold successes. apply in_flat_map.
  exists (f x). split; [now apply in_map|]. rewrite E. now left.
Qed.

(** A mapping that answers like [d ++ entries] holds every key of
    [entries]. *)
Lemma contains_entry {V : Type} (d' d entries : dict V) (k : string) (v : V) :
  (forall k, get d' k = get (d ++ entries) k) ->
  In (k, v) entries -> contains d' k = true.
Proof.
  intros G I. unfold contains. rewrite G.
  change (contains (d ++ entries) k = true).
  apply (in_contains _ _ v), in_or_app. now right.
Qed.

End Entries.

(** C3. Take any [info] block of a document, with the state the loop has
    built from the blocks before it.  A block whose [expires] cannot be
    parsed, formatted and parsed again stops the loop with that error.
    Otherwise, when its re-parsed [expires] is after the processing time,
    or the identifier of the document is not in the seen-list of that
    state, the block is recorded: it returns exactly when it has what
    recording reads, and then the seen-list has grown by the last
    reference, every area of the block has its key in the mapping of the
    language of the block, there and in the mappings the loop ends with,
    and the other mapping is as it was.  When its re-parsed [expires] is
    not after the processing time and the identifier is in the seen-list,
    the block is passed over: the state stays as it was and the loop goes
    on from it.  In a loop that returns, every block was judged this way,
    and every key of a mapping comes from an area of a block of that
    language that passed the test. *)
Theorem info_blocks_filtered (now : datetime) (identifier_ : option string)
  (lastref url_ : string) (root : element) :
  (forall pre g post before,
      iter root (cap_tag "info") = pre ++ g :: post ->
      pass now identifier_ lastref url_ pre no_alerts = Ok before ->
      (forall x,
          reparsed_expires g = Raise x ->
          collect now identifier_ lastref url_ root = Raise x)
      /\ forall e,
           reparsed_expires g = Ok e ->
           if datetime_gt e now || not_seen identifier_ (list_id before)
           then
             (recordable g <->
              exists after,
                info_block now identifier_ lastref url_ before g = Ok after)
             /\ forall after,
                  info_block now identifier_ lastref url_ before g = Ok after ->
                  collect now identifier_ lastref url_ root
                  = pass now identifier_ lastref url_ post after
                  /\ list_id after = list_id before ++ [lastref]
                  /\ (if is_french g
                      then english_alert after = english_alert before
                      else french_alert after = french_alert before)
                  /\ forall i, In i (areas_of g) ->
                       exists tag,
                         polygon_of i = Some tag
                         /\ has_key (is_french g) after (area_key tag) = true
                         /\ forall st,
                              collect now identifier_ lastref url_ root = Ok st ->
                              has_key (is_french g) st (area_key tag) = true
           else
             info_block now identifier_ lastref url_ before g = Ok before
             /\ collect now identifier_ lastref url_ root
                = pass now identifier_ lastref url_ post before)
  /\ (forall st,
        collect now identifier_ lastref url_ root = Ok st ->
        (forall pre g post,
            iter root (cap_tag "info") = pre ++ g :: post ->
            exists before e,
              pass now identifier_ lastref url_ pre no_alerts = Ok before
              /\ reparsed_expires g = Ok e)
        /\ forall french k,
             has_key french st k = true ->
             exists pre g post before e i tag,
               iter root (cap_tag "info") = pre ++ g :: post
               /\ pass now identifier_ lastref url_ pre no_alerts = Ok before
               /\ reparsed_expires g = Ok e
               /\ datetime_gt e now || not_seen identifier_ (list_id before)
                  = true
               /\ is_french g = french
               /\ In i (areas_of g) /\ polygon_of i = Some tag
               /\ k = area_key tag).
Proof.
  split.
  - intros pre g post before S B.
    assert (W : collect now identifier_ lastref url_ root
                = bind (info_block now identifier_ lastref url_ before g)
                       (pass now identifier_ lastref url_ post)).
    { unfold collect. rewrite S. now apply pass_split. }
    split.
    + intros x R. rewrite W, (info_block_raises _ _ _ _ _ _ _ R). reflexivity.
    + intros e R.
      destruct (datetime_gt e now || not_seen identifier_ (list_id before))
        eqn:C.
      * split; [now apply info_block_returns with e|].
        intros after H.
        split; [rewrite W, H; reflexivity|].
        destruct (info_block_ok _ _ _ _ _ _ _ H) as (e' & R' & K).
        rewrite R in R'. injection R' as <-. rewrite C in K.
        destruct K as (L & K). split; [exact L|].
        rewrite W, H. cbn [bind]. unfold has_key.
        destruct (is_french g); destruct K as (Q & F & G);
          (split; [exact Q|]); intros i I; rewrite Forall_forall in F;
          destruct (F i I) as ([k v] & Hx).
        -- destruct (french_entry_key _ _ _ Hx) as (tag & P & Ek).
           exists tag. split; [exact P|]. cbn [fst] in Ek. subst k.
           assert (A : contains (french_alert after) (area_key tag) = true).
           { eapply contains_entry; [exact G|].
             eapply in_successes; eauto. }
           split; [exact A|]. intros st T.
           eapply contains_kept; [|exact A].
           intros k. exact (proj2 (collect_get _ _ _ _ _ _ _ T k)).
        -- destruct (english_entry_key _ _ _ _ Hx) as (tag & P & Ek).
           exists tag. split; [exact P|]. cbn [fst] in Ek. subst k.
           assert (A : contains (english_alert after) (area_key tag) = true).
           { eapply contains_entry; [exact G|].
             eapply in_successes; eauto. }
           split; [exact A|]. intros st T.
           eapply contains_kept; [|exact A].
           intros k. exact (proj1 (collect_get _ _ _ _ _ _ _ T k)).
      * assert (H := info_block_skip now identifier_ lastref url_ before g e R C).
        split; [exact H|]. now rewrite W, H.
  - intros st T. split.
    + intros pre g post S. unfold collect in T. rewrite S in T.
      apply pass_split_inv in T.
      destruct T as (before & after & B & H & _).
      destruct (info_block_ok _ _ _ _ _ _ _ H) as (e & R & _).
      now exists before, e.
    + intros french k K.
      assert (G := collect_get _ _ _ _ _ _ _ T k).
      cbn [english_alert french_alert no_alerts list_id app] in G.
      destruct G as (GE & GF).
      unfold has_key, contains in K. destruct french.
      * destruct (get (french_alert st) k) as [v|] eqn:Gv; [|discriminate].
        symmetry in GF. apply get_in in GF.
        destruct (occurrences_split _ _ _ _ _ _ _ _ _ _ T GF)
          as (pre & g & post & before & i & S & B & Q & Fr & Ii & Ei).
        destruct (french_entry_key _ _ _ Ei) as (tag & P & Ek).
        unfold eligible in Q.
        destruct (reparsed_expires g) as [e|] eqn:R; [|discriminate].
        exists pre, g, post, before, e, i, tag. repeat split; assumption.
      * destruct (get (english_alert st) k) as [v|] eqn:Gv; [|discriminate].
        symmetry in GE. apply get_in in GE.
        destruct (occurrences_split _ _ _ _ _ _ _ _ _ _ T GE)
          as (pre & g & post & before & i & S & B & Q & Fr & Ii & Ei).
        destruct (english_entry_key _ _ _ _ Ei) as (tag & P & Ek).
        unfold eligible in Q.
        destruct (reparsed_expires g) as [e|] eqn:R; [|discriminate].
        exists pre, g, post, before, e, i, tag. repeat split; assumption.
Qed.

(** In the document [Sample.self_referring] the first block is recorded,
    the seen-list being empty; the second, expired and met with the
    identifier in the seen-list, is passed over and its area has no key in
    the mappings the loop ends with; the third is recorded for its
    [expires] alone.  In [Sample.repeated], whose identifier is never in
    the seen-list, the expired second block is recorded. *)
Lemma info_blocks_filtered_witness :
  (exists after st,
      info_block Sample.now (Some Sample.own_identifier)
        Sample.own_identifier Sample.published
        no_alerts Sample.first_block = Ok after
      /\ list_id after = [Sample.own_identifier]
      /\ has_key false after (area_key Sample.triangle) = true
      /\ collect Sample.now (Some Sample.own_identifier)
           Sample.own_identifier Sample.published
           Sample.self_referring = Ok st
      /\ has_key false st (area_key Sample.triangle) = true
      /\ has_key false st (area_key Sample.square) = false)
  /\ (exists before,
        pass Sample.now (Some Sample.own_identifier)
          Sample.own_identifier Sample.published
          [Sample.first_block] no_alerts = Ok before
        /\ not_seen (Some Sample.own_identifier) (list_id before) = false
        /\ info_block Sample.now (Some Sample.own_identifier)
             Sample.own_identifier Sample.published
             before Sample.late_block = Ok before)
  /\ (exists before after,
        pass Sample.now (Some Sample.own_identifier)
          Sample.own_identifier Sample.published
          [Sample.first_block; Sample.late_block] no_alerts = Ok before
        /\ not_seen (Some Sample.own_identifier) (list_id before) = false
        /\ info_block Sample.now (Some Sample.own_identifier)
             Sample.own_identifier Sample.published
             before Sample.french_block = Ok after
        /\ has_key true before (area_key Sample.triangle) = false
        /\ has_key true after (area_key Sample.triangle) = true)
  /\ (exists before after,
        pass Sample.now (Some Sample.own_identifier)
          Sample.earlier_identifier Sample.published
          [Sample.first_block] no_alerts = Ok before
        /\ datetime_gt (mk_datetime 2020 5 31 12 0 0 0) Sample.now = false
        /\ info_block Sample.now (Some Sample.own_identifier)
             Sample.earlier_identifier Sample.published
             before Sample.ended_block = Ok after
        /\ list_id after = list_id before ++ [Sample.earlier_identifier]).
Proof.
  pose proof (proj1 (info_blocks_filtered Sample.now
                       (Some Sample.own_identifier) Sample.own_identifier
                       Sample.published Sample.self_referring)) as T.
  pose proof (proj1 (info_blocks_filtered Sample.now
                       (Some Sample.own_identifier) Sample.earlier_identifier
                       Sample.published Sample.repeated)) as T'.
  assert (S1 : iter Sample.self_referring (cap_tag "info")
               = [] ++ Sample.first_block
                 :: [Sample.late_block; Sample.french_block])
    by (vm_compute; reflexivity).
  assert (S2 : iter Sample.self_referring (cap_tag "info")
               = [Sample.first_block] ++ Sample.late_block
                 :: [Sample.french_block])
    by (vm_compute; reflexivity).
  assert (S3 : iter Sample.self_referring (cap_tag "info")
               = [Sample.first_block; Sample.late_block]
                 ++ Sample.french_block :: [])
    by (vm_compute; reflexivity).
  assert (S4 : iter Sample.repeated (cap_tag "info")
               = [Sample.first_block] ++ Sample.ended_block
                 :: [Sample.french_block])
    by (vm_compute; reflexivity).
  assert (R1 : reparsed_expires Sample.first_block
               = Ok Sample.tomorrow_instant) by (vm_compute; reflexivity).
  assert (R2 : reparsed_expires Sample.late_block
               = Ok (mk_datetime 2020 5 31 12 0 0 0))
    by (vm_compute; reflexivity).
  assert (R3 : reparsed_expires Sample.french_block
               = Ok Sample.tomorrow_instant) by (vm_compute; reflexivity).
  assert (R4 : reparsed_expires Sample.ended_block
               = Ok (mk_datetime 2020 5 31 12 0 0 0))
    by (vm_compute; reflexivity).
  split; [|split; [|split]].
  - pose proof (proj2 (T _ _ _ _ S1 eq_refl) _ R1) as K.
    replace (datetime_gt Sample.tomorrow_instant Sample.now
             || not_seen (Some Sample.own_identifier) (list_id no_alerts))
      with true in K by (vm_compute; reflexivity).
    destruct K as (Rt & K).
    assert (Rc : recordable Sample.first_block).
    { split; [discriminate|]. split.
      - intros _. eexists. vm_compute. reflexivity.
      - repeat constructor; discriminate. }
    destruct (proj1 Rt Rc) as (after & H).
    destruct (K after H) as (W & L & _ & A).
    destruct (A (Sample.area_elem Sample.triangle "Ottawa North"))
      as (tag & P & At & Fin).
    { vm_compute. now left. }
    assert (Tg : tag = Sample.triangle).
    { assert (P' : polygon_of (Sample.area_elem Sample.triangle "Ottawa North")
                   = Some Sample.triangle) by (vm_compute; reflexivity).
      rewrite P' in P. now injection P as <-. }
    subst tag.
    assert (Es : exists st,
      collect Sample.now (Some Sample.own_identifier) Sample.own_identifier
        Sample.published Sample.self_referring = Ok st
      /\ has_key false st (area_key Sample.square) = false).
    { eexists. split; vm_compute; reflexivity. }
    destruct Es as (st & C & Sq).
    exists after, st.
    split; [exact H|]. split; [exact L|]. split; [exact At|].
    split; [exact C|]. split; [exact (Fin st C) | exact Sq].
  - assert (Eb : exists before,
      pass Sample.now (Some Sample.own_identifier) Sample.own_identifier
        Sample.published [Sample.first_block] no_alerts = Ok before
      /\ not_seen (Some Sample.own_identifier) (list_id before) = false).
    { eexists. split; vm_compute; reflexivity. }
    destruct Eb as (before & B & N).
    exists before. split; [exact B|]. split; [exact N|].
    pose proof (proj2 (T _ _ _ _ S2 B) _ R2) as K.
    rewrite N in K.
    replace (datetime_gt (mk_datetime 2020 5 31 12 0 0 0) Sample.now)
      with false in K by (vm_compute; reflexivity).
    exact (proj1 K).
  - assert (Eb : exists before,
      pass Sample.now (Some Sample.own_identifier) Sample.own_identifier
        Sample.published [Sample.first_block; Sample.late_block] no_alerts
      = Ok before
      /\ not_seen (Some Sample.own_identifier) (list_id before) = false
      /\ has_key true before (area_key Sample.triangle) = false).
    { eexists. split; [|split]; vm_compute; reflexivity. }
    destruct Eb as (before & B & N & Hb).
    pose proof (proj2 (T _ _ _ _ S3 B) _ R3) as K.
    rewrite N in K.
    replace (datetime_gt Sample.tomorrow_instant Sample.now)
      with true in K by (vm_compute; reflexivity).
    cbn [orb] in K. destruct K as (Rt & K).
    assert (Rc : recordable Sample.french_block).
    { split; [discriminate|]. split.
      - intros Fr. vm_compute in Fr. discriminate Fr.
      - repeat constructor; discriminate. }
    destruct (proj1 Rt Rc) as (after & H).
    destruct (K after H) as (_ & _ & _ & A).
    destruct (A (Sample.area_elem Sample.triangle "Ottawa Nord"))
      as (tag & P & At & _).
    { vm_compute. now left. }
    assert (Tg : tag = Sample.triangle).
    { assert (P' : polygon_of (Sample.area_elem Sample.triangle "Ottawa Nord")
                   = Some Sample.triangle) by (vm_compute; reflexivity).
      rewrite P' in P. now injection P as <-. }
    subst tag.
    assert (Fr : is_french Sample.french_block = true)
      by (vm_compute; reflexivity).
    rewrite Fr in At.
    exists before, after.
    split; [exact B|]. split; [exact N|]. split; [exact H|].
    split; [exact Hb | exact At].
  - assert (Eb : exists before,
      pass Sample.now (Some Sample.own_identifier) Sample.earlier_identifier
        Sample.published [Sample.first_block] no_alerts = Ok before
      /\ not_seen (Some Sample.own_identifier) (list_id before) = true).
    { eexists. split; vm_compute; reflexivity. }
    destruct Eb as (before & B & N).
    pose proof (proj2 (T' _ _ _ _ S4 B) _ R4) as K.
    rewrite N in K.
    assert (D : datetime_gt (mk_datetime 2020 5 31 12 0 0 0) Sample.now
                = false) by (vm_compute; reflexivity).
    rewrite D in K. cbn [orb] in K. destruct K as (Rt & K).
    assert (Rc : recordable Sample.ended_block).
    { split; [discriminate|]. split.
      - intros _. eexists. vm_compute. reflexivity.
      - repeat constructor; discriminate. }
    destruct (proj1 Rt Rc) as (after & H).
    destruct (K after H) as (_ & L & _).
    exists before, after.
    split; [exact B|]. split; [exact D|]. split; [exact H | exact L].
Defined.

(** C6. After the pass over the [info] blocks of a document, each mapping
    holds under every key the tuple of the first eligible (info, area)
    occurrence of that key in its language, in document order, and
    nothing under a key that has no such occurrence; and an area whose key
    is already in the mapping of its language leaves that mapping as it
    is. *)
Theorem first_occurrence_wins (now : datetime) (identifier_ : option string)
  (lastref url_ : string) (root : element) :
  (forall st k,
      collect now identifier_ lastref url_ root = Ok st ->
      get (english_alert st) k =
      first_occurrence k
        (occurrences false (english_entry url_) now identifier_ lastref []
           (iter root (cap_tag "info")))
      /\ get (french_alert st) k =
         first_occurrence k
           (occurrences true french_entry now identifier_ lastref []
              (iter root (cap_tag "info"))))
  /\ (forall (en : dict english_tuple) i tag hl eff exp_ w sa ds,
        polygon_of i = Some tag ->
        contains en (area_key tag) = true ->
        english_area hl eff exp_ w sa ds url_ en i = Ok en)
  /\ (forall (fr : dict french_tuple) i tag hl ds,
        polygon_of i = Some tag ->
        contains fr (area_key tag) = true ->
        french_area hl ds fr i = Ok fr).
Proof.
  split; [|split].
  - intros st k H. unfold collect in H.
    destruct (collect_get _ _ _ _ _ _ _ H k) as (GE & GF).
    cbn [english_alert french_alert no_alerts list_id app] in GE, GF.
    now rewrite GE, GF, <- !get_first_occurrence.
  - intros en i tag hl eff exp_ w sa ds P C.
    rewrite english_area_step. now apply area_step_present with tag.
  - intros fr i tag hl ds P C.
    rewrite french_area_step. now apply area_step_present with tag.
Qed.

Lemma first_occurrence_wins_witness :
  exists st,
    collect Sample.now (Some "urn:oid:2.49.0.1.124.1"%string)
      "urn:oid:2.49.0.1.124.0" "https://dd.weather.gc.ca/w.cap"
      Sample.repeated = Ok st
    /\ option_map en_headline
         (get (english_alert st) (area_key Sample.triangle))
       = Some (Some "snowfall warning in effect"%string).
Proof.
  eexists. split; [vm_compute; reflexivity|].
  match goal with
  | |- context [english_alert ?s] =>
      assert (H : collect Sample.now (Some "urn:oid:2.49.0.1.124.1"%string)
                    "urn:oid:2.49.0.1.124.0" "https://dd.weather.gc.ca/w.cap"
                    Sample.repeated = Ok s)
        by (vm_compute; reflexivity);
      rewrite (proj1 (proj1 (first_occurrence_wins _ _ _ _ _)
                        s (area_key Sample.triangle) H))
  end.
  vm_compute. reflexivity.
Defined.

(* ================================================================= *)
(** ** The expiry filter and the assembler *)

Section Emission.

Lemma Forall2_in_right {X Y : Type} (R : X -> Y -> Prop)
  (l1 : list X) (l2 : list Y) (y : Y) :
  Forall2 R l1 l2 -> In y l2 -> exists x, In x l1 /\ R x y.
Proof.
  induction 1 as [|a b l1 l2 Rab F IH]; intros I; [contradiction|].
  destruct I as [<-|I].
  - exists a. split; [now left | exact Rab].
  - destruct (IH I) as (x & Ix & Rx). exists x. split; [now right | exact Rx].
Qed.

(** The stages of a call that returns. *)
Lemma weather_warning2geojson_ok (base : string)
  (parse : string -> option element) (now : datetime) (path : string)
  (data : list feature) :
  weather_warning2geojson base parse now path = Ok data ->
  exists root references lastref st remove en fr,
    parse path = Some root
    /\ _get_element root [cap "references"] None = Some references
    /\ last_item (split_at (Ascii.eqb ",") references) = Ok lastref
    /\ collect now (_get_element root [cap "identifier"] None) lastref
         (replace (base ++ "/amqp/")%string ""
            ("https://dd.weather.gc.ca/" ++ path)%string) root = Ok st
    /\ expired_keys now (english_alert st) = Ok remove
    /\ remove_keys remove (english_alert st) (french_alert st) = Ok (en, fr)
    /\ assemble (_get_element root [cap "identifier"] None) en fr = Ok data.
Proof.
  unfold weather_warning2geojson. intros H.
  destruct (parse path) as [root|]; [|discriminate].
  destruct (_get_element root [cap "references"] None) as [references|] eqn:R;
    [|discriminate].
  bind_inv H. bind_inv H. bind_inv H. bind_inv H.
  destruct x2 as [en fr]. cbn [fst snd] in H.
  exists root, references, x, x0, x1, en, fr. repeat split; assumption.
Qed.

End Emission.

(** C4. Every feature [weather_warning2geojson] returns carries an
    [expires] that the date normalizer parses to an instant not before the
    processing time of the call; and every key the expiry filter lists
    for removal is gone from both the English and the French mapping when
    the filter returns. *)
Theorem no_expired_feature (now : datetime) :
  (forall base parse path data,
      weather_warning2geojson base parse now path = Ok data ->
      forall f, In f data ->
        exists d,
          _get_date_format (Some (expires (feature_properties f))) = Ok d
          /\ datetime_ge d now = true)
  /\ (forall en fr remove en' fr',
        expired_keys now en = Ok remove ->
        remove_keys remove en fr = Ok (en', fr') ->
        forall k, In k remove ->
          contains en' k = false /\ contains fr' k = false).
Proof.
  split.
  - intros base parse path data H f I.
    destruct (weather_warning2geojson_ok _ _ _ _ _ H)
      as (root & refs & lastref & st & remove & en & fr
          & _ & _ & _ & _ & X & Rm & A).
    apply remove_keys_ok in Rm. destruct Rm as (-> & ->).
    apply assemble_ok in A. destruct A as (_ & F).
    destruct (Forall2_in_right _ _ _ _ F I) as (k & _ & L).
    destruct (alert_location_ok _ _ _ _ _ L)
      as (e & t & poly & r & Ge & _ & _ & _ & ->).
    cbn [feature_properties expires].
    apply get_filter_kept in Ge. destruct Ge as (Ge & N).
    destruct (proj2 (expired_keys_ok _ _ _ X) _ _ Ge) as (d & P & Lt).
    exists d. split; [exact P|].
    rewrite datetime_lt_ge.
    destruct (datetime_lt d now); [|reflexivity].
    exfalso. now apply N, Lt.
  - intros en fr remove en' fr' _ Rm k I.
    apply remove_keys_ok in Rm. destruct Rm as (-> & ->).
    split; now apply contains_filter_kept.
Qed.

Lemma no_expired_feature_witness :
  exists data,
    weather_warning2geojson Sample.basepath
      (Sample.read (Sample.bilingual Sample.triangle Sample.tomorrow))
      Sample.now Sample.filepath = Ok data
    /\ data <> []
    /\ forall f, In f data ->
         exists d,
           _get_date_format (Some (expires (feature_properties f))) = Ok d
           /\ datetime_ge d Sample.now = true.
Proof.
  eexists. split; [vm_compute; reflexivity|]. split; [discriminate|].
  apply (proj1 (no_expired_feature Sample.now) Sample.basepath
           (Sample.read (Sample.bilingual Sample.triangle Sample.tomorrow))
           Sample.filepath).
  vm_compute. reflexivity.
Defined.

(* ================================================================= *)
(** ** Scenarios *)

Section Scenarios.

Lemma lex_opp (c1 c2 : comparison) :
  lex (CompOpp c1) (CompOpp c2) = CompOpp (lex c1 c2).
Proof. now destruct c1. Qed.

Lemma datetime_compare_antisym (a b : datetime) :
  datetime_compare b a = CompOpp (datetime_compare a b).
Proof.
  unfold datetime_compare.
  rewrite (Nat.compare_antisym (year a)), (Nat.compare_antisym (month a)),
    (Nat.compare_antisym (day a)), (Nat.compare_antisym (hour a)),
    (Nat.compare_antisym (minute a)), (Nat.compare_antisym (second a)),
    (Nat.compare_antisym (microsecond a)).
  now rewrite !lex_opp.
Qed.

Lemma datetime_lt_gt (a b : datetime) :
  datetime_lt a b = true ->
  datetime_gt b a = true /\ datetime_lt b a = false.
Proof.
  unfold datetime_lt, datetime_gt. rewrite (datetime_compare_antisym a b).
  now destruct (datetime_compare a b).
Qed.

(** Nothing is listed for removal when no stored [expires] lies before
    [now]. *)
Lemma expired_keys_none (now : datetime) (en : dict english_tuple) :
  Forall (fun kv =>
            exists d, _get_date_format (Some (en_expires (snd kv))) = Ok d
                      /\ datetime_lt d now = false) en ->
  expired_keys now en = Ok [].
Proof.
  intros F. unfold expired_keys.
  assert (G : forall ks, incl ks (keys en) ->
    for_each
      (fun r j =>
         t <- lookup en j ;;
         d <- _get_date_format (Some (en_expires t)) ;;
         Ok (if datetime_lt d now then r ++ [j] else r)) ks [] = Ok []).
  { induction ks as [|k ks IH]; intros I; cbn [for_each]; [reflexivity|].
    destruct (keys_get en k) as (t & Gt); [apply I; now left|].
    unfold lookup. rewrite Gt. cbn [bind].
    rewrite Forall_forall in F.
    destruct (F (k, t) (get_in _ _ _ Gt)) as (d & P & L).
    cbn [snd] in P. rewrite P. cbn [bind]. rewrite L.
    apply IH. intros j Ij. apply I. now right. }
  apply G, incl_refl.
Qed.

End Scenarios.

Ltac run t :=
  let v := eval vm_compute in t in
  replace t with v by (vm_compute; reflexivity).

(** C2, as the code has it.  The document with one English [info] block
    for the polygon ["45.0,-75.0 45.1,-75.0 45.1,-75.1"] and a French
    block for the same area, both to expire after the processing time,
    yields exactly one feature; its ring lists the pairs last first,
    longitude before latitude, and closes with the last of these points:
    [[-75.1, 45.1, 0.0], [-75.0, 45.1, 0.0], [-75.0, 45.0, 0.0],
    [-75.0, 45.0, 0.0]]; its [headline] and [titre] come from the English
    and the French block. *)
Theorem scenario_ring (now : datetime) :
  datetime_lt now Sample.tomorrow_instant = true ->
  exists f,
    weather_warning2geojson Sample.basepath
      (Sample.read (Sample.bilingual Sample.triangle Sample.tomorrow))
      now Sample.filepath = Ok [f]
    /\ coordinates (feature_geometry f) =
       [[[lit "-75.1"; lit "45.1"; lit "0.0"];
         [lit "-75.0"; lit "45.1"; lit "0.0"];
         [lit "-75.0"; lit "45.0"; lit "0.0"];
         [lit "-75.0"; lit "45.0"; lit "0.0"]]]
    /\ headline (feature_properties f) = Some "snowfall warning in effect"%string
    /\ titre (feature_properties f)
       = Some "avertissement de neige en vigueur"%string.
Proof.
  intros H. destruct (datetime_lt_gt _ _ H) as (G & L).
  unfold weather_warning2geojson, Sample.read, collect.
  set (root := Sample.bilingual Sample.triangle Sample.tomorrow).
  run (_get_element root [cap "references"] None).
  run (_get_element root [cap "identifier"] None).
  run (last_item (split_at (Ascii.eqb ",") "cap-pac@canada.ca,urn:oid:2.49.0.1.124.0")).
  run (iter root (cap_tag "info")).
  cbn [bind for_each].
  rewrite (info_block_run now _ _ _ no_alerts _
             Sample.tomorrow_instant Sample.tomorrow_instant);
    [ | vm_compute; reflexivity | vm_compute; reflexivity
      | rewrite G; reflexivity ].
  match goal with
  | |- context [record_info ?a ?b ?c ?d ?e ?g] => run (record_info a b c d e g)
  end.
  cbn [bind].
  rewrite (info_block_run now _ _ _ _ _
             Sample.tomorrow_instant Sample.tomorrow_instant);
    [ | vm_compute; reflexivity | vm_compute; reflexivity
      | rewrite G; reflexivity ].
  match goal with
  | |- context [record_info ?a ?b ?c ?d ?e ?g] => run (record_info a b c d e g)
  end.
  cbn [bind english_alert french_alert].
  rewrite expired_keys_none.
  2:{ repeat constructor. exists Sample.tomorrow_instant.
      split; [vm_compute; reflexivity | exact L]. }
  cbn [bind remove_keys for_each fst snd].
  match goal with
  | |- context [assemble ?a ?b ?c] => run (assemble a b c)
  end.
  eexists. split; [reflexivity|].
  vm_compute. repeat split.
Qed.

Lemma scenario_ring_witness :
  datetime_lt Sample.now Sample.tomorrow_instant = true
  /\ exists f,
       weather_warning2geojson Sample.basepath
         (Sample.read (Sample.bilingual Sample.triangle Sample.tomorrow))
         Sample.now Sample.filepath = Ok [f]
       /\ coordinates (feature_geometry f) =
          [[[lit "-75.1"; lit "45.1"; lit "0.0"];
            [lit "-75.0"; lit "45.1"; lit "0.0"];
            [lit "-75.0"; lit "45.0"; lit "0.0"];
            [lit "-75.0"; lit "45.0"; lit "0.0"]]]
       /\ headline (feature_properties f)
          = Some "snowfall warning in effect"%string
       /\ titre (feature_properties f)
          = Some "avertissement de neige en vigueur"%string.
Proof.
  split; [reflexivity|].
  apply (scenario_ring Sample.now). reflexivity.
Defined.

(** The ring the scenario is said to yield is not the ring of the feature
    it yields. *)
Lemma scenario_ring_counterexample :
  ~ exists f,
      weather_warning2geojson Sample.basepath
        (Sample.read (Sample.bilingual Sample.triangle Sample.tomorrow))
        Sample.now Sample.filepath = Ok [f]
      /\ rings_eqb (coordinates (feature_geometry f))
           [[[lit "-75.0"; lit "45.1"; lit "0.0"];
             [lit "-75.0"; lit "45.0"; lit "0.0"];
             [lit "-75.1"; lit "45.1"; lit "0.0"];
             [lit "-75.0"; lit "45.0"; lit "0.0"]]] = true.
Proof.
  intros (f & E & R). vm_compute in E. injection E as <-.
  vm_compute in R. discriminate.
Qed.

(** C1 (the code departs from it).  When the two mappings differ in size
    after the expiry filter, the block that binds [data] is not entered
    and [return data] raises [UnboundLocalError] instead of returning an
    empty sequence; so does the call on a document with an English block
    and no French one. *)
Theorem unequal_sizes_raise :
  (forall identifier_ (en : dict english_tuple) (fr : dict french_tuple),
      List.length fr <> List.length en ->
      assemble identifier_ en fr = Raise UnboundLocalError)
  /\ weather_warning2geojson Sample.basepath
       (Sample.read Sample.english_only) Sample.now Sample.filepath
     = Raise UnboundLocalError.
Proof.
  split; [exact assemble_unequal|]. vm_compute. reflexivity.
Qed.

(** C5 (the code departs from it).  For an English record of at most one
    token the pair loop appends nothing, and the closing point [poly[-1]]
    of the empty list raises [IndexError]: no feature is assembled for the
    record; so the call raises on a bilingual document whose polygon is
    the single token ["45.0"]. *)
Theorem short_polygon_raises :
  (forall identifier_ (en : dict english_tuple) (fr : dict french_tuple)
          (k : string) (e : english_tuple),
      get en k = Some e -> List.length (en_split_tag e) <= 1 ->
      alert_location identifier_ en fr k = Raise IndexError)
  /\ weather_warning2geojson Sample.basepath
       (Sample.read (Sample.bilingual Sample.single_token Sample.tomorrow))
       Sample.now Sample.filepath
     = Raise IndexError.
Proof.
  split; [exact alert_location_short|]. vm_compute. reflexivity.
Qed.

(* ================================================================= *)
(** ** Where the stored tuples come from *)

Section Provenance.

(** An occurrence in the list is the entry of an area of an [info]
    element of its language. *)
Lemma occurrences_in {V : Type} (french : bool)
  (entry : element -> element -> result (string * V))
  (now : datetime) (identifier_ : option string) (lastref : string)
  (infos : list element) (seen : list string) (kv : string * V) :
  In kv (occurrences french entry now identifier_ lastref seen infos) ->
  exists g i,
    In g infos /\ In i (areas_of g) /\ entry g i = Ok kv
    /\ is_french g = french.
Proof.
  revert seen; induction infos as [|g infos IH]; intros seen;
    cbn [occurrences]; [contradiction|].
  destruct (eligible now identifier_ seen g).
  - intros I. apply in_app_or in I. destruct I as [I|I].
    + destruct (Bool.eqb (is_french g) french) eqn:E; [|contradiction].
      apply in_successes_inv in I. destruct I as (i & Ii & Ei).
      exists g, i. repeat split; auto; [now left|].
      now apply Bool.eqb_prop.
    + destruct (IH _ I) as (g' & i & Ig & R). exists g', i.
      split; [now right | exact R].
  - intros I. destruct (IH _ I) as (g' & i & Ig & R). exists g', i.
    split; [now right | exact R].
Qed.

Variables (now : datetime) (identifier_ : option string)
  (lastref url_ : string) (root : element).

(** Every English tuple of the pass is the entry of an area of an
    English [info] element of the document. *)
Lemma collect_english (st : alerts) (k : string) (e : english_tuple) :
  collect now identifier_ lastref url_ root = Ok st ->
  get (english_alert st) k = Some e ->
  exists g i,
    In g (iter root (cap_tag "info")) /\ In i (areas_of g)
    /\ english_entry url_ g i = Ok (k, e) /\ is_french g = false.
Proof.
  unfold collect. intros H G.
  destruct (collect_get _ _ _ _ _ _ _ H k) as (GE & _).
  cbn [english_alert no_alerts list_id app] in GE.
  rewrite G in GE. symmetry in GE. apply get_in in GE.
  now apply occurrences_in in GE.
Qed.

Lemma collect_french (st : alerts) (k : string) (t : french_tuple) :
  collect now identifier_ lastref url_ root = Ok st ->
  get (french_alert st) k = Some t ->
  exists g i,
    In g (iter root (cap_tag "info")) /\ In i (areas_of g)
    /\ french_entry g i = Ok (k, t) /\ is_french g = true.
Proof.
  unfold collect. intros H G.
  destruct (collect_get _ _ _ _ _ _ _ H k) as (_ & GF).
  cbn [french_alert no_alerts list_id app] in GF.
  rewrite G in GF. symmetry in GF. apply get_in in GF.
  now apply occurrences_in in GF.
Qed.

End Provenance.

(** What an English entry holds. *)
Lemma english_entry_fields (url_ : string) (g i : element) (k : string)
  (e : english_tuple) :
  english_entry url_ g i = Ok (k, e) ->
  exists tag d f,
    polygon_of i = Some tag /\ k = area_key tag
    /\ _get_date_format (_get_element g [cap "expires"] None) = Ok d
    /\ _get_date_format (_get_element g [cap "effective"] None) = Ok f
    /\ en_id_warning e = k
    /\ en_split_tag e = split_at blank_or_comma tag
    /\ en_expires e = timeformat d /\ en_effective e = timeformat f
    /\ en_url e = url_
    /\ en_status_alert e
       = _get_element g (parameter_value (FromLast 4)) None
    /\ en_warning e = _get_element g (parameter_value (Position 1)) None.
Proof.
  unfold english_entry. intros H. bind_inv H. bind_inv H. bind_inv H.
  destruct (polygon_of i) as [tag|]; [|discriminate].
  injection H as <- <-. exists tag, x, x1. cbn. repeat split; auto.
Qed.

Lemma french_entry_fields (g i : element) (k : string) (t : french_tuple) :
  french_entry g i = Ok (k, t) ->
  exists tag, polygon_of i = Some tag /\ k = area_key tag /\ fr_id_warning t = k.
Proof.
  unfold french_entry. intros H. bind_inv H.
  destruct (polygon_of i) as [tag|]; [|discriminate].
  injection H as <- <-. now exists tag.
Qed.

(* ================================================================= *)
(** ** Keys stay distinct *)

Section DistinctKeys.

Lemma contains_keys {V : Type} (d : dict V) (k : string) :
  contains d k = false -> ~ In k (keys d).
Proof.
  unfold contains. intros C I. apply keys_get in I. destruct I as (v & G).
  now rewrite G in C.
Qed.

Lemma keys_app {V : Type} (d1 d2 : dict V) : keys (d1 ++ d2) = keys d1 ++ keys d2.
Proof. unfold keys. apply map_app. Qed.

Lemma area_step_nodup {V : Type} (mk : string -> element -> V)
  (d d' : dict V) (i : element) :
  area_step mk d i = Ok d' -> NoDup (keys d) -> NoDup (keys d').
Proof.
  unfold area_step. destruct (polygon_of i) as [tag|]; [|discriminate].
  generalize (mk tag i), (area_key tag). intros v key.
  destruct (contains d key) eqn:C; cbn [negb]; intros [= <-] N; [exact N|].
  rewrite setitem_absent, keys_app by exact C. cbn [keys map fst].
  apply NoDup_app; [exact N | repeat constructor; intros [] |].
  intros x Ix [<-|[]]. now apply (contains_keys _ _ C).
Qed.

Lemma area_loop_nodup {V : Type} (mk : string -> element -> V)
  (areas : list element) (d d' : dict V) :
  for_each (area_step mk) areas d = Ok d' -> NoDup (keys d) -> NoDup (keys d').
Proof.
  revert d; induction areas as [|i areas IH]; intros d; cbn [for_each].
  - now intros [= <-].
  - intros H N. bind_inv H. eapply IH; [exact H|].
    eapply area_step_nodup; eauto.
Qed.

Lemma info_block_nodup (now : datetime) (identifier_ : option string)
  (lastref url_ : string) (st st' : alerts) (g : element) :
  info_block now identifier_ lastref url_ st g = Ok st' ->
  NoDup (keys (english_alert st)) /\ NoDup (keys (french_alert st)) ->
  NoDup (keys (english_alert st')) /\ NoDup (keys (french_alert st')).
Proof.
  unfold info_block. intros H (NE & NF).
  bind_inv H. bind_inv H.
  destruct (datetime_gt x0 now || not_seen identifier_ (list_id st));
    [|injection H as <-; now split].
  unfold record_info in H.
  destruct (is_str (_get_element g [cap "language"] None) "fr-CA").
  - bind_inv H. bind_inv H. injection H as <-.
    cbn [english_alert french_alert]. split; [exact NE|].
    rewrite french_area_step in Hx2. eapply area_loop_nodup; eauto.
  - bind_inv H. bind_inv H. bind_inv H. injection H as <-.
    cbn [english_alert french_alert]. split; [|exact NF].
    rewrite english_area_step in Hx3. eapply area_loop_nodup; eauto.
Qed.

Lemma collect_nodup (now : datetime) (identifier_ : option string)
  (lastref url_ : string) (root : element) (st : alerts) :
  collect now identifier_ lastref url_ root = Ok st ->
  NoDup (keys (english_alert st)) /\ NoDup (keys (french_alert st)).
Proof.
  unfold collect.
  assert (G : forall infos s s',
    for_each (info_block now identifier_ lastref url_) infos s = Ok s' ->
    NoDup (keys (english_alert s)) /\ NoDup (keys (french_alert s)) ->
    NoDup (keys (english_alert s')) /\ NoDup (keys (french_alert s'))).
  { induction infos as [|g infos IH]; intros s s'; cbn [for_each].
    - now intros [= <-].
    - intros H N. bind_inv H. eapply IH; [exact H|].
      eapply info_block_nodup; eauto. }
  intros H. eapply G; [exact H|]. split; constructor.
Qed.

Lemma keys_filter_kept {V : Type} (remove : list string) (d : dict V) :
  keys (filter (kept remove) d)
  = filter (fun k => negb (mem String.eqb k remove)) (keys d).
Proof.
  unfold keys, kept. induction d as [|[k v] d IH]; cbn [filter map fst];
    [reflexivity|].
  destruct (negb (mem String.eqb k remove)); cbn [map fst]; now rewrite IH.
Qed.

End DistinctKeys.

(* ================================================================= *)
(** ** What a call that returns has emitted *)

Section Emitted.

Variables (base : string) (parse : string -> option element)
  (now : datetime) (path : string).

(** The features of a call that returns: one per key of the filtered
    English mapping, built from the tuples the pass stored. *)
Lemma emitted (data : list feature) :
  weather_warning2geojson base parse now path = Ok data ->
  exists root lastref st remove,
    parse path = Some root
    /\ collect now (_get_element root [cap "identifier"] None) lastref
         (published_url base path) root = Ok st
    /\ expired_keys now (english_alert st) = Ok remove
    /\ Forall2
         (fun k f =>
            exists e t poly r,
              get (english_alert st) k = Some e
              /\ get (french_alert st) k = Some t
              /\ pair_loop (en_split_tag e) = Ok poly /\ ring poly = Ok r
              /\ f = feature_of (_get_element root [cap "identifier"] None)
                       e t r)
         (keys (filter (kept remove) (english_alert st))) data.
Proof.
  intros H.
  destruct (weather_warning2geojson_ok _ _ _ _ _ H)
    as (root & refs & lastref & st & remove & en & fr
        & P & _ & _ & C & X & Rm & A).
  apply remove_keys_ok in Rm. destruct Rm as (-> & ->).
  apply assemble_ok in A. destruct A as (_ & F).
  exists root, lastref, st, remove. repeat split; try assumption.
  eapply Forall2_impl; [|exact F]. cbn beta.
  intros k f L.
  destruct (alert_location_ok _ _ _ _ _ L)
    as (e & t & poly & r & Ge & Gt & Pl & Rg & ->).
  apply get_filter_kept in Ge, Gt.
  exists e, t, poly, r. repeat split; tauto.
Qed.

End Emitted.

Section Identifiers.

Lemma length_take_le (n : nat) (s : string) : String.length (take n s) <= n.
Proof.
  revert s; induction n as [|n IH]; intros [|c s]; cbn; try lia.
  specialize (IH s). lia.
Qed.

Lemma area_key_shape (tag : string) :
  String.length (area_key tag) <= 27 /\ starts_with "a-" (area_key tag) = true.
Proof.
  unfold area_key. generalize (delete_class key_class tag). intros s.
  pose proof (length_take_le 25 s).
  split; [cbn [String.append String.length]; lia | reflexivity].
Qed.

Lemma Forall2_map_eq {X Y Z : Type} (R : X -> Y -> Prop) (h : Y -> Z)
  (u : X -> Z) (l1 : list X) (l2 : list Y) :
  Forall2 R l1 l2 -> (forall x y, R x y -> h y = u x) ->
  map h l2 = map u l1.
Proof.
  intros F E. induction F as [|x y l1 l2 Rxy F IH]; cbn; [reflexivity|].
  now rewrite IH, (E _ _ Rxy).
Qed.

End Identifiers.

(** X1. The features of a call that returns carry pairwise different
    identifiers, and each identifier is the area key of the polygon of an
    area of an English [info] element of the document: it starts with
    ["a-"] and has at most 27 characters. *)
Theorem emitted_identifiers (base : string)
  (parse : string -> option element) (now : datetime) (path : string)
  (data : list feature) :
  weather_warning2geojson base parse now path = Ok data ->
  NoDup (map feature_id data)
  /\ forall f, In f data ->
       String.length (feature_id f) <= 27
       /\ starts_with "a-" (feature_id f) = true
       /\ exists root g i tag,
            parse path = Some root
            /\ In g (iter root (cap_tag "info")) /\ is_french g = false
            /\ In i (areas_of g) /\ polygon_of i = Some tag
            /\ feature_id f = area_key tag.
Proof.
  intros H.
  destruct (emitted _ _ _ _ _ H) as (root & lastref & st & remove
                                     & P & C & _ & F).
  assert (K : forall k f,
    (exists e t poly r,
        get (english_alert st) k = Some e
        /\ get (french_alert st) k = Some t
        /\ pair_loop (en_split_tag e) = Ok poly /\ ring poly = Ok r
        /\ f = feature_of (_get_element root [cap "identifier"] None) e t r)
    -> exists g i tag,
         In g (iter root (cap_tag "info")) /\ is_french g = false
         /\ In i (areas_of g) /\ polygon_of i = Some tag
         /\ k = area_key tag /\ feature_id f = k).
  { intros k f (e & t & poly & r & Ge & _ & _ & _ & ->).
    destruct (collect_english _ _ _ _ _ _ _ _ C Ge) as (g & i & Ig & Ii & E & Fr).
    destruct (english_entry_fields _ _ _ _ _ E)
      as (tag & d & f' & Pg & -> & _ & _ & Id & _).
    exists g, i, tag. repeat split; auto. }
  split.
  - rewrite (Forall2_map_eq _ feature_id (fun k => k) _ _ F).
    + rewrite map_id, keys_filter_kept. apply NoDup_filter.
      apply (collect_nodup _ _ _ _ _ _ C).
    + intros k f R. destruct (K _ _ R) as (g & i & tag & _ & _ & _ & _ & _ & Q).
      exact Q.
  - intros f I.
    destruct (Forall2_in_right _ _ _ _ F I) as (k & _ & R).
    destruct (K _ _ R) as (g & i & tag & Ig & Fr & Ii & Pg & -> & Q).
    rewrite Q. destruct (area_key_shape tag) as (L & S).
    split; [exact L|]. split; [exact S|].
    exists root, g, i, tag. repeat split; auto.
Qed.

Lemma emitted_identifiers_witness :
  exists data,
    weather_warning2geojson Sample.basepath
      (Sample.read Sample.repeated) Sample.now Sample.filepath = Ok data
    /\ data <> []
    /\ NoDup (map feature_id data).
Proof.
  eexists. split; [vm_compute; reflexivity|]. split; [discriminate|].
  apply (emitted_identifiers Sample.basepath (Sample.read Sample.repeated)
           Sample.now Sample.filepath).
  vm_compute. reflexivity.
Defined.

Section Pairing.

Lemma english_entry_inv (url_ : string) (g i : element) (k : string)
  (e : english_tuple) :
  english_entry url_ g i = Ok (k, e) ->
  exists tag d f ds,
    polygon_of i = Some tag /\ k = area_key tag
    /\ _get_date_format (_get_element g [cap "expires"] None) = Ok d
    /\ _get_date_format (_get_element g [cap "effective"] None) = Ok f
    /\ clean_description (_get_element g [cap "description"] None) = Ok ds
    /\ e = mk_english (split_at blank_or_comma tag)
             (_get_element i [cap "areaDesc"] None)
             (_get_element g [cap "headline"] None)
             (timeformat f) (timeformat d)
             (_get_element g (parameter_value (Position 1)) None)
             (_get_element g (parameter_value (FromLast 4)) None)
             (area_key tag) ds url_.
Proof.
  unfold english_entry. intros H. bind_inv H. bind_inv H. bind_inv H.
  destruct (polygon_of i) as [tag|]; [|discriminate].
  injection H as <- <-. exists tag, x, x1, x0. repeat split; auto.
Qed.

Lemma french_entry_inv (g i : element) (k : string) (t : french_tuple) :
  french_entry g i = Ok (k, t) ->
  exists tag ds,
    polygon_of i = Some tag /\ k = area_key tag
    /\ clean_description (_get_element g [cap "description"] None) = Ok ds
    /\ t = mk_french (area_key tag) (_get_element i [cap "areaDesc"] None)
             (_get_element g [cap "headline"] None) ds.
Proof.
  unfold french_entry. intros H. bind_inv H.
  destruct (polygon_of i) as [tag|]; [|discriminate].
  injection H as <- <-. exists tag, x. repeat split; auto.
Qed.

End Pairing.

(** X2. Every feature of a call that returns pairs an area of an English
    [info] element with an area of a French one whose polygons have the
    same area key: [area], [headline], [alert_type] and [status] are read
    from the English side, [zone] and [titre] from the French side,
    [reference] is the [identifier] of the document (not its
    [references]). *)
Theorem emitted_pairs (base : string) (parse : string -> option element)
  (now : datetime) (path : string) (data : list feature) :
  weather_warning2geojson base parse now path = Ok data ->
  forall f, In f data ->
    exists root g i tag g' i' tag',
      parse path = Some root
      /\ In g (iter root (cap_tag "info")) /\ is_french g = false
      /\ In i (areas_of g) /\ polygon_of i = Some tag
      /\ In g' (iter root (cap_tag "info")) /\ is_french g' = true
      /\ In i' (areas_of g') /\ polygon_of i' = Some tag'
      /\ area_key tag = area_key tag'
      /\ reference (feature_properties f)
         = _get_element root [cap "identifier"] None
      /\ area (feature_properties f) = _get_element i [cap "areaDesc"] None
      /\ zone (feature_properties f) = _get_element i' [cap "areaDesc"] None
      /\ headline (feature_properties f)
         = _get_element g [cap "headline"] None
      /\ titre (feature_properties f)
         = _get_element g' [cap "headline"] None
      /\ alert_type (feature_properties f)
         = _get_element g (parameter_value (Position 1)) None
      /\ status (feature_properties f)
         = _get_element g (parameter_value (FromLast 4)) None.
Proof.
  intros H f I.
  destruct (emitted _ _ _ _ _ H) as (root & lastref & st & remove
                                     & P & C & _ & F).
  destruct (Forall2_in_right _ _ _ _ F I)
    as (k & _ & e & t & poly & r & Ge & Gt & _ & _ & ->).
  destruct (collect_english _ _ _ _ _ _ _ _ C Ge)
    as (g & i & Ig & Ii & E & Fr).
  destruct (collect_french _ _ _ _ _ _ _ _ C Gt)
    as (g' & i' & Ig' & Ii' & E' & Fr').
  destruct (english_entry_inv _ _ _ _ _ E)
    as (tag & d & f' & ds & Pg & K & _ & _ & _ & ->).
  destruct (french_entry_inv _ _ _ _ E') as (tag' & ds' & Pg' & K' & _ & ->).
  exists root, g, i, tag, g', i', tag'.
  repeat split; auto. congruence.
Qed.

Lemma emitted_pairs_witness :
  exists data,
    weather_warning2geojson Sample.basepath
      (Sample.read (Sample.bilingual Sample.triangle Sample.tomorrow))
      Sample.now Sample.filepath = Ok data
    /\ data <> []
    /\ forall f, In f data ->
         reference (feature_properties f)
         = Some "urn:oid:2.49.0.1.124.1"%string.
Proof.
  eexists. split; [vm_compute; reflexivity|]. split; [discriminate|].
  intros f I.
  destruct (emitted_pairs Sample.basepath
              (Sample.read (Sample.bilingual Sample.triangle Sample.tomorrow))
              Sample.now Sample.filepath _ ltac:(vm_compute; reflexivity) f I)
    as (root & g & i & tag & g' & i' & tag' & P & _ & _ & _ & _ & _ & _ & _
        & _ & _ & R & _).
  rewrite R. injection P as <-. vm_compute. reflexivity.
Defined.



(* ================================================================= *)
(** ** The ring of a feature *)

Section Rings.






End Rings.



(* ================================================================= *)
(** ** Which token lists give triples *)

Section PairLoopConverse.

Lemma pair_loop_ok_inv (tokens : list string) (ls : list nat)
  (acc res : list (list float)) :
  1 < List.length tokens ->
  for_each (pair_body tokens) ls acc = Ok res ->
  exists pts, res = acc ++ pts /\ Forall2 (triple_at tokens) ls pts.
Proof.
  intros L. revert acc; induction ls as [|l ls IH]; intros acc;
    cbn [for_each].
  - intros [= <-]. exists []. rewrite app_nil_r. split; [reflexivity|constructor].
  - intros H. bind_inv H. unfold pair_body in Hx.
    apply Nat.ltb_lt in L. rewrite L in Hx.
    bind_inv Hx. bind_inv Hx. bind_inv Hx. bind_inv Hx. injection Hx as <-.
    destruct (IH _ H) as (pts & -> & F).
    exists ([x1; x3; float_zero] :: pts). rewrite <- app_assoc.
    split; [reflexivity|]. constructor; [|exact F].
    unfold getitem in Hx0, Hx2.
    destruct (nth_error tokens (l + 1)) as [a|] eqn:Na; [|discriminate].
    destruct (nth_error tokens l) as [b|] eqn:Nb; [|discriminate].
    injection Hx0 as <-. injection Hx2 as <-.
    now exists b, a, x1, x3.
Qed.

Lemma pair_loop_odd (tokens : list string) (n : nat) :
  1 <= n -> List.length tokens = 2 * n + 1 ->
  pair_loop tokens = Raise IndexError.
Proof.
  intros N L.
  rewrite pair_loop_body, L, reversed_range2_odd. cbn [for_each].
  unfold pair_body at 1.
  replace (1 <? List.length tokens) with true
    by (symmetry; apply Nat.ltb_lt; lia).
  rewrite getitem_out_of_range by lia. reflexivity.
Qed.

Lemma Forall2_in_left {X Y : Type} (R : X -> Y -> Prop)
  (l1 : list X) (l2 : list Y) (x : X) :
  Forall2 R l1 l2 -> In x l1 -> exists y, In y l2 /\ R x y.
Proof.
  induction 1 as [|a b l1 l2 Rab F IH]; intros I; [contradiction|].
  destruct I as [<-|I].
  - exists b. split; [now left | exact Rab].
  - destruct (IH I) as (y & Iy & Ry). exists y. split; [now right | exact Ry].
Qed.

End PairLoopConverse.

Lemma pair_loop_even_coordinates (tokens : list string) (n : nat)
  (poly : list (list float)) :
  1 <= n -> List.length tokens = 2 * n ->
  pair_loop tokens = Ok poly ->
  List.length poly = n /\ coordinate_tokens tokens.
Proof.
  intros N Ln H.
  rewrite pair_loop_body, Ln, reversed_range2_even in H.
  destruct (pair_loop_ok_inv tokens _ _ _ ltac:(lia) H) as (pts & -> & F).
  cbn [app]. split.
  - rewrite (Forall2_length_eq _ _ _ F).
    now rewrite length_rev, length_map, length_seq.
  - unfold coordinate_tokens. apply Forall_forall. intros t It.
    apply In_nth_error in It. destruct It as (j & Nj).
    assert (Bj : j < 2 * n).
    { rewrite <- Ln. apply nth_error_Some. congruence. }
    pose proof (Nat.div_mod_eq j 2) as Ej.
    pose proof (Nat.mod_upper_bound j 2 ltac:(lia)) as Bm.
    assert (Il : In (2 * (j / 2)) (rev (map (fun i => 2 * i) (seq 0 n)))).
    { rewrite <- in_rev. apply in_map_iff. exists (j / 2).
      split; [reflexivity|]. apply in_seq. lia. }
    destruct (Forall2_in_left _ _ _ _ F Il)
      as (p & _ & lat & lon & x & y & Nlat & Nlon & Flon & Flat & _).
    destruct (j mod 2) as [|[|m']] eqn:Mj; [| |lia].
    + replace j with (2 * (j / 2)) in Nj by lia.
      rewrite Nlat in Nj. injection Nj as <-. eauto.
    + replace j with (2 * (j / 2) + 1) in Nj by lia.
      rewrite Nlon in Nj. injection Nj as <-. eauto.
Qed.

Lemma pair_loop_raises (tokens : list string) (e : exn) :
  pair_loop tokens = Raise e -> e = IndexError \/ e = ValueError.
Proof.
  rewrite pair_loop_body. generalize (reversed_range2 (List.length tokens)).
  generalize (@nil (list float)).
  intros acc ls; revert acc; induction ls as [|l ls IH]; intros acc;
    cbn [for_each]; [discriminate|].
  unfold pair_body at 1. destruct (1 <? List.length tokens); [|apply IH].
  unfold getitem.
  destruct (nth_error tokens (l + 1)) as [a|]; cbn [bind];
    [|intros [= <-]; now left].
  destruct (float_of_str a) as [x|e1] eqn:Ea; cbn [bind];
    [|intros [= <-]; right; eapply float_of_str_raises; eauto].
  destruct (nth_error tokens l) as [b|]; cbn [bind];
    [|intros [= <-]; now left].
  destruct (float_of_str b) as [y|e2] eqn:Eb; cbn [bind];
    [apply IH | intros [= <-]; right; eapply float_of_str_raises; eauto].
Qed.

(** X5. The pair loop returns in two cases only: on fewer than two tokens,
    with no triple; and on an even number [2n >= 2] of tokens each of
    which is the text of a float, with exactly [n] triples.  So a list of
    triples that is not empty comes from an even-length list of
    coordinates. *)
Theorem pair_loop_returns (tokens : list string) (poly : list (list float)) :
  pair_loop tokens = Ok poly ->
  (List.length tokens <= 1 /\ poly = [])
  \/ exists n,
       1 <= n /\ List.length tokens = 2 * n /\ List.length poly = n
       /\ coordinate_tokens tokens.
Proof.
  intros H.
  destruct (Nat.le_gt_cases (List.length tokens) 1) as [S|L].
  - left. split; [exact S|]. rewrite (pair_loop_short _ S) in H. congruence.
  - right.
    pose proof (Nat.div_mod_eq (List.length tokens) 2) as E.
    pose proof (Nat.mod_upper_bound (List.length tokens) 2 ltac:(lia)) as B.
    set (n := List.length tokens / 2) in *.
    destruct (List.length tokens mod 2) as [|[|m]] eqn:M; [| |lia].
    + exists n. assert (Ln : List.length tokens = 2 * n) by lia.
      split; [lia|]. split; [exact Ln|].
      apply pair_loop_even_coordinates; [lia | exact Ln | exact H].
    + rewrite (pair_loop_odd tokens n) in H; [discriminate | lia | lia].
Qed.

Lemma pair_loop_returns_witness :
  exists n,
    1 <= n
    /\ List.length ["45.0"; "-75.0"; "45.1"; "-75.0"]%string = 2 * n.
Proof.
  destruct (pair_loop_returns ["45.0"; "-75.0"; "45.1"; "-75.0"]%string _
              ltac:(vm_compute; reflexivity))
    as [(S & _)|(n & N & L & _)].
  - cbn in S. lia.
  - exists n. split; assumption.
Defined.

(* ================================================================= *)
(** ** More on the date normalizer *)

Section DateEdges.

Lemma normalized_iso_seconds (d : datetime) (suffix : string) :
  normalized (iso_seconds d ++ suffix) = stamp d.
Proof.
  rewrite normalized_delete.
  unfold iso_seconds, stamp, pad4, pad2.
  cbn [String.append].
  repeat first
    [ rewrite delete_class_keep by (apply punctuation_digit_char, mod10_lt)
    | rewrite delete_class_drop by reflexivity ].
  reflexivity.
Qed.

Lemma normalized_stamp (d : datetime) (suffix : string) :
  normalized (stamp d ++ suffix) = stamp d.
Proof.
  rewrite normalized_delete.
  unfold stamp, pad4, pad2.
  cbn [String.append].
  repeat rewrite delete_class_keep by (apply punctuation_digit_char, mod10_lt).
  reflexivity.
Qed.

End DateEdges.

(** X6. The date normalizer reads the instant from the first 14 digits
    and ignores whatever follows the seconds: for an instant [d] of whole
    seconds, [YYYY-MM-DDTHH:MM:SS] followed by any text (a [Z], a
    timezone offset, fractions) parses to [d], the offset not applied; and
    so does the bare [YYYYMMDDHHMMSS] followed by any text. *)
Theorem date_suffix_ignored (d : datetime) (suffix : string) :
  valid_datetime d = true -> microsecond d = 0 ->
  _get_date_format (Some (iso_seconds d ++ suffix)%string) = Ok d
  /\ _get_date_format (Some (stamp d ++ suffix)%string) = Ok d.
Proof.
  intros V U.
  rewrite !get_date_format_normalized, normalized_iso_seconds,
    normalized_stamp, strptime_stamp by exact V.
  now rewrite whole_seconds_id.
Qed.

Lemma date_suffix_ignored_witness :
  _get_date_format
    (Some (iso_seconds Sample.tomorrow_instant ++ "-05:00")%string)
  = Ok Sample.tomorrow_instant.
Proof.
  apply (date_suffix_ignored Sample.tomorrow_instant "-05:00");
    reflexivity.
Defined.

(** X7. The outcomes of the date normalizer: a missing date ([None])
    raises [TypeError]; a text either raises [ValueError] or gives an
    instant the calendar accepts (year 1 to 9999, month, day of that
    month, hour, minute, second in range) with no microseconds. *)
Theorem date_format_outcomes :
  _get_date_format None = Raise TypeError
  /\ (forall s e, _get_date_format (Some s) = Raise e -> e = ValueError)
  /\ (forall x d, _get_date_format x = Ok d ->
        x <> None /\ valid_datetime d = true /\ microsecond d = 0
        /\ 1 <= year d /\ 1 <= month d <= 12
        /\ 1 <= day d <= days_in_month (year d) (month d)
        /\ hour d < 24 /\ minute d < 60 /\ second d < 60).
Proof.
  split; [reflexivity|]. split.
  - intros s e. rewrite get_date_format_normalized. apply strptime_raises.
  - intros x d H. split; [now destruct x|].
    destruct (get_date_format_valid _ _ H) as (V & U).
    split; [exact V|]. split; [exact U|].
    destruct (valid_datetime_fields d V) as (Y & _ & M & D & Hh & Mi & Se).
    unfold valid_datetime in V.
    repeat match goal with
           | H : (_ && _)%bool = true |- _ => apply andb_prop in H; destruct H
           | H : (_ <=? _) = true |- _ => apply Nat.leb_le in H
           | H : (_ <? _) = true |- _ => apply Nat.ltb_lt in H
           end.
    repeat split; try assumption; lia.
Qed.

Lemma date_format_outcomes_witness :
  valid_datetime Sample.tomorrow_instant = true.
Proof.
  apply (proj2 (proj2 date_format_outcomes) (Some Sample.tomorrow)
           Sample.tomorrow_instant).
  vm_compute. reflexivity.
Defined.

(* ================================================================= *)
(** ** The seen-list *)

Section SeenList.

Variables (identifier_ : option string) (lastref url_ : string).





End SeenList.



(* ================================================================= *)
(** ** Elements a document cannot do without *)

Section Mandatory.

Lemma blocks_expires (now : datetime) (identifier_ : option string)
  (lastref url_ : string) (infos : list element) (st st' : alerts) :
  for_each (info_block now identifier_ lastref url_) infos st = Ok st' ->
  Forall (fun g => exists e, reparsed_expires g = Ok e) infos.
Proof.
  revert st; induction infos as [|g infos IH]; intros st; cbn [for_each];
    [constructor|].
  intros H. bind_inv H.
  destruct (info_block_ok _ _ _ _ _ _ _ Hx) as (e & R & _).
  constructor; [eauto | eapply IH; eauto].
Qed.

End Mandatory.

(** X9. A call returns only for a document that parses, has a
    [references] element with text, and in which every [info] element,
    of either language and expired or not, has an [expires] the date
    normalizer accepts.  A document that does not parse ends the call
    with [UnboundLocalError], one without [references] with
    [AttributeError]. *)
Theorem mandatory_elements (base : string) (parse : string -> option element)
  (now : datetime) (path : string) :
  (forall data,
      weather_warning2geojson base parse now path = Ok data ->
      exists root refs,
        parse path = Some root
        /\ _get_element root [cap "references"] None = Some refs
        /\ forall g, In g (iter root (cap_tag "info")) ->
             exists e,
               _get_date_format (_get_element g [cap "expires"] None) = Ok e)
  /\ (parse path = None ->
      weather_warning2geojson base parse now path = Raise UnboundLocalError)
  /\ (forall root,
        parse path = Some root ->
        _get_element root [cap "references"] None = None ->
        weather_warning2geojson base parse now path = Raise AttributeError).
Proof.
  split; [|split].
  - intros data H.
    destruct (weather_warning2geojson_ok _ _ _ _ _ H)
      as (root & refs & lastref & st & remove & en & fr
          & P & R & _ & C & _).
    exists root, refs. split; [exact P|]. split; [exact R|].
    unfold collect in C. apply blocks_expires in C.
    rewrite Forall_forall in C. intros g I.
    destruct (C g I) as (e & E). unfold reparsed_expires in E.
    bind_inv E. eauto.
  - intros P. unfold weather_warning2geojson. now rewrite P.
  - intros root P R. unfold weather_warning2geojson. now rewrite P, R.
Qed.

Lemma mandatory_elements_witness :
  weather_warning2geojson Sample.basepath (fun _ => None) Sample.now
    Sample.filepath = Raise UnboundLocalError.
Proof.
  apply (proj1 (proj2 (mandatory_elements Sample.basepath (fun _ => None)
                         Sample.now Sample.filepath))).
  reflexivity.
Defined.

(* ================================================================= *)
(** ** The published address *)

Section Replace.

Lemma append_assoc_str (a b c : string) :
  ((a ++ b) ++ c = a ++ (b ++ c))%string.
Proof. induction a as [|x a IH]; cbn; [|rewrite IH]; reflexivity. Qed.

Lemma length_append_str (a b : string) :
  String.length (a ++ b)%string = String.length a + String.length b.
Proof. induction a as [|x a IH]; cbn; [|rewrite IH]; reflexivity. Qed.

Lemma starts_with_append (p s : string) : starts_with p (p ++ s) = true.
Proof.
  induction p as [|c p IH]; [apply starts_with_nil|].
  cbn. now rewrite Ascii.eqb_refl, IH.
Qed.

Lemma starts_with_ext (p x rest : string) :
  String.length p <= String.length x ->
  starts_with p (x ++ rest) = starts_with p x.
Proof.
  revert x; induction p as [|c p IH]; intros x L.
  - now rewrite !starts_with_nil.
  - destruct x as [|a x]; cbn in L; [lia|].
    cbn. rewrite IH by lia. reflexivity.
Qed.

Lemma take_prefix (k : nat) (s : string) :
  exists rest, s = (take k s ++ rest)%string
               /\ String.length (take k s) = Nat.min k (String.length s).
Proof.
  revert s; induction k as [|k IH]; intros s.
  - exists s. destruct s; split; reflexivity.
  - destruct s as [|c s]; [exists EmptyString; split; reflexivity|].
    destruct (IH s) as (rest & E & L). exists rest. cbn [take].
    split; [cbn; now rewrite <- E | cbn; now rewrite L].
Qed.

Lemma replace_from_none (old new s : string) :
  str_in old s = false -> replace_from old new 0 s = s.
Proof.
  induction s as [|c s IH]; [reflexivity|].
  cbn [str_in replace_from]. intros H. apply orb_false_elim in H.
  destruct H as (H1 & H2). rewrite H1, IH by exact H2. reflexivity.
Qed.

Lemma replace_from_skip (old new a s : string) :
  replace_from old new (String.length a) (a ++ s) = replace_from old new 0 s.
Proof. induction a as [|x a IH]; [reflexivity | exact IH]. Qed.

Lemma replace_from_match (old new post : string) :
  old <> EmptyString ->
  replace_from old new 0 (old ++ post)
  = (new ++ replace_from old new 0 post)%string.
Proof.
  intros N. destruct old as [|c o]; [contradiction|].
  pose proof (starts_with_append (String c o) post) as S.
  cbn [String.append replace_from] in *. rewrite S.
  cbn [String.length Nat.sub]. rewrite Nat.sub_0_r.
  now rewrite replace_from_skip.
Qed.

(** The first occurrence of [old], where no occurrence starts earlier. *)
Lemma replace_from_first (old new pre post : string) :
  old <> EmptyString ->
  str_in old (pre ++ take (String.length old - 1) old) = false ->
  replace_from old new 0 (pre ++ old ++ post)
  = (pre ++ new ++ replace_from old new 0 post)%string.
Proof.
  intros N. induction pre as [|a pre IH]; intros H.
  - cbn [String.append]. now apply replace_from_match.
  - cbn [String.append str_in] in H. apply orb_false_elim in H.
    destruct H as (H1 & H2).
    destruct (take_prefix (String.length old - 1) old) as (rest & E & L).
    assert (S : starts_with old (String a (pre ++ old ++ post)) = false).
    { rewrite <- H1. rewrite E at 2.
      rewrite (append_assoc_str _ rest post), <- (append_assoc_str pre).
      apply (starts_with_ext old
               (String a (pre ++ take (String.length old - 1) old))
               (rest ++ post)).
      cbn [String.length]. rewrite length_append_str, L. lia. }
    cbn [String.append replace_from]. rewrite S.
    now rewrite IH.
Qed.

End Replace.

Section PublishedUrl.

Lemma directory_not_empty (base : string) :
  (base ++ "/amqp/")%string <> EmptyString.
Proof. destruct base; discriminate. Qed.

Lemma replace_nonempty (old new s : string) :
  old <> EmptyString -> replace old new s = replace_from old new 0 s.
Proof. destruct old; [contradiction | reflexivity]. Qed.

End PublishedUrl.

(** X10. The [url] of every feature is the site address followed by the
    path of the document with the first, and every later, occurrence of
    [<GEOMET_WEATHER_BASEPATH>/amqp/] taken out.  For a path
    [<base>/amqp/<rest>] in which the directory occurs nowhere else it is
    [https://dd.weather.gc.ca/<rest>]; for a path in which the directory
    does not occur it is the site address followed by the whole path. *)
Theorem published_url_strips (base : string) :
  (forall parse now path data f,
      weather_warning2geojson base parse now path = Ok data ->
      In f data -> url (feature_properties f) = published_url base path)
  /\ (forall rest,
        str_in (base ++ "/amqp/")
          ("https://dd.weather.gc.ca/"
           ++ take (String.length (base ++ "/amqp/") - 1) (base ++ "/amqp/"))
        = false ->
        str_in (base ++ "/amqp/") rest = false ->
        published_url base ((base ++ "/amqp/") ++ rest)
        = ("https://dd.weather.gc.ca/" ++ rest)%string)
  /\ (forall path,
        str_in (base ++ "/amqp/") ("https://dd.weather.gc.ca/" ++ path)
        = false ->
        published_url base path = ("https://dd.weather.gc.ca/" ++ path)%string).
Proof.
  split; [|split].
  - intros parse now path data f H I.
    destruct (emitted _ _ _ _ _ H) as (root & lastref & st & remove
                                       & P & C & _ & F).
    destruct (Forall2_in_right _ _ _ _ F I)
      as (k & _ & e & t & poly & r & Ge & _ & _ & _ & ->).
    destruct (collect_english _ _ _ _ _ _ _ _ C Ge)
      as (g & i & _ & _ & E & _).
    destruct (english_entry_inv _ _ _ _ _ E)
      as (tag & d & f' & ds & _ & _ & _ & _ & _ & ->).
    reflexivity.
  - intros rest H1 H2. unfold published_url.
    rewrite replace_nonempty by apply directory_not_empty.
    rewrite (replace_from_first _ "" "https://dd.weather.gc.ca/" rest
               (directory_not_empty base) H1).
    now rewrite replace_from_none.
  - intros path H. unfold published_url.
    rewrite replace_nonempty by apply directory_not_empty.
    now apply replace_from_none.
Qed.

Lemma published_url_strips_witness :
  published_url Sample.basepath Sample.filepath
  = "https://dd.weather.gc.ca/alerts/cap/20200601/w.cap"%string.
Proof.
  apply (proj1 (proj2 (published_url_strips Sample.basepath))
           "alerts/cap/20200601/w.cap"); vm_compute; reflexivity.
Defined.

(* ================================================================= *)
(** ** Positional parameters *)

Section Parameters.

Lemma find_parameter_value (g : element) (p : predicate) :
  find g (parameter_value p)
  = match select_pred (Some p) (parameters g) with
    | q :: _ => find q [cap "value"]
    | [] => None
    end.
Proof.
  unfold find, findall, parameter_value, select, parameters.
  cbn [fold_left flat_map step_tag step_pred cap].
  rewrite app_nil_r.
  destruct (select_pred (Some p) (iterchildren g (cap_tag "parameter")))
    as [|q [|q' l]] eqn:E; cbn [flat_map]; try reflexivity.
  exfalso. unfold select_pred in E. destruct p.
  - destruct (nth_error _ _); discriminate.
  - destruct (_ <? _); [destruct (nth_error _ _)|]; discriminate.
Qed.

Lemma get_element_parameter (g : element) (p : predicate) :
  _get_element g (parameter_value p) None
  = match select_pred (Some p) (parameters g) with
    | q :: _ => value_of q
    | [] => None
    end.
Proof.
  unfold _get_element at 1. rewrite find_parameter_value.
  destruct (select_pred (Some p) (parameters g)); reflexivity.
Qed.

End Parameters.

(** X11. The two positional look-ups of an [info] element.  The status
    ([parameter[last()-4]/value]) is the text of the first [value] of the
    fifth [parameter] child counted from the end, and [None] when the
    element has fewer than five [parameter] children; the alert type
    ([parameter[1]/value]) is the text of the first [value] of the first
    [parameter] child, and [None] when there is none. *)
Theorem positional_parameters (g : element) :
  (List.length (parameters g) < 5 ->
   _get_element g (parameter_value (FromLast 4)) None = None)
  /\ (forall q,
        5 <= List.length (parameters g) ->
        nth_error (parameters g) (List.length (parameters g) - 5) = Some q ->
        _get_element g (parameter_value (FromLast 4)) None = value_of q)
  /\ (parameters g = [] ->
      _get_element g (parameter_value (Position 1)) None = None)
  /\ (forall q rest,
        parameters g = q :: rest ->
        _get_element g (parameter_value (Position 1)) None = value_of q).
Proof.
  rewrite !get_element_parameter. unfold select_pred.
  split; [|split; [|split]].
  - intros L.
    replace (4 <? List.length (parameters g)) with false
      by (symmetry; apply Nat.ltb_ge; lia).
    reflexivity.
  - intros q L N.
    replace (4 <? List.length (parameters g)) with true
      by (symmetry; apply Nat.ltb_lt; lia).
    now rewrite N.
  - intros ->. reflexivity.
  - intros q rest ->. reflexivity.
Qed.

Lemma positional_parameters_witness :
  _get_element
    (Sample.info_elem "en-CA" "snowfall warning in effect" "Heavy snow."
       Sample.tomorrow [])
    (parameter_value (FromLast 4)) None = None.
Proof.
  apply (proj1 (positional_parameters
                  (Sample.info_elem "en-CA" "snowfall warning in effect"
                     "Heavy snow." Sample.tomorrow []))).
  vm_compute. lia.
Defined.

(* ================================================================= *)
(** ** The bulk request *)

Section BulkBody.

Lemma bulk_data_from (data : list feature) (acc : list bulk_item) :
  fold_left add_doc data acc
  = acc ++ flat_map
             (fun doc =>
                [Action (mk_index_action INDEX_NAME "_doc" (feature_id doc));
                 Source doc]) data.
Proof.
  revert acc; induction data as [|doc data IH]; intros acc; cbn [fold_left].
  - cbn. now rewrite app_nil_r.
  - rewrite IH. unfold add_doc. cbn [flat_map].
    rewrite <- !app_assoc. reflexivity.
Qed.

Lemma action_ids_bulk (data : list feature) :
  action_ids (bulk_data_of data) = map feature_id data.
Proof.
  unfold bulk_data_of. rewrite bulk_data_from. cbn [app].
  induction data as [|doc data IH]; [reflexivity|].
  cbn [flat_map app map action_ids]. unfold action_ids in IH.
  cbn [action_id]. now rewrite IH.
Qed.

Lemma emitted_ids_nodup (base : string) (parse : string -> option element)
  (now : datetime) (path : string) (data : list feature) :
  weather_warning2geojson base parse now path = Ok data ->
  NoDup (map feature_id data).
Proof.
  intros H.
  destruct (emitted _ _ _ _ _ H) as (root & lastref & st & remove
                                     & P & C & _ & F).
  rewrite (Forall2_map_eq _ feature_id (fun k => k) _ _ F).
  - rewrite map_id, keys_filter_kept. apply NoDup_filter.
    apply (collect_nodup _ _ _ _ _ _ C).
  - intros k f (e & t & poly & r & Ge & _ & _ & _ & ->).
    destruct (collect_english _ _ _ _ _ _ _ _ C Ge) as (g & i & _ & _ & E & _).
    destruct (english_entry_inv _ _ _ _ _ E)
      as (tag & d & f' & ds & _ & -> & _ & _ & _ & ->).
    reflexivity.
Qed.

End BulkBody.

Section BulkLayout.

Lemma bulk_data_items (data : list feature) :
  bulk_data_of data = flat_map items_of data.
Proof. unfold bulk_data_of. now rewrite bulk_data_from. Qed.

Lemma nth_error_items (data : list feature) (i : nat) (doc : feature) :
  nth_error data i = Some doc ->
  nth_error (flat_map items_of data) (2 * i)
  = Some (Action (mk_index_action INDEX_NAME "_doc" (feature_id doc)))
  /\ nth_error (flat_map items_of data) (2 * i + 1) = Some (Source doc).
Proof.
  revert i; induction data as [|d data IH]; intros i.
  - destruct i; discriminate.
  - destruct i as [|i]; cbn [nth_error].
    + intros [= <-]. split; reflexivity.
    + intros H. destruct (IH _ H) as (A & B).
      replace (2 * S i) with (S (S (2 * i))) by lia.
      replace (S (S (2 * i)) + 1) with (S (S (2 * i + 1))) by lia.
      cbn [flat_map items_of app nth_error]. split; assumption.
Qed.

Lemma length_items (data : list feature) :
  List.length (flat_map items_of data) = 2 * List.length data.
Proof.
  induction data as [|d data IH]; [reflexivity|].
  cbn [flat_map items_of app List.length]. rewrite IH. lia.
Qed.

End BulkLayout.

(** X12. The body [load_data] hands to the bulk request holds two items
    per feature, in the order of the features: an index action for the
    index [cap_alerts] whose [_id] is the [identifier] of the feature,
    then the feature.  For the features of one call of
    [weather_warning2geojson] no [_id] occurs twice in the body. *)
Theorem bulk_body_layout (data : list feature) :
  List.length (bulk_data_of data) = 2 * List.length data
  /\ (forall i doc,
        nth_error data i = Some doc ->
        nth_error (bulk_data_of data) (2 * i)
        = Some (Action (mk_index_action "cap_alerts" "_doc"
                          (identifier (feature_properties doc))))
        /\ nth_error (bulk_data_of data) (2 * i + 1) = Some (Source doc))
  /\ action_ids (bulk_data_of data)
     = map (fun doc => identifier (feature_properties doc)) data
  /\ (forall base parse now path,
        weather_warning2geojson base parse now path = Ok data ->
        NoDup (action_ids (bulk_data_of data))).
Proof.
  split; [|split; [|split]].
  - rewrite bulk_data_items. apply length_items.
  - intros i doc H. rewrite bulk_data_items. now apply nth_error_items.
  - apply action_ids_bulk.
  - intros base parse now path H. rewrite action_ids_bulk.
    eapply emitted_ids_nodup; eauto.
Qed.

Lemma bulk_body_layout_witness :
  exists data,
    weather_warning2geojson Sample.basepath
      (Sample.read (Sample.bilingual Sample.triangle Sample.tomorrow))
      Sample.now Sample.filepath = Ok data
    /\ List.length (bulk_data_of data) = 2
    /\ NoDup (action_ids (bulk_data_of data)).
Proof.
  eexists. split; [vm_compute; reflexivity|].
  split; [reflexivity|].
  apply (proj2 (proj2 (proj2 (bulk_body_layout _))) Sample.basepath
           (Sample.read (Sample.bilingual Sample.triangle Sample.tomorrow))
           Sample.now Sample.filepath).
  vm_compute. reflexivity.
Defined.



(* ================================================================= *)
(** ** Documents that yield nothing *)

Section NoFeature.

Lemma split_at_not_empty (sep : ascii -> bool) (s : string) :
  split_at sep s <> [].
Proof.
  induction s as [|c s IH]; cbn [split_at]; [discriminate|].
  destruct (sep c); [discriminate|].
  destruct (split_at sep s); discriminate.
Qed.

Lemma last_item_ok {X : Type} (l : list X) :
  l <> [] -> exists x, last_item l = Ok x.
Proof.
  intros N. unfold last_item. destruct (rev l) as [|x r] eqn:E; [|eauto].
  apply (f_equal (@rev X)) in E. rewrite rev_involutive in E.
  now subst.
Qed.

End NoFeature.

(** X14. A document that parses and has its [references] but no [info]
    element yields the empty sequence of features: both mappings stay
    empty, so their sizes agree and [data] is bound. *)
Theorem no_info_no_feature (base : string)
  (parse : string -> option element) (now : datetime) (path : string)
  (root : element) (refs : string) :
  parse path = Some root ->
  _get_element root [cap "references"] None = Some refs ->
  iter root (cap_tag "info") = [] ->
  weather_warning2geojson base parse now path = Ok [].
Proof.
  intros P R I. unfold weather_warning2geojson, collect. rewrite P, R, I.
  destruct (last_item_ok (split_at (Ascii.eqb ",") refs)
              (split_at_not_empty _ _)) as (lastref & ->).
  reflexivity.
Qed.

Lemma no_info_no_feature_witness :
  weather_warning2geojson Sample.basepath (Sample.read (Sample.alert []))
    Sample.now Sample.filepath = Ok [].
Proof.
  apply (no_info_no_feature Sample.basepath (Sample.read (Sample.alert []))
           Sample.now Sample.filepath (Sample.alert [])
           "cap-pac@canada.ca,urn:oid:2.49.0.1.124.0");
    vm_compute; reflexivity.
Defined.

(** X15. When every [info] element of the document has an [expires]
    before the processing time, a call that returns returns no feature:
    the [expires] of a feature is that of the English [info] element
    its tuple was read from. *)
Theorem all_expired_no_feature (base : string)
  (parse : string -> option element) (now : datetime) (path : string)
  (data : list feature) :
  weather_warning2geojson base parse now path = Ok data ->
  (forall root g e,
      parse path = Some root -> In g (iter root (cap_tag "info")) ->
      _get_date_format (_get_element g [cap "expires"] None) = Ok e ->
      datetime_lt e now = true) ->
  data = [].
Proof.
  intros H A. destruct data as [|f data]; [reflexivity|]. exfalso.
  destruct (emitted _ _ _ _ _ H) as (root & lastref & st & remove
                                     & P & C & X & F).
  destruct (Forall2_in_right _ _ _ _ F (or_introl eq_refl))
    as (k & Ik & e & t & poly & r & Ge & _ & _ & _ & _).
  destruct (collect_english _ _ _ _ _ _ _ _ C Ge)
    as (g & i & Ig & _ & E & _).
  destruct (english_entry_inv _ _ _ _ _ E)
    as (tag & d & f' & ds & _ & _ & Pd & _ & _ & ->).
  destruct (proj2 (expired_keys_ok _ _ _ X) _ _ Ge) as (d' & Pd' & Lt).
  cbn [en_expires] in Pd'. unfold timeformat in Pd'.
  destruct (get_date_format_valid _ _ Pd) as (V & U).
  destruct (get_date_format_strftime_inv d d' V U Pd') as (_ & ->).
  rewrite keys_filter_kept in Ik. apply filter_In in Ik.
  destruct Ik as (_ & Nk). apply negb_true_iff in Nk.
  specialize (Lt (A _ _ _ P Ig Pd)). apply mem_in in Lt. congruence.
Qed.

Lemma all_expired_no_feature_witness :
  exists data,
    weather_warning2geojson Sample.basepath
      (Sample.read (Sample.bilingual Sample.triangle Sample.yesterday))
      Sample.now Sample.filepath = Ok data
    /\ data = [].
Proof.
  eexists. split; [vm_compute; reflexivity|].
  apply (all_expired_no_feature Sample.basepath
           (Sample.read (Sample.bilingual Sample.triangle Sample.yesterday))
           Sample.now Sample.filepath).
  - vm_compute. reflexivity.
  - intros root g e [= <-] I.
    vm_compute in I. destruct I as [<-|[<-|[]]]; vm_compute;
      intros [= <-]; reflexivity.
Defined.

(* ================================================================= *)
(** ** Removing expired keys *)

Section Removal.

Variable now : datetime.

Lemma expired_keys_exact (en : dict english_tuple) (remove : list string) :
  expired_keys now en = Ok remove ->
  remove = filter (expired now en) (keys en).
Proof.
  unfold expired_keys.
  assert (G : forall ks acc res,
    for_each
      (fun r j =>
         t <- lookup en j ;;
         d <- _get_date_format (Some (en_expires t)) ;;
         Ok (if datetime_lt d now then r ++ [j] else r)) ks acc = Ok res ->
    res = acc ++ filter (expired now en) ks).
  { induction ks as [|k ks IH]; intros acc res; cbn [for_each filter].
    - intros [= <-]. now rewrite app_nil_r.
    - intros H. bind_inv H. bind_inv Hx. bind_inv Hx. injection Hx as <-.
      rewrite (IH _ _ H). unfold expired at 2. unfold lookup in Hx0.
      destruct (get en k) as [t|]; [|discriminate].
      injection Hx0 as <-. rewrite Hx1.
      destruct (datetime_lt x1 now); [|reflexivity].
      now rewrite <- app_assoc. }
  intros H. now apply G in H.
Qed.

Lemma delitem_raises {V : Type} (d : dict V) (k : string) (e : exn) :
  delitem d k = Raise e -> e = KeyError /\ contains d k = false.
Proof.
  unfold delitem. destruct (contains d k); [discriminate|].
  intros [= <-]. now split.
Qed.

Lemma remove_keys_raises (remove : list string) (en : dict english_tuple)
  (fr : dict french_tuple) (e : exn) :
  remove_keys remove en fr = Raise e -> e = KeyError.
Proof.
  unfold remove_keys.
  generalize (en, fr). induction remove as [|key rest IH]; intros d;
    cbn [for_each]; [discriminate|].
  destruct (delitem (fst d) key) as [en'|e1] eqn:E1; cbn [bind].
  - destruct (delitem (snd d) key) as [fr'|e2] eqn:E2; cbn [bind].
    + apply IH.
    + intros [= <-]. now apply delitem_raises in E2.
  - intros [= <-]. now apply delitem_raises in E1.
Qed.

Lemma contains_filter_other {V : Type} (d : dict V) (key k : string) :
  k <> key -> contains d k = true ->
  contains (filter (fun kv => negb (String.eqb (fst kv) key)) d) k = true.
Proof.
  intros N C. unfold contains in *.
  rewrite (get_filter (fun x => negb (String.eqb x key))).
  apply String.eqb_neq in N. now rewrite N.
Qed.

Lemma contains_filter_back {V : Type} (d : dict V) (key k : string) :
  contains (filter (fun kv => negb (String.eqb (fst kv) key)) d) k = true ->
  contains d k = true.
Proof.
  unfold contains.
  rewrite (get_filter (fun x => negb (String.eqb x key))).
  now destruct (negb (String.eqb k key)).
Qed.

Lemma filter_kept_cons {V : Type} (key : string) (rest : list string)
  (d : dict V) :
  filter (kept rest) (filter (fun kv => negb (String.eqb (fst kv) key)) d)
  = filter (kept (key :: rest)) d.
Proof.
  rewrite filter_twice. apply filter_ext. intros [k v].
  unfold kept, mem. cbn [fst existsb]. now rewrite negb_orb.
Qed.

Lemma remove_keys_run (remove : list string) (en : dict english_tuple)
  (fr : dict french_tuple) :
  NoDup remove ->
  (forall k, In k remove -> contains en k = true /\ contains fr k = true) ->
  remove_keys remove en fr
  = Ok (filter (kept remove) en, filter (kept remove) fr).
Proof.
  unfold remove_keys.
  revert en fr; induction remove as [|key rest IH]; intros en fr N A;
    cbn [for_each].
  - unfold kept; cbn.
    f_equal. f_equal; symmetry; apply forallb_filter_id, forallb_forall;
      reflexivity.
  - destruct (A key (or_introl eq_refl)) as (Ce & Cf).
    cbn [fst snd]. unfold delitem at 1 2. rewrite Ce, Cf. cbn [bind].
    inversion N as [|? ? Nk Nr]; subst.
    rewrite IH.
    + now rewrite !filter_kept_cons.
    + exact Nr.
    + intros k I. destruct (A k (or_intror I)) as (Ce' & Cf').
      assert (k <> key) by (intros ->; contradiction).
      split; now apply contains_filter_other.
Qed.

Lemma remove_keys_present (remove : list string) (en en' : dict english_tuple)
  (fr fr' : dict french_tuple) :
  remove_keys remove en fr = Ok (en', fr') ->
  forall k, In k remove -> contains fr k = true.
Proof.
  unfold remove_keys.
  revert en fr; induction remove as [|key rest IH]; intros en fr;
    cbn [for_each]; [intros _ k []|].
  intros H k I. bind_inv H. bind_inv Hx. bind_inv Hx. injection Hx as <-.
  cbn [fst snd] in *.
  apply delitem_ok in Hx1. destruct Hx1 as (Cf & ->).
  destruct I as [<-|I]; [exact Cf|].
  eapply contains_filter_back, IH; eauto.
Qed.

End Removal.

(** X16. The second loop of the expiry filter needs every expired English
    key in the French mapping as well.  With distinct English keys, as the
    pass builds them: when each expired key has a French tuple the loop
    leaves both mappings with exactly the entries of the other keys, in
    their order; when one expired key has none the loop, and with it the
    call, raises [KeyError]. *)
Theorem expired_key_needs_french (now : datetime) (en : dict english_tuple)
  (fr : dict french_tuple) (remove : list string) :
  NoDup (keys en) ->
  expired_keys now en = Ok remove ->
  remove = filter (expired now en) (keys en)
  /\ ((forall k, In k remove -> contains fr k = true) ->
      remove_keys remove en fr
      = Ok (filter (kept remove) en, filter (kept remove) fr))
  /\ (forall k, In k remove -> contains fr k = false ->
      remove_keys remove en fr = Raise KeyError).
Proof.
  intros N X. pose proof (expired_keys_exact _ _ _ X) as E.
  split; [exact E|].
  assert (Nr : NoDup remove) by (rewrite E; now apply NoDup_filter).
  assert (Ie : forall k, In k remove -> contains en k = true).
  { intros k I. rewrite E in I. apply filter_In in I. destruct I as (I & _).
    apply keys_get in I. destruct I as (v & G). unfold contains.
    now rewrite G. }
  split.
  - intros A. apply remove_keys_run; [exact Nr|]. intros k I. split; auto.
  - intros k I C.
    destruct (remove_keys remove en fr) as [[en' fr']|e] eqn:R.
    + rewrite (remove_keys_present _ _ _ _ _ R k I) in C. discriminate.
    + f_equal. eapply remove_keys_raises; eauto.
Qed.

Lemma expired_key_needs_french_witness :
  remove_keys ["a-450750451750"%string]
    [("a-450750451750"%string, expired_tuple)] []
  = Raise KeyError.
Proof.
  apply (proj2 (proj2 (expired_key_needs_french Sample.now
                         [("a-450750451750"%string, expired_tuple)] []
                         ["a-450750451750"%string]
                         ltac:(repeat constructor; intros [])
                         ltac:(vm_compute; reflexivity)))
           "a-450750451750"%string).
  - now left.
  - reflexivity.
Defined.

(* ================================================================= *)
(** ** Descriptions *)

Section Descriptions.

Lemma replace_char_in (c c' : ascii) (s : string) :
  c <> c' ->
  char_in c (replace (String c "") (String c' "") s) = false.
Proof.
  intros N. unfold replace.
  induction s as [|a s IH]; [reflexivity|].
  cbn [replace_from starts_with String.length Nat.sub].
  rewrite ?andb_true_r.
  destruct (Ascii.eqb c a) eqn:E.
  - cbn [String.append char_in]. rewrite IH, orb_false_r.
    apply Ascii.eqb_neq. congruence.
  - cbn [char_in]. rewrite IH, orb_false_r.
    rewrite Ascii.eqb_sym. exact E.
Qed.

Lemma char_in_lstrip (c : ascii) (s : string) :
  char_in c s = false -> char_in c (lstrip s) = false.
Proof.
  induction s as [|a s IH]; [reflexivity|].
  cbn [lstrip]. destruct (is_space a); [|auto].
  cbn [char_in]. intros H. apply orb_false_elim in H. now apply IH.
Qed.

Lemma char_in_rstrip (c : ascii) (s : string) :
  char_in c s = false -> char_in c (rstrip s) = false.
Proof.
  induction s as [|a s IH]; [reflexivity|].
  cbn [rstrip char_in]. intros H. apply orb_false_elim in H.
  destruct H as (H1 & H2). specialize (IH H2).
  destruct (rstrip s) as [|b r].
  - destruct (is_space a); [reflexivity|]. cbn [char_in]. now rewrite H1.
  - cbn [char_in] in *. now rewrite H1.
Qed.

Lemma rstrip_idempotent (s : string) : rstrip (rstrip s) = rstrip s.
Proof.
  induction s as [|a s IH]; [reflexivity|].
  cbn [rstrip]. destruct (rstrip s) as [|b r] eqn:E.
  - destruct (is_space a) eqn:Sa; [reflexivity|].
    cbn [rstrip]. now rewrite Sa.
  - cbn [rstrip]. cbn [rstrip] in IH. rewrite IH. reflexivity.
Qed.

Lemma lstrip_head (s : string) :
  match lstrip s with
  | EmptyString => True
  | String a _ => is_space a = false
  end.
Proof.
  induction s as [|a s IH]; [exact I|].
  cbn [lstrip]. destruct (is_space a) eqn:E; [exact IH | exact E].
Qed.

Lemma lstrip_fixed (s : string) :
  match s with
  | EmptyString => True
  | String a _ => is_space a = false
  end -> lstrip s = s.
Proof. destruct s as [|a s]; [reflexivity|]. cbn [lstrip]. now intros ->. Qed.

Lemma rstrip_head (s : string) :
  match s with
  | EmptyString => True
  | String a _ => is_space a = false
  end ->
  match rstrip s with
  | EmptyString => True
  | String a _ => is_space a = false
  end.
Proof.
  destruct s as [|a s]; [intros _; exact I|].
  intros H. cbn [rstrip]. destruct (rstrip s); [now rewrite H | exact H].
Qed.

Lemma strip_fixed (s : string) :
  lstrip (strip s) = strip s /\ rstrip (strip s) = strip s.
Proof.
  unfold strip. split; [|apply rstrip_idempotent].
  apply lstrip_fixed, rstrip_head, lstrip_head.
Qed.

Lemma clean_description_ok (x : option string) (s : string) :
  clean_description x = Ok s ->
  char_in (ascii_of_nat 10) s = false /\ lstrip s = s /\ rstrip s = s.
Proof.
  destruct x as [d|]; [|discriminate]. cbn [clean_description].
  intros [= <-]. split; [|apply strip_fixed].
  unfold strip. apply char_in_rstrip, char_in_lstrip.
  unfold newline. apply replace_char_in. discriminate.
Qed.

End Descriptions.

(** X17. The two descriptions of every feature of a call that returns
    hold no newline, and neither starts nor ends with white space:
    stripping them again on either side changes nothing. *)
Theorem descriptions_cleaned (base : string)
  (parse : string -> option element) (now : datetime) (path : string)
  (data : list feature) :
  weather_warning2geojson base parse now path = Ok data ->
  forall f s,
    In f data ->
    s = descrip_en (feature_properties f)
    \/ s = descrip_fr (feature_properties f) ->
    char_in (ascii_of_nat 10) s = false /\ lstrip s = s /\ rstrip s = s.
Proof.
  intros H f s I S.
  destruct (emitted _ _ _ _ _ H) as (root & lastref & st & remove
                                     & P & C & _ & F).
  destruct (Forall2_in_right _ _ _ _ F I)
    as (k & _ & e & t & poly & r & Ge & Gt & _ & _ & ->).
  destruct (collect_english _ _ _ _ _ _ _ _ C Ge) as (g & i & _ & _ & E & _).
  destruct (collect_french _ _ _ _ _ _ _ _ C Gt) as (g' & i' & _ & _ & E' & _).
  destruct (english_entry_inv _ _ _ _ _ E)
    as (tag & d & f' & ds & _ & _ & _ & _ & D & ->).
  destruct (french_entry_inv _ _ _ _ E') as (tag' & ds' & _ & _ & D' & ->).
  cbn in S. destruct S as [->| ->]; eapply clean_description_ok; eauto.
Qed.

Lemma descriptions_cleaned_witness :
  exists data,
    weather_warning2geojson Sample.basepath
      (Sample.read (Sample.bilingual Sample.triangle Sample.tomorrow))
      Sample.now Sample.filepath = Ok data
    /\ data <> []
    /\ forall f, In f data ->
         char_in (ascii_of_nat 10) (descrip_en (feature_properties f)) = false.
Proof.
  eexists. split; [vm_compute; reflexivity|]. split; [discriminate|].
  intros f I.
  apply (descriptions_cleaned Sample.basepath
           (Sample.read (Sample.bilingual Sample.triangle Sample.tomorrow))
           Sample.now Sample.filepath _ ltac:(vm_compute; reflexivity) f _ I).
  now left.
Defined.

(* ================================================================= *)
(** ** Order of the features, and tokens that are no numbers *)

Section Order.

Lemma mem_filter_expired (now : datetime) (en : dict english_tuple)
  (k : string) :
  In k (keys en) ->
  mem String.eqb k (filter (expired now en) (keys en)) = expired now en k.
Proof.
  intros I. destruct (expired now en k) eqn:E.
  - apply mem_in, filter_In. now split.
  - destruct (mem String.eqb k (filter (expired now en) (keys en))) eqn:M;
      [|reflexivity].
    apply mem_in, filter_In in M. destruct M as (_ & M). congruence.
Qed.

End Order.

(** X18. The features of a call that returns follow the English mapping
    of the pass: their identifiers are its keys in insertion order, the
    keys whose stored [expires] lies before the processing time left
    out. *)
Theorem features_in_insertion_order (base : string)
  (parse : string -> option element) (now : datetime) (path : string)
  (data : list feature) :
  weather_warning2geojson base parse now path = Ok data ->
  exists root lastref st,
    parse path = Some root
    /\ collect now (_get_element root [cap "identifier"] None) lastref
         (published_url base path) root = Ok st
    /\ map feature_id data
       = filter (fun k => negb (expired now (english_alert st) k))
           (keys (english_alert st))
    /\ List.length data <= List.length (english_alert st).
Proof.
  intros H.
  destruct (emitted _ _ _ _ _ H) as (root & lastref & st & remove
                                     & P & C & X & F).
  exists root, lastref, st. split; [exact P|]. split; [exact C|].
  assert (M : map feature_id data
              = filter (fun k => negb (expired now (english_alert st) k))
                  (keys (english_alert st))).
  { rewrite (Forall2_map_eq _ feature_id (fun k => k) _ _ F).
    - rewrite map_id, keys_filter_kept.
      rewrite (expired_keys_exact _ _ _ X).
      apply filter_ext_in. intros k I. now rewrite mem_filter_expired.
    - intros k f (e & t & poly & r & Ge & _ & _ & _ & ->).
      destruct (collect_english _ _ _ _ _ _ _ _ C Ge)
        as (g & i & _ & _ & E & _).
      destruct (english_entry_inv _ _ _ _ _ E)
        as (tag & d & f' & ds & _ & -> & _ & _ & _ & ->).
      reflexivity. }
  split; [exact M|].
  rewrite <- (length_map feature_id), M.
  etransitivity; [apply filter_length_le|].
  unfold keys. now rewrite length_map.
Qed.

Lemma features_in_insertion_order_witness :
  exists data,
    weather_warning2geojson Sample.basepath
      (Sample.read Sample.repeated) Sample.now Sample.filepath = Ok data
    /\ List.length data <= 1.
Proof.
  eexists. split; [vm_compute; reflexivity|].
  destruct (features_in_insertion_order Sample.basepath
              (Sample.read Sample.repeated) Sample.now Sample.filepath _
              ltac:(vm_compute; reflexivity))
    as (root & lastref & st & _ & _ & _ & _).
  cbn. lia.
Defined.

(** X19. The pair loop raises nothing but [IndexError] and [ValueError];
    on an even number [2n >= 2] of tokens one of which is not the text
    of a float it raises [ValueError]. *)
Theorem pair_loop_value_error (tokens : list string) :
  (forall e, pair_loop tokens = Raise e -> e = IndexError \/ e = ValueError)
  /\ (forall n,
        1 <= n -> List.length tokens = 2 * n ->
        ~ coordinate_tokens tokens ->
        pair_loop tokens = Raise ValueError).
Proof.
  split; [apply pair_loop_raises|].
  intros n N L C.
  destruct (pair_loop tokens) as [poly|e] eqn:E.
  - exfalso. apply C.
    now apply (pair_loop_even_coordinates tokens n poly).
  - f_equal. destruct (pair_loop_raises _ _ E) as [->| ->]; [|reflexivity].
    exfalso. revert E. rewrite pair_loop_body, L, reversed_range2_even.
    apply pair_loop_in_bounds. intros l I. rewrite L.
    now apply in_reversed_even.
Qed.

Lemma pair_loop_value_error_witness :
  pair_loop ["45.0"; ""; "-75.0"; "45.1"]%string = Raise ValueError.
Proof.
  apply (proj2 (pair_loop_value_error ["45.0"; ""; "-75.0"; "45.1"]%string)
           2); [lia | reflexivity |].
  intros C. unfold coordinate_tokens in C.
  inversion C as [|? ? _ C1]. inversion C1 as [|? ? (v & Hv) _].
  vm_compute in Hv. discriminate.
Defined.
